(** * GigFlow: the hire transaction, bid creation and the client circuit breaker

    A shallow embedding of the Express/Mongoose handlers of
    [server/index.js] (both generations of the file: the one exposing
    [POST /api/hire] and the one exposing [PATCH /api/bids/:bidId/hire] with
    socket.io), of the Mongoose models of [server/models.js], and of the
    hybrid request helper [requestWithFallback] of the client API layer.

    Collections are finite maps from the document [_id] to the document, so
    that the uniqueness of [_id] that MongoDB enforces is part of the type.
    Handlers are state-passing functions in a small state-and-exception
    monad: like a JavaScript [throw], an exception keeps the state reached so
    far, and it is the handler's [catch] block that decides what survives. *)

From stdpp Require Import gmap strings list fin_maps sorting pretty.
From Stdlib Require Import ZArith.

Local Open Scope string_scope.
Local Open Scope list_scope.
Local Open Scope nat_scope.

(** ** Data model ([server/models.js]) *)

Module Gig.
Inductive Status := open | assigned.

Record t := mk {
  title : string;
  description : string;
  budget : Z;
  ownerId : string;
  ownerName : string;
  status : Status;
  createdAt : nat
}.

(** [gig.status = s] *)
Definition set_status (s : Status) (g : t) : t :=
  mk (title g) (description g) (budget g) (ownerId g) (ownerName g) s
     (createdAt g).
End Gig.

Module Bid.
Inductive Status := pending | hired | rejected.

Record t := mk {
  gigId : string;
  freelancerId : string;
  freelancerName : string;
  message : string;
  price : Z;
  status : Status;
  createdAt : nat
}.

(** the update document [{ status: s }] applied to one bid *)
Definition set_status (s : Status) (b : t) : t :=
  mk (gigId b) (freelancerId b) (freelancerName b) (message b) (price b) s
     (createdAt b).
End Bid.

#[global] Instance gig_status_eq_dec : EqDecision Gig.Status.
Proof. solve_decision. Defined.

#[global] Instance bid_status_eq_dec : EqDecision Bid.Status.
Proof. solve_decision. Defined.

#[global] Instance bid_eq_dec : EqDecision Bid.t.
Proof. solve_decision. Defined.

#[global] Instance gig_eq_dec : EqDecision Gig.t.
Proof. solve_decision. Defined.

(** The persisted store: the [gigs] and [bids] collections, keyed by [_id]. *)
Record Store := mkStore {
  gigs : gmap string Gig.t;
  bids : gmap string Bid.t
}.

(** The identity that [authenticateToken] puts in [req.user]. *)
Record AuthUser := mkUser { user_id : string; user_name : string }.

(** A JavaScript [Error]; only its [message] is ever inspected. *)
Record Error := mkError { error_message : string }.

(** ** Schema validation

    Mongoose validates a document against its schema before it writes it.
    A path with [required: true] refuses a value that is missing; for a
    path of type String the empty string is refused alike. A field that the
    request lacks is the empty string here. The identifiers (type ObjectId)
    are symbolic names, refused when empty; the Number paths ([price],
    [budget]) are always present in this model. *)

(** The validator of a required path: the path if its value is refused. *)
Definition required (path value : string) : list string :=
  if String.eqb value "" then [path] else [].

(** [gigSchema]: the refused paths of a gig. *)
Definition gigSchema (doc : Gig.t) : list string :=
  required "title" (Gig.title doc)
  ++ required "description" (Gig.description doc)
  ++ required "ownerId" (Gig.ownerId doc)
  ++ required "ownerName" (Gig.ownerName doc).

(** [bidSchema]: the refused paths of a bid. *)
Definition bidSchema (doc : Bid.t) : list string :=
  required "gigId" (Bid.gigId doc)
  ++ required "freelancerId" (Bid.freelancerId doc)
  ++ required "freelancerName" (Bid.freelancerName doc)
  ++ required "message" (Bid.message doc).

Arguments gigSchema : simpl never.
Arguments bidSchema : simpl never.

(** The [ValidationError] a model throws for the refused paths. *)
Definition ValidationError (model : string) (paths : list string) : Error :=
  mkError
    (model +:+ " validation failed: "
     +:+ String.concat ", "
           ((λ path, path +:+ ": Path `" +:+ path +:+ "` is required.")
              <$> paths)).

(** ** The state-and-exception monad of the handlers *)

Definition M (S A : Type) : Type := S → (Error + A) * S.

Definition ret {S A} (a : A) : M S A := λ s, (inr a, s).

Definition throw {S A} (msg : string) : M S A := λ s, (inl (mkError msg), s).

Definition bind {S A B} (m : M S A) (k : A → M S B) : M S B :=
  λ s, match m s with
       | (inl e, s') => (inl e, s')
       | (inr a, s') => k a s'
       end.

Notation "'let*' x ':=' m 'in' k" := (bind m (λ x, k))
  (at level 10, x name, m at level 100, k at level 200).
Notation "'run' m 'then' k" := (bind m (λ _, k))
  (at level 10, m at level 100, k at level 200).

(** The state the driver keeps for the transaction of a session; a
    transaction counts as committed from the moment [commitTransaction] has
    been called, whether the commit went through or not. *)
Inductive TransactionState := in_progress | committed | aborted.

(** A Mongoose session with a running transaction: what is persisted, the
    transaction's private view with its uncommitted writes, and the state of
    the transaction. *)
Record Session := mkSession {
  persisted : Store;
  working : Store;
  transaction : TransactionState
}.

(** [session.startTransaction()] *)
Definition startTransaction (db : Store) : Session :=
  mkSession db db in_progress.

(** [.session(session)] / [{ session }]: run a store operation on the
    transaction's view. *)
Definition in_session {A} (m : M Store A) : M Session A :=
  λ s, let '(r, w) := m (working s) in
       (r, mkSession (persisted s) w (transaction s)).

(** The driver calls the handlers make. Each of them can reject (the store is
    unreachable, the transaction was aborted by the server, ...). *)
Inductive DbOp :=
  | Bid_findById_op | Gig_findById_op | gig_save_op | Bid_updateMany_op
  | Bid_findByIdAndUpdate_op | commitTransaction_op
  | Bid_findOne_op | Bid_create_op | Bid_find_op | Gig_create_op | Gig_find_op.

(** The order of [.sort({ createdAt: -1 })]. *)
Definition newest_first (a b : string * Gig.t) : Prop :=
  Gig.createdAt b.2 ≤ Gig.createdAt a.2.

#[global] Instance newest_first_dec a b : Decision (newest_first a b).
Proof. unfold newest_first. apply _. Defined.

Section Driver.
(** Which driver calls reject, and with which error. *)
Variable fault : DbOp → option Error.

Definition db_call {S A} (op : DbOp) (f : S → A * S) : M S A :=
  λ s, match fault op with
       | Some e => (inl e, s)
       | None => let '(a, s') := f s in (inr a, s')
       end.

(** [Gig.findById(id)] *)
Definition Gig_findById (id : string) : M Store (option Gig.t) :=
  db_call Gig_findById_op (λ db, (gigs db !! id, db)).

(** [Bid.findById(id)] *)
Definition Bid_findById (id : string) : M Store (option Bid.t) :=
  db_call Bid_findById_op (λ db, (bids db !! id, db)).

(** [gig.save()] for the document fetched under [id] *)
Definition gig_save (id : string) (g : Gig.t) : M Store unit :=
  db_call gig_save_op (λ db, (tt, mkStore (<[id := g]> (gigs db)) (bids db))).

(** [Bid.updateMany({ gigId }, { status })] *)
Definition Bid_updateMany (gigId : string) (s : Bid.Status) : M Store unit :=
  db_call Bid_updateMany_op (λ db,
    (tt, mkStore (gigs db)
           ((λ b, if decide (Bid.gigId b = gigId)
                  then Bid.set_status s b else b) <$> bids db))).

(** [Bid.findByIdAndUpdate(id, { status })]: no document, no write. *)
Definition Bid_findByIdAndUpdate (id : string) (s : Bid.Status)
  : M Store unit :=
  db_call Bid_findByIdAndUpdate_op (λ db,
    (tt, mkStore (gigs db) (alter (Bid.set_status s) id (bids db)))).

(** [session.commitTransaction()]: the writes of the transaction become the
    persisted store; when the commit is rejected nothing is persisted, and
    the transaction is marked committed all the same. *)
Definition commitTransaction : M Session unit :=
  λ s, match fault commitTransaction_op with
       | Some e => (inl e, mkSession (persisted s) (working s) committed)
       | None => (inr tt, mkSession (working s) (working s) committed)
       end.

(** [session.abortTransaction()]: the transaction's view is dropped. The
    driver refuses to abort a transaction on which [commitTransaction] has
    been called, or one that is aborted already; an error of the server's
    answer to the abort command is ignored by the driver, so that these are
    the only rejections. *)
Definition abort_after_commit : Error :=
  mkError "Cannot call abortTransaction after calling commitTransaction".

Definition abortTransaction : M Session unit :=
  λ s, match transaction s with
       | committed => (inl abort_after_commit, s)
       | aborted => (inl (mkError "Cannot call abortTransaction twice"), s)
       | in_progress => (inr tt, mkSession (persisted s) (persisted s) aborted)
       end.

(** [Bid.findOne({ gigId, freelancerId })] *)
Definition Bid_findOne (gigId freelancerId : string)
  : M Store (option (string * Bid.t)) :=
  db_call Bid_findOne_op (λ db,
    (head (filter (λ kb, Bid.gigId kb.2 = gigId
                         ∧ Bid.freelancerId kb.2 = freelancerId)
                  (map_to_list (bids db))), db)).

(** [Bid.find(query)] *)
Definition Bid_find (query : Bid.t → bool) : M Store (list (string * Bid.t)) :=
  db_call Bid_find_op (λ db,
    (filter (λ kb, query kb.2 = true) (map_to_list (bids db)), db)).

(** [Gig.find(query).sort({ createdAt: -1 })] *)
Definition Gig_find_sorted (query : Gig.t → bool)
  : M Store (list (string * Gig.t)) :=
  db_call Gig_find_op (λ db,
    (merge_sort newest_first
       (filter (λ kg, query kg.2 = true) (map_to_list (gigs db))), db)).

(** [Bid.create(doc)]: the document is validated against [bidSchema]
    before anything is sent to the store. [_id] is the identifier of the new
    document (taken from the document or generated by the driver); the
    unique index on [_id] rejects an identifier that is already in the
    collection. *)
Definition Bid_create (_id : string) (doc : Bid.t) : M Store Bid.t :=
  λ db, match bidSchema doc with
        | _ :: _ => (inl (ValidationError "Bid" (bidSchema doc)), db)
        | [] =>
          match fault Bid_create_op with
          | Some e => (inl e, db)
          | None =>
            match bids db !! _id with
            | Some _ => (inl (mkError "E11000 duplicate key error"), db)
            | None => (inr doc, mkStore (gigs db) (<[_id := doc]> (bids db)))
            end
          end
        end.

(** [Gig.create(doc)], as [Bid.create], against [gigSchema]. *)
Definition Gig_create (_id : string) (doc : Gig.t) : M Store Gig.t :=
  λ db, match gigSchema doc with
        | _ :: _ => (inl (ValidationError "Gig" (gigSchema doc)), db)
        | [] =>
          match fault Gig_create_op with
          | Some e => (inl e, db)
          | None =>
            match gigs db !! _id with
            | Some _ => (inl (mkError "E11000 duplicate key error"), db)
            | None => (inr doc, mkStore (<[_id := doc]> (gigs db)) (bids db))
            end
          end
        end.
End Driver.

(** ** HTTP responses *)

Inductive Body :=
  | success_true                                  (* [{ success: true }] *)
  | message_of (m : string)                       (* [{ message: m }] *)
  | bid_doc (_id : string) (b : Bid.t)
  | bid_docs (l : list (string * Bid.t))
  | gig_doc (_id : string) (g : Gig.t)
  | gig_docs (l : list (string * Gig.t))
  | nothing_sent (error : string).

(** [res.status(statusCode).json(body)]; [res.json] alone answers 200. *)
Record Response := mkRes { statusCode : nat; body : Body }.

Definition res_json (b : Body) : Response := mkRes 200 b.
Definition res_status_json (code : nat) (b : Body) : Response := mkRes code b.

(** The handler's promise is rejected with [error] before [res] has been
    used: the handler sends no answer (there is no status: 0 stands for
    that). *)
Definition unanswered (error : Error) : Response :=
  mkRes 0 (nothing_sent (error_message error)).

(** The fields of [req.body] that [POST /api/bids] keeps: [freelancerId],
    [freelancerName] and [status] of the body are overwritten by the handler
    (they come after the spread). *)
Record BidBody := mkBidBody {
  body_gigId : string;
  body_message : string;
  body_price : Z
}.

(** Likewise for [POST /api/gigs]: [ownerId], [ownerName] and [status] are
    overwritten. *)
Record GigBody := mkGigBody {
  body_title : string;
  body_description : string;
  body_budget : Z
}.

(** JavaScript truthiness of an optional query-string parameter. *)
Definition truthy (o : option string) : bool :=
  match o with
  | Some s => negb (String.eqb s "")
  | None => false
  end.

(** ** Routes shared by both generations of [server/index.js] *)

Section Routes.
Variable fault : DbOp → option Error.

(** MongoDB's [{ $regex: search, $options: 'i' }] on a title. *)
Variable regex_i : string → string → bool.

(** [app.get('/api/gigs', ...)] with [req.query = { search, ownerId }]. *)
Definition get_api_gigs (search ownerId : option string) (db : Store)
  : Response * Store :=
  let query (g : Gig.t) : bool :=
    (if truthy ownerId
     then bool_decide (Some (Gig.ownerId g) = ownerId)
     else bool_decide (Gig.status g = Gig.open))
    && (match search with
        | Some pattern =>
          if truthy search then regex_i pattern (Gig.title g) else true
        | None => true
        end) in
  match Gig_find_sorted fault query db with
  | (inr gigs, db') => (res_json (gig_docs gigs), db')
  | (inl error, db') =>
    (res_status_json 500 (message_of (error_message error)), db')
  end.

(** [app.post('/api/gigs', authenticateToken, ...)] *)
Definition post_api_gigs (user : AuthUser) (body : GigBody)
    (_id : string) (now : nat) (db : Store) : Response * Store :=
  match Gig_create fault _id
          (Gig.mk (body_title body) (body_description body)
                  (body_budget body) (user_id user) (user_name user)
                  Gig.open now) db with
  | (inr gig, db') => (res_json (gig_doc _id gig), db')
  | (inl error, db') =>
    (res_status_json 500 (message_of (error_message error)), db')
  end.

(** [app.post('/api/bids', authenticateToken, ...)]. [_id] and [now] are the
    identifier and the [Date.now] default of the new document. *)
Definition post_api_bids_try (user : AuthUser) (body : BidBody)
    (_id : string) (now : nat) : M Store Response :=
  let* existingBid := Bid_findOne fault (body_gigId body) (user_id user) in
  match existingBid with
  | Some _ =>
    ret (res_status_json 400 (message_of "Already bid on this gig"))
  | None =>
    let* bid := Bid_create fault _id
                  (Bid.mk (body_gigId body) (user_id user) (user_name user)
                          (body_message body) (body_price body)
                          Bid.pending now) in
    ret (res_json (bid_doc _id bid))
  end.

Definition post_api_bids (user : AuthUser) (body : BidBody)
    (_id : string) (now : nat) (db : Store) : Response * Store :=
  match post_api_bids_try user body _id now db with
  | (inr res, db') => (res, db')
  | (inl error, db') =>
    (res_status_json 500 (message_of (error_message error)), db')
  end.

(** [app.get('/api/gigs/:id', ...)] *)
Definition get_api_gigs_id (id : string) (db : Store) : Response * Store :=
  match Gig_findById fault id db with
  | (inr None, db') => (res_status_json 404 (message_of "Gig not found"), db')
  | (inr (Some gig), db') => (res_json (gig_doc id gig), db')
  | (inl error, db') =>
    (res_status_json 500 (message_of (error_message error)), db')
  end.
End Routes.

(** ** [server/index.js], the generation with [POST /api/hire] *)

Module RestServer.
Section Routes.
Variable fault : DbOp → option Error.

(** The [try] block of [app.post('/api/hire', ...)]. *)
Definition post_api_hire_try (user : AuthUser) (gigId bidId : string)
  : M Session unit :=
  let* gig := in_session (Gig_findById fault gigId) in
  match gig with
  | None => throw "Unauthorized or Gig not found"
  | Some gig =>
    if decide (Gig.ownerId gig ≠ user_id user)
    then throw "Unauthorized or Gig not found"
    else if decide (Gig.status gig ≠ Gig.open)
    then throw "Gig is not open"
    else
      run in_session
            (gig_save fault gigId (Gig.set_status Gig.assigned gig)) then
      run in_session (Bid_updateMany fault gigId Bid.rejected) then
      run in_session (Bid_findByIdAndUpdate fault bidId Bid.hired) then
      run commitTransaction fault then
      ret tt
  end.

(** [app.post('/api/hire', authenticateToken, ...)] with
    [req.body = { gigId, bidId }], from [session.startTransaction()] on: the
    [try] block, and the [catch] block, which awaits
    [session.abortTransaction()] before it answers 400. *)
Definition post_api_hire (user : AuthUser) (gigId bidId : string)
    (db : Store) : Response * Store :=
  match post_api_hire_try user gigId bidId (startTransaction db) with
  | (inr _, s) => (res_json success_true, persisted s)
  | (inl error, s) =>
    match abortTransaction s with
    | (inr _, s') =>
      (res_status_json 400 (message_of (error_message error)), persisted s')
    | (inl abort_error, s') => (unanswered abort_error, persisted s')
    end
  end.


(** [app.get('/api/bids', authenticateToken, ...)] with
    [req.query = { gigId, freelancerId }]. *)
Definition get_api_bids (gigId freelancerId : option string) (db : Store)
  : Response * Store :=
  let query (b : Bid.t) : bool :=
    (if truthy gigId then bool_decide (Some (Bid.gigId b) = gigId) else true)
    && (if truthy freelancerId
        then bool_decide (Some (Bid.freelancerId b) = freelancerId)
        else true) in
  match Bid_find fault query db with
  | (inr bids, db') => (res_json (bid_docs bids), db')
  | (inl error, db') =>
    (res_status_json 500 (message_of (error_message error)), db')
  end.

Variable regex_i : string → string → bool.

(** The requests the server answers that touch gigs and bids. A hire is a
    request whose session has started: one whose [mongoose.startSession()]
    is rejected reads and writes nothing ([app_post_api_hire]). *)
Inductive Request :=
  | GET_api_gigs (search ownerId : option string)
  | GET_api_gigs_id (id : string)
  | POST_api_gigs (user : AuthUser) (body : GigBody) (_id : string) (now : nat)
  | GET_api_bids (gigId freelancerId : option string)
  | POST_api_bids (user : AuthUser) (body : BidBody) (_id : string) (now : nat)
  | POST_api_hire (user : AuthUser) (gigId bidId : string).

Definition handle (req : Request) (db : Store) : Response * Store :=
  match req with
  | GET_api_gigs search ownerId => get_api_gigs fault regex_i search ownerId db
  | GET_api_gigs_id id => get_api_gigs_id fault id db
  | POST_api_gigs user body _id now => post_api_gigs fault user body _id now db
  | GET_api_bids gigId freelancerId => get_api_bids gigId freelancerId db
  | POST_api_bids user body _id now => post_api_bids fault user body _id now db
  | POST_api_hire user gigId bidId => post_api_hire user gigId bidId db
  end.
End Routes.
End RestServer.

(** ** [server/index.js], the generation with socket.io and
       [PATCH /api/bids/:bidId/hire] *)

(** A JavaScript value of a notification payload. *)
Inductive JsValue :=
  | JsString (s : string)
  | JsNumber (n : Z).

(** A JavaScript object literal: its keys, in order, with their values. *)
Definition JsObject := list (string * JsValue).

(** [obj[key]] *)
Fixpoint js_get (key : string) (obj : JsObject) : option JsValue :=
  match obj with
  | [] => None
  | (k, v) :: rest => if String.eqb k key then Some v else js_get key rest
  end.

(** One packet put on the wire for a connected socket. *)
Record Packet := mkPacket {
  packet_socket : nat;
  packet_event : string;
  packet_data : JsObject
}.

Module SocketServer.
(** The rooms of the socket.io server: room name to the sockets in it. *)
Abbreviation Io := (gmap string (list nat)).

(** [socket.on('join', (userId) => { if (userId) socket.join(userId) })]:
    a room is a set, so that a socket that is in the room already is not
    added again. *)
Definition on_join (socket : nat) (userId : string) (io : Io) : Io :=
  if String.eqb userId "" then io
  else if decide (socket ∈ default [] (io !! userId)) then io
  else <[userId := socket :: default [] (io !! userId)]> io.

(** [socket.on('disconnect', () => { })]: the handler does nothing; socket.io
    has taken the socket out of every room. *)
Definition on_disconnect (socket : nat) (io : Io) : Io :=
  filter (λ member, member ≠ socket) <$> io.

(** What the sockets do after they have connected. *)
Inductive SocketEvent :=
  | join (socket : nat) (userId : string)
  | disconnect (socket : nat).

Definition on_event (io : Io) (ev : SocketEvent) : Io :=
  match ev with
  | join socket userId => on_join socket userId io
  | disconnect socket => on_disconnect socket io
  end.

(** The rooms after the events, from a server with no socket. (The room
    that socket.io gives every socket under its own socket id is left out:
    the handlers emit to user ids only.) *)
Definition rooms (events : list SocketEvent) : Io := foldl on_event ∅ events.

(** The socket has joined the room and has not disconnected since. *)
Definition is_in_room (socket : nat) (room : string)
    (events : list SocketEvent) : Prop :=
  ∃ before after,
    events = before ++ join socket room :: after
    ∧ disconnect socket ∉ after.

(** [io.to(room).emit(event, data)]: one packet per socket of the room,
    none when the room is empty; the call itself never throws. *)
Definition io_to_emit (io : Io) (room event : string) (data : JsObject)
  : list Packet :=
  (λ socket, mkPacket socket event data) <$> default [] (io !! room).

Section Routes.
Variable fault : DbOp → option Error.

(** The [try] block of [app.patch('/api/bids/:bidId/hire', ...)]; its value
    is what step 5 hands to [io.to(...).emit]. *)
Definition patch_api_bids_hire_try (io : Io) (user : AuthUser)
    (bidId : string) : M Session (list Packet) :=
  (* 1. Fetch Bid to identify the freelancer and gig *)
  let* bidToHire := in_session (Bid_findById fault bidId) in
  match bidToHire with
  | None => throw "Bid not found"
  | Some bidToHire =>
    let gigId := Bid.gigId bidToHire in
    (* 2. Validate Gig *)
    let* gig := in_session (Gig_findById fault gigId) in
    match gig with
    | None => throw "Unauthorized or Gig not found"
    | Some gig =>
      if decide (Gig.ownerId gig ≠ user_id user)
      then throw "Unauthorized or Gig not found"
      else if decide (Gig.status gig ≠ Gig.open)
      then throw "Gig is not open"
      else
        (* 3. Update Statuses *)
        run in_session
              (gig_save fault gigId (Gig.set_status Gig.assigned gig)) then
        run in_session (Bid_updateMany fault gigId Bid.rejected) then
        run in_session (Bid_findByIdAndUpdate fault bidId Bid.hired) then
        (* 4. Commit *)
        run commitTransaction fault then
        (* 5. Emit Real-time Notification to the Freelancer *)
        ret (io_to_emit io (Bid.freelancerId bidToHire) "notification"
               [("id", JsString bidId);
                ("gigId", JsString gigId);
                ("price", JsNumber (Bid.price bidToHire));
                ("status", JsString "hired")])
    end
  end.

(** [app.patch('/api/bids/:bidId/hire', authenticateToken, ...)], from
    [session.startTransaction()] on: the [try] block, and the [catch] block,
    which awaits [session.abortTransaction()] before it answers 400. *)
Definition patch_api_bids_hire (io : Io) (user : AuthUser) (bidId : string)
    (db : Store) : Response * Store * list Packet :=
  match patch_api_bids_hire_try io user bidId (startTransaction db) with
  | (inr sent, s) => (res_json success_true, persisted s, sent)
  | (inl error, s) =>
    match abortTransaction s with
    | (inr _, s') =>
      (res_status_json 400 (message_of (error_message error)),
       persisted s', [])
    | (inl abort_error, s') => (unanswered abort_error, persisted s', [])
    end
  end.


(** [app.get('/api/bids', authenticateToken, ...)] with
    [req.query = { freelancerId }]. *)
Definition get_api_bids (freelancerId : option string) (db : Store)
  : Response * Store :=
  let query (b : Bid.t) : bool :=
    if truthy freelancerId
    then bool_decide (Some (Bid.freelancerId b) = freelancerId)
    else true in
  match Bid_find fault query db with
  | (inr bids, db') => (res_json (bid_docs bids), db')
  | (inl error, db') =>
    (res_status_json 500 (message_of (error_message error)), db')
  end.

(** [app.get('/api/bids/:gigId', authenticateToken, ...)] *)
Definition get_api_bids_gigId (gigId : string) (db : Store)
  : Response * Store :=
  match Bid_find fault (λ b, bool_decide (Bid.gigId b = gigId)) db with
  | (inr bids, db') => (res_json (bid_docs bids), db')
  | (inl error, db') =>
    (res_status_json 500 (message_of (error_message error)), db')
  end.

Variable regex_i : string → string → bool.

(** The requests the server answers that touch gigs and bids. A hire is a
    request whose session has started: one whose [mongoose.startSession()]
    is rejected reads and writes nothing ([app_patch_api_bids_hire]). *)
Inductive Request :=
  | GET_api_gigs (search ownerId : option string)
  | GET_api_gigs_id (id : string)
  | POST_api_gigs (user : AuthUser) (body : GigBody) (_id : string) (now : nat)
  | GET_api_bids (freelancerId : option string)
  | GET_api_bids_gigId (gigId : string)
  | POST_api_bids (user : AuthUser) (body : BidBody) (_id : string) (now : nat)
  | PATCH_api_bids_hire (user : AuthUser) (bidId : string).

Definition handle (io : Io) (req : Request) (db : Store) : Response * Store :=
  match req with
  | GET_api_gigs search ownerId => get_api_gigs fault regex_i search ownerId db
  | GET_api_gigs_id id => get_api_gigs_id fault id db
  | POST_api_gigs user body _id now => post_api_gigs fault user body _id now db
  | GET_api_bids freelancerId => get_api_bids freelancerId db
  | GET_api_bids_gigId gigId => get_api_bids_gigId gigId db
  | POST_api_bids user body _id now => post_api_bids fault user body _id now db
  | PATCH_api_bids_hire user bidId => (patch_api_bids_hire io user bidId db).1
  end.
End Routes.
End SocketServer.

(** ** The properties of the store the hire path is about *)

(** The three writes of a hire, on a store: the gig fetched under [gigId]
    saved as assigned, every bid of [gigId] rejected, the bid [bidId] hired. *)
Definition hire_writes (gigId bidId : string) (gig : Gig.t) (db : Store)
  : Store :=
  mkStore
    (<[gigId := Gig.set_status Gig.assigned gig]> (gigs db))
    (alter (Bid.set_status Bid.hired) bidId
       ((λ b, if decide (Bid.gigId b = gigId)
              then Bid.set_status Bid.rejected b else b) <$> bids db)).

(** At most one bid of a gig is hired. *)
Definition one_hired_per_gig (db : Store) : Prop :=
  ∀ k1 k2 b1 b2,
    bids db !! k1 = Some b1 → bids db !! k2 = Some b2 →
    Bid.gigId b1 = Bid.gigId b2 →
    Bid.status b1 = Bid.hired → Bid.status b2 = Bid.hired → k1 = k2.

(** A bid is hired only in a gig that is assigned. *)
Definition hired_only_if_assigned (db : Store) : Prop :=
  ∀ k b,
    bids db !! k = Some b → Bid.status b = Bid.hired →
    ∃ g, gigs db !! Bid.gigId b = Some g ∧ Gig.status g = Gig.assigned.

Definition hire_invariant (db : Store) : Prop :=
  one_hired_per_gig db ∧ hired_only_if_assigned db.

(** What the hire of [bidId] on [gigId] has to leave in the store. *)
Definition hire_postcondition (gigId bidId : string) (db' : Store) : Prop :=
  (∀ b, bids db' !! bidId = Some b → Bid.status b = Bid.hired)
  ∧ (∀ k b, k ≠ bidId → bids db' !! k = Some b → Bid.gigId b = gigId →
            Bid.status b = Bid.rejected)
  ∧ (∃ g, gigs db' !! gigId = Some g ∧ Gig.status g = Gig.assigned).

(** No driver call rejects. *)
Definition no_fault : DbOp → option Error := λ _, None.

(** ** The client API layer: [requestWithFallback] and its circuit breaker *)

Module ClientApi.
(** What a rejected promise carries: an [Error] with its [name], its
    [message] and the [status] that [handleResponse] attaches. *)
Record JsError := mkJsError {
  name : string;
  message : string;
  status : option nat
}.

Inductive Outcome (T : Type) :=
  | resolved (value : T)
  | rejected (error : JsError).
Arguments resolved {T} value.
Arguments rejected {T} error.

(** The browser's [localStorage]. *)
Definition LocalStorage := gmap string string.

(** The module's state: the circuit-breaker flag declared by
    [let isBackendOffline = false] and the storage the fallbacks use. *)
Record State := mkState {
  isBackendOffline : bool;
  localStorage : LocalStorage
}.

Definition initial (ls : LocalStorage) : State := mkState false ls.

(** What a request does that the outside can observe. *)
Inductive Effect :=
  | call_fetchFn
  | network (url : string)
  | console_warn (msg : string)
  | console_error (msg : string)
  | sleep (ms : nat)
  | call_fallbackFn.

Definition DELAY : nat := 200.

(** [fetchFn]: code that reaches the network and may itself go through
    the services of this module (as [getMyBids] does with [getGigById]). *)
Definition FetchFn (T : Type) : Type := State → Outcome T * State * list Effect.

(** [fallbackFn]: code that only reads and writes [localStorage]. *)
Definition FallbackFn (T : Type) : Type := LocalStorage → Outcome T * LocalStorage.

(** [s.includes(sub)] *)
Fixpoint includes (sub s : string) : bool :=
  String.prefix sub s
  || match s with
     | EmptyString => false
     | String _ s' => includes sub s'
     end.

(** [error.status && error.status >= 400 && error.status < 500
     && error.status !== 404] *)
Definition is_client_error (error : JsError) : bool :=
  match status error with
  | Some s => negb (s =? 0) && (400 <=? s) && (s <? 500) && negb (s =? 404)
  | None => false
  end.

Definition isNetworkError (error : JsError) : bool :=
  String.eqb (name error) "AbortError" || String.eqb (name error) "TypeError"
  || includes "non-JSON" (message error).

Definition isServerError (error : JsError) : bool :=
  match status error with
  | Some s => negb (s =? 0) && ((500 <=? s) || (s =? 404))
  | None => false
  end.

Definition requestWithFallback {T} (fetchFn : FetchFn T)
    (fallbackFn : FallbackFn T) (st : State)
  : Outcome T * State * list Effect :=
  (* 1. Circuit Breaker *)
  if isBackendOffline st then
    let '(r, ls) := fallbackFn (localStorage st) in
    (r, mkState (isBackendOffline st) ls, [call_fallbackFn])
  else
    match fetchFn st with
    | (resolved response, st1, tr) => (resolved response, st1, call_fetchFn :: tr)
    | (rejected error, st1, tr) =>
      (* 2. Error Analysis *)
      if is_client_error error
      then (rejected error, st1, call_fetchFn :: tr)
      else
        (* 3. Detect Offline/Down State *)
        let '(st2, warned) :=
          if isNetworkError error || isServerError error
          then if negb (isBackendOffline st1)
               then (mkState true (localStorage st1),
                     [console_warn
                        "Backend unavailable (Timeout/5xx/404). Switching to Offline Mode."])
               else (st1, [])
          else (st1, []) in
        (* 4. Execute Fallback *)
        match fallbackFn (localStorage st2) with
        | (resolved value, ls) =>
          (resolved value, mkState (isBackendOffline st2) ls,
           call_fetchFn :: tr ++ warned ++ [sleep DELAY; call_fallbackFn])
        | (rejected fallbackError, ls) =>
          (rejected fallbackError, mkState (isBackendOffline st2) ls,
           call_fetchFn :: tr ++ warned ++ [sleep DELAY; call_fallbackFn]
           ++ (if String.eqb (message fallbackError) "No session" then []
               else [console_error "Fallback also failed:"]))
        end
    end.

(** One call of a service of the module ([getGigs], [createBid],
    [hireFreelancer], ...): each is [requestWithFallback] applied to its
    two closures. *)
Record Call := mkCall {
  call_T : Type;
  call_fetchFn_of : FetchFn call_T;
  call_fallbackFn_of : FallbackFn call_T
}.

Definition run_call (c : Call) (st : State) : State * list Effect :=
  let '(_, st', tr) :=
    requestWithFallback (call_fetchFn_of c) (call_fallbackFn_of c) st in
  (st', tr).

(** The calls the page makes, one after the other. *)
Fixpoint run_calls (cs : list Call) (st : State) : State * list Effect :=
  match cs with
  | [] => (st, [])
  | c :: rest =>
    let '(st1, tr1) := run_call c st in
    let '(st2, tr2) := run_calls rest st1 in
    (st2, tr1 ++ tr2)
  end.

(** [logout]: the request and its fallback
    [localStorage.removeItem('gigflow_session_user')]. *)
Definition logout (response : Outcome unit) : Call :=
  mkCall unit
    (λ st, (response, st, [network "/api/auth/logout"]))
    (λ ls, (resolved tt, delete "gigflow_session_user" ls)).
End ClientApi.

(** The driver fails on [Bid.updateMany], after the gig has been saved in the
    transaction. *)
Definition updateMany_rejects : DbOp → option Error :=
  λ op, match op with
        | Bid_updateMany_op => Some (mkError "connection closed")
        | _ => None
        end.


(** The bid with id [bidId] is in the store and is hired. *)
Definition bid_is_hired (bidId : string) (db : Store) : Prop :=
  ∃ b, bids db !! bidId = Some b ∧ Bid.status b = Bid.hired.

(** ** A small marketplace used in the examples

    Gig [G1] (open) with the pending bids [b1] (freelancer [F1], price 100)
    and [b2] (freelancer [F2], price 120); gig [G2] (open), of another
    client, with the pending bid [b3]. *)

Definition alice : AuthUser := mkUser "alice" "Alice Client".
Definition carol : AuthUser := mkUser "carol" "Carol Client".

Definition G1 : Gig.t :=
  Gig.mk "Build a React Native App" "Delivery app" 5000 "alice" "Alice Client"
         Gig.open 1.
Definition G2 : Gig.t :=
  Gig.mk "Design a logo" "Logo" 300 "carol" "Carol Client" Gig.open 2.

Definition b1 : Bid.t := Bid.mk "G1" "F1" "Frank" "I can do it" 100 Bid.pending 3.
Definition b2 : Bid.t := Bid.mk "G1" "F2" "Fiona" "Me too" 120 Bid.pending 4.
Definition b3 : Bid.t := Bid.mk "G2" "F3" "Fred" "Logos!" 250 Bid.pending 5.

Definition market : Store :=
  mkStore (<["G1" := G1]> (<["G2" := G2]> ∅))
          (<["b1" := b1]> (<["b2" := b2]> (<["b3" := b3]> ∅))).

(** The same marketplace once [G1] has been assigned to [b1]. *)
Definition market_assigned : Store := hire_writes "G1" "b1" G1 market.

(** ** Further properties of the store *)

(** A freelancer has at most one bid on a gig. *)
Definition one_bid_per_pair (db : Store) : Prop :=
  ∀ k1 k2 b1 b2,
    bids db !! k1 = Some b1 → bids db !! k2 = Some b2 →
    Bid.gigId b1 = Bid.gigId b2 →
    Bid.freelancerId b1 = Bid.freelancerId b2 → k1 = k2.

(** What a request may do to the documents that are already stored: a gig
    stays, as it is or assigned; a bid stays, with at most its status
    changed. *)
Definition store_evolves (db db' : Store) : Prop :=
  (∀ id g, gigs db !! id = Some g →
           gigs db' !! id = Some g
           ∨ gigs db' !! id = Some (Gig.set_status Gig.assigned g))
  ∧ (∀ k b, bids db !! k = Some b →
            ∃ s, bids db' !! k = Some (Bid.set_status s b)).

(** The writes a request can commit: none, a new open gig or a new pending
    bid under a free id (the bid for a pair that has none), or the three
    writes of a hire on an open gig. *)
Inductive store_step (db : Store) : Store → Prop :=
  | step_none : store_step db db
  | step_gig _id gig :
      gigs db !! _id = None → Gig.status gig = Gig.open →
      store_step db (mkStore (<[_id := gig]> (gigs db)) (bids db))
  | step_bid _id bid :
      bids db !! _id = None → Bid.status bid = Bid.pending →
      (∀ k b, bids db !! k = Some b → Bid.gigId b = Bid.gigId bid →
              Bid.freelancerId b = Bid.freelancerId bid → False) →
      store_step db (mkStore (gigs db) (<[_id := bid]> (bids db)))
  | step_hire gigId bidId gig :
      gigs db !! gigId = Some gig → Gig.status gig = Gig.open →
      store_step db (hire_writes gigId bidId gig db).

(** The store after a sequence of requests, answered one after the other. *)
Definition run_rest_server (fault : DbOp → option Error)
    (regex_i : string → string → bool) (reqs : list RestServer.Request)
    (db : Store) : Store :=
  foldl (λ db req, (RestServer.handle fault regex_i req db).2) db reqs.

Definition run_socket_server (fault : DbOp → option Error)
    (regex_i : string → string → bool) (io : gmap string (list nat))
    (reqs : list SocketServer.Request) (db : Store) : Store :=
  foldl (λ db req, (SocketServer.handle fault regex_i io req db).2) db reqs.

(** The store of a fresh deployment. *)
Definition empty_store : Store := mkStore ∅ ∅.

(** [Bid.create] fails after the duplicate check has passed. *)
Definition create_rejects : DbOp → option Error :=
  λ op, match op with
        | Bid_create_op => Some (mkError "connection closed")
        | _ => None
        end.

(** A response that lists, each once, exactly the stored bids that satisfy
    [P]; likewise for gigs, newest first. *)
Definition lists_bids (res : Response) (db : Store) (P : Bid.t → Prop) : Prop :=
  ∃ l, res = mkRes 200 (bid_docs l) ∧ NoDup l
       ∧ ∀ k b, (k, b) ∈ l ↔ bids db !! k = Some b ∧ P b.

Definition lists_gigs (res : Response) (db : Store) (P : Gig.t → Prop) : Prop :=
  ∃ l, res = mkRes 200 (gig_docs l) ∧ NoDup l ∧ Sorted newest_first l
       ∧ ∀ k g, (k, g) ∈ l ↔ gigs db !! k = Some g ∧ P g.

(** ** The client API layer: talking to the server *)

Module MockApi.

(** What [fetch] resolves to, as [handleResponse] reads it: the
    [content-type] header, [ok], [status], [statusText], and what
    [response.json()] yields ([None] when the body does not parse). *)
Record HttpResponse (J : Type) := mkHttp {
  content_type : option string;
  ok : bool;
  http_status : nat;
  statusText : string;
  json : option J
}.
Arguments mkHttp {J} _ _ _ _ _.
Arguments content_type {J} _.
Arguments ok {J} _.
Arguments http_status {J} _.
Arguments statusText {J} _.
Arguments json {J} _.

(** [a || b] on strings that may be undefined. *)
Definition or_else (a : option string) (b : string) : string :=
  match a with
  | Some s => if String.eqb s "" then b else s
  | None => b
  end.

Section Json.
(** The parsed bodies, and what reading the [message] property of one
    does: it throws a [TypeError] for the body [null] ([None]); for any
    other body it yields the property, which may be undefined
    ([Some None]). *)
Variable J : Type.
Variable message_field : J → option (option string).

Definition handleResponse (response : HttpResponse J) : ClientApi.Outcome J :=
  if match content_type response with
     | Some contentType =>
       negb (String.eqb contentType "")
       && negb (ClientApi.includes "application/json" contentType)
     | None => false
     end
  then ClientApi.rejected
         (ClientApi.mkJsError "Error"
            "Server returned non-JSON response (likely 404/500)" None)
  else if negb (ok response)
  then
    match match json response with
          | Some errorData => message_field errorData
          | None =>
            Some (Some (or_else (Some (statusText response)) "Request failed"))
          end with
    | Some errorData_message =>
      ClientApi.rejected
        (ClientApi.mkJsError "Error"
           (or_else errorData_message "Request failed")
           (Some (http_status response)))
    | None =>
      ClientApi.rejected
        (ClientApi.mkJsError "TypeError"
           "Cannot read properties of null (reading 'message')" None)
    end
  else
    match json response with
    | Some data => ClientApi.resolved data
    | None =>
      ClientApi.rejected
        (ClientApi.mkJsError "SyntaxError" "Unexpected end of JSON input" None)
    end.

(** The [fetchFn] of [checkSession], [register], [login], [getGigs],
    [getMyGigs], [createGig], [getBidsForGig], [createBid] and
    [hireFreelancer]: [fetchWithTimeout(url, ...)] followed by
    [handleResponse]. [net] is what the [fetch] settles to: a response, or a
    rejection ([AbortError] after the timeout, [TypeError] when the network
    fails). *)
Definition fetch_json (url : string)
    (net : ClientApi.Outcome (HttpResponse J)) : ClientApi.FetchFn J :=
  λ st,
    (match net with
     | ClientApi.resolved response => handleResponse response
     | ClientApi.rejected error => ClientApi.rejected error
     end, st, [ClientApi.network url]).

(** The [fetchFn] of [getGigById]: a 404 is [undefined], not an error. *)
Definition getGigById_fetchFn (id : string)
    (net : ClientApi.Outcome (HttpResponse J)) : ClientApi.FetchFn (option J) :=
  λ st,
    (match net with
     | ClientApi.resolved response =>
       if http_status response =? 404 then ClientApi.resolved None
       else match handleResponse response with
            | ClientApi.resolved data => ClientApi.resolved (Some data)
            | ClientApi.rejected error => ClientApi.rejected error
            end
     | ClientApi.rejected error => ClientApi.rejected error
     end, st, [ClientApi.network ("/api/gigs/" +:+ id)]).
End Json.
End MockApi.

(** The response passes the content-type test of [handleResponse]: it has no
    [content-type] header, or one that mentions [application/json]. *)
Definition passes_as_json {J} (response : MockApi.HttpResponse J) : bool :=
  match MockApi.content_type response with
  | Some contentType =>
    String.eqb contentType ""
    || ClientApi.includes "application/json" contentType
  | None => true
  end.

(** What the client takes for a backend that is down: a [fetch] that was
    aborted by the timeout or failed on the network, an answer that is not
    JSON, or a JSON answer with status 404 or 5xx. *)
Inductive looks_down {J} : ClientApi.Outcome (MockApi.HttpResponse J) → Prop :=
  | down_timeout m :
      looks_down (ClientApi.rejected (ClientApi.mkJsError "AbortError" m None))
  | down_network m :
      looks_down (ClientApi.rejected (ClientApi.mkJsError "TypeError" m None))
  | down_not_json response :
      passes_as_json response = false →
      looks_down (ClientApi.resolved response)
  | down_status response :
      passes_as_json response = true → MockApi.ok response = false →
      MockApi.http_status response = 404 ∨ 500 ≤ MockApi.http_status response →
      looks_down (ClientApi.resolved response).

(** ** Authentication ([server/index.js], both generations) *)

Module User.
Record t := mk {
  name : string;
  email : string;
  password : string
}.
End User.

(** [userSchema]: the refused paths of a user. *)
Definition userSchema (doc : User.t) : list string :=
  required "name" (User.name doc)
  ++ required "email" (User.email doc)
  ++ required "password" (User.password doc).

Arguments userSchema : simpl never.

(** The calls of the authentication routes that can reject. *)
Inductive AuthOp :=
  | User_findOne_op | bcrypt_hash_op | User_create_op | bcrypt_compare_op
  | User_findById_op.

(** What an authentication route answers: a status, a body, and the
    [token] cookie it sets ([Some (Some t)]), clears ([Some None]) or leaves
    alone ([None]). *)
Inductive AuthBody :=
  | auth_user (id name email : string)                 (* [{ user }] *)
  | auth_user_token (id name email token : string)     (* [{ user, token }] *)
  | auth_message (m : string)                          (* [{ message }] *)
  | auth_no_body                                        (* [res.sendStatus] *).

Record AuthResponse := mkAuthRes {
  auth_status : nat;
  auth_body : AuthBody;
  auth_cookie : option (option string)
}.

(** What [authenticateToken] does with a request. *)
Inductive Gate :=
  | next (user : AuthUser)
  | sendStatus (code : nat).

(** [s.split(' ')] *)
Fixpoint split_space (s : string) : list string :=
  match s with
  | EmptyString => [""]
  | String c rest =>
    if Ascii.eqb c Ascii.Space then "" :: split_space rest
    else match split_space rest with
         | w :: ws => String c w :: ws
         | [] => [String c ""]
         end
  end.

Module Auth.
Section Routes.
Variable fault : AuthOp → option Error.

(** [bcrypt.hash(password, 10)] with the salt it draws, and
    [bcrypt.compare(password, hash)]. *)
Variable bcrypt_hash : string → string → string.
Variable bcrypt_compare : string → string → bool.

(** The time at which the request is handled. [jwt.sign(payload, secret,
    options)] puts the time of signing into the token ([iat], and with
    [expiresIn: '1d'] the expiry [exp]), so that the token depends on it;
    [jwt.verify(token, secret)] refuses a token that has expired at the time
    of the check. *)
Variable now : nat.
Variable jwt_sign : nat → AuthUser → string.
Variable jwt_verify : nat → string → option AuthUser.

Definition auth_call {A} (op : AuthOp) (f : gmap string User.t → A)
  : M (gmap string User.t) A :=
  λ users, match fault op with
           | Some e => (inl e, users)
           | None => (inr (f users), users)
           end.

(** [User.findOne({ email })] *)
Definition User_findOne (email : string)
  : M (gmap string User.t) (option (string * User.t)) :=
  auth_call User_findOne_op (λ users,
    head (filter (λ ku, User.email ku.2 = email) (map_to_list users))).

(** [User.findById(id)] *)
Definition User_findById (id : string)
  : M (gmap string User.t) (option User.t) :=
  auth_call User_findById_op (λ users, users !! id).

(** [User.create(doc)]: the document is validated against [userSchema]
    before anything is sent to the store; the unique indexes on [_id] and on
    [email] reject a document that repeats either. *)
Definition User_create (_id : string) (doc : User.t)
  : M (gmap string User.t) User.t :=
  λ users,
    match userSchema doc with
    | _ :: _ => (inl (ValidationError "User" (userSchema doc)), users)
    | [] =>
      match fault User_create_op with
      | Some e => (inl e, users)
      | None =>
        if decide (is_Some (users !! _id)
                   ∨ Exists (λ ku, User.email ku.2 = User.email doc)
                       (map_to_list users))
        then (inl (mkError "E11000 duplicate key error"), users)
        else (inr doc, <[_id := doc]> users)
      end
    end.

(** The [try] block of [app.post('/api/auth/register', ...)] up to the
    token: the new user's id, the user and the token. *)
Definition register_try (name email password : string) (_id salt : string)
  : M (gmap string User.t) (option (string * User.t * string)) :=
  let* existingUser := User_findOne email in
  match existingUser with
  | Some _ => ret None
  | None =>
    let* hashedPassword :=
      auth_call bcrypt_hash_op (λ _, bcrypt_hash salt password) in
    let* user := User_create _id (User.mk name email hashedPassword) in
    ret (Some (_id, user, jwt_sign now (mkUser _id (User.name user))))
  end.

(** The [try] block of [app.post('/api/auth/login', ...)] up to the token. *)
Definition login_try (email password : string)
  : M (gmap string User.t) (option (string * User.t * string)) :=
  let* user := User_findOne email in
  match user with
  | None => ret None
  | Some (_id, user) =>
    let* validPassword :=
      auth_call bcrypt_compare_op
        (λ _, bcrypt_compare password (User.password user)) in
    if validPassword
    then ret (Some (_id, user, jwt_sign now (mkUser _id (User.name user))))
    else ret None
  end.

(** How the two generations answer: the token in the body, or in an
    HttpOnly cookie. *)
Definition answer_with_token (failure : string)
    (r : (Error + option (string * User.t * string)) * gmap string User.t)
  : AuthResponse * gmap string User.t :=
  match r with
  | (inr (Some (_id, user, token)), users) =>
    (mkAuthRes 200
       (auth_user_token _id (User.name user) (User.email user) token) None,
     users)
  | (inr None, users) => (mkAuthRes 400 (auth_message failure) None, users)
  | (inl error, users) =>
    (mkAuthRes 500 (auth_message (error_message error)) None, users)
  end.

Definition answer_with_cookie (failure : string)
    (r : (Error + option (string * User.t * string)) * gmap string User.t)
  : AuthResponse * gmap string User.t :=
  match r with
  | (inr (Some (_id, user, token)), users) =>
    (mkAuthRes 200 (auth_user _id (User.name user) (User.email user))
       (Some (Some token)),
     users)
  | (inr None, users) => (mkAuthRes 400 (auth_message failure) None, users)
  | (inl error, users) =>
    (mkAuthRes 500 (auth_message (error_message error)) None, users)
  end.

(** [app.post('/api/auth/register', ...)], with the token in the body
    ([cookie = false]) or in the cookie ([cookie = true]). *)
Definition post_api_auth_register (cookie : bool)
    (name email password _id salt : string) (users : gmap string User.t)
  : AuthResponse * gmap string User.t :=
  (if cookie then answer_with_cookie else answer_with_token)
    "User already exists"
    (register_try name email password _id salt users).

(** [app.post('/api/auth/login', ...)] *)
Definition post_api_auth_login (cookie : bool) (email password : string)
    (users : gmap string User.t) : AuthResponse * gmap string User.t :=
  (if cookie then answer_with_cookie else answer_with_token)
    "Invalid credentials" (login_try email password users).

(** [app.post('/api/auth/logout', ...)] *)
Definition post_api_auth_logout : AuthResponse :=
  mkAuthRes 200 (auth_message "Logged out successfully") (Some None).

(** [authenticateToken] reading the [Authorization] header. *)
Definition authenticateToken_header (authorization : option string) : Gate :=
  let token :=
    match authorization with
    | Some authHeader =>
      if String.eqb authHeader "" then None
      else split_space authHeader !! 1
    | None => None
    end in
  match token with
  | None => sendStatus 401
  | Some token =>
    if String.eqb token "" then sendStatus 401
    else match jwt_verify now token with
         | None => sendStatus 403
         | Some user => next user
         end
  end.

(** [authenticateToken] reading [req.cookies.token]. *)
Definition authenticateToken_cookie (token : option string) : Gate :=
  match token with
  | None => sendStatus 401
  | Some token =>
    if String.eqb token "" then sendStatus 401
    else match jwt_verify now token with
         | None => sendStatus 403
         | Some user => next user
         end
  end.

(** [app.get('/api/auth/me', authenticateToken, ...)] *)
Definition get_api_auth_me (token : option string)
    (users : gmap string User.t) : AuthResponse * gmap string User.t :=
  match authenticateToken_cookie token with
  | sendStatus code => (mkAuthRes code auth_no_body None, users)
  | next req_user =>
    match User_findById (user_id req_user) users with
    | (inr None, users') => (mkAuthRes 404 auth_no_body None, users')
    | (inr (Some user), users') =>
      (mkAuthRes 200
         (auth_user (user_id req_user) (User.name user) (User.email user))
         None, users')
    | (inl _, users') => (mkAuthRes 500 auth_no_body None, users')
    end
  end.
End Routes.
End Auth.

(** A route behind [authenticateToken]: the handler runs only when the gate
    calls [next], under the identity the gate found. *)
Definition behind_gate {R} (gate : Gate) (handler : AuthUser → Store → R * Store)
    (db : Store) : (nat + R) * Store :=
  match gate with
  | sendStatus code => (inl code, db)
  | next user => let '(res, db') := handler user db in (inr res, db')
  end.

(** No two users share an email. *)
Definition emails_unique (users : gmap string User.t) : Prop :=
  ∀ k1 k2 u1 u2,
    users !! k1 = Some u1 → users !! k2 = Some u2 →
    User.email u1 = User.email u2 → k1 = k2.

(** Stand-ins for bcrypt and for JWT, for the examples. *)
Definition toy_hash (salt password : string) : string :=
  salt +:+ "$" +:+ password.
Definition toy_compare (password hash : string) : bool :=
  ClientApi.includes ("$" +:+ password) hash.
Definition toy_sign (iat : nat) (user : AuthUser) : string :=
  user_id user +:+ "." +:+ user_name user +:+ "." +:+ pretty iat.
Definition toy_verify (now : nat) (token : string) : option AuthUser :=
  if String.eqb token (toy_sign 100 alice) && (now <? 100 + 24 * 60 * 60)
  then Some alice else None.
Definition no_auth_fault : AuthOp → option Error := λ _, None.

(** The string has no space. *)
Fixpoint no_space (s : string) : bool :=
  match s with
  | EmptyString => true
  | String c rest => negb (Ascii.eqb c Ascii.Space) && no_space rest
  end.

(** ** The client API layer: the data kept in [localStorage] *)

Module ClientGig.
Record t := mk {
  id : string;
  title : string;
  description : string;
  budget : Z;
  ownerId : string;
  ownerName : string;
  status : Gig.Status;
  createdAt : string
}.

(** [{ ...gig, status: s }] *)
Definition set_status (s : Gig.Status) (g : t) : t :=
  mk (id g) (title g) (description g) (budget g) (ownerId g) (ownerName g) s
     (createdAt g).
End ClientGig.

Module ClientBid.
Record t := mk {
  id : string;
  gigId : string;
  freelancerId : string;
  freelancerName : string;
  message : string;
  price : Z;
  status : Bid.Status;
  createdAt : string
}.

(** [{ ...b, status: s }] *)
Definition set_status (s : Bid.Status) (b : t) : t :=
  mk (id b) (gigId b) (freelancerId b) (freelancerName b) (message b)
     (price b) s (createdAt b).
End ClientBid.

(** What [JSON.parse] makes of a stored item, as [getLS] reads it: it throws,
    or yields something that is not an array, or yields an array. *)
Inductive Parsed (T : Type) :=
  | parse_throws
  | not_an_array
  | array (items : list T).
Arguments parse_throws {T}.
Arguments not_an_array {T}.
Arguments array {T} items.

(** [JSON.stringify] and [JSON.parse] at the type of the items of one key. *)
Record Codec (T : Type) := mkCodec {
  JSON_stringify : list T → string;
  JSON_parse : string → Parsed T
}.
Arguments mkCodec {T} _ _.
Arguments JSON_stringify {T} _ _.
Arguments JSON_parse {T} _ _.

Module LocalData.

Definition getLS {T} (codec : Codec T) (key : string)
    (ls : ClientApi.LocalStorage) : list T * ClientApi.LocalStorage :=
  match ls !! key with
  | None => ([], ls)
  | Some item =>
    if String.eqb item "" then ([], ls)
    else match JSON_parse codec item with
         | array parsed => (parsed, ls)
         | not_an_array => ([], ls)
         | parse_throws => ([], delete key ls)
         end
  end.

Definition setLS {T} (codec : Codec T) (key : string) (data : list T)
    (ls : ClientApi.LocalStorage) : ClientApi.LocalStorage :=
  <[key := JSON_stringify codec data]> ls.

(** [gigs.findIndex(g => g.id === gigId)], [None] for [-1]. *)
Fixpoint findIndex (gigId : string) (gigs : list ClientGig.t) : option nat :=
  match gigs with
  | [] => None
  | g :: rest =>
    if String.eqb (ClientGig.id g) gigId then Some 0
    else S <$> findIndex gigId rest
  end.

Section Fallbacks.
Variable gig_codec : Codec ClientGig.t.
Variable bid_codec : Codec ClientBid.t.

(** The fallback of [createBid]; [newId] and [now] are what [generateId()]
    and [new Date().toISOString()] return. *)
Definition createBid_fallbackFn
    (gigId freelancerId freelancerName message : string) (price : Z)
    (newId now : string) : ClientApi.FallbackFn ClientBid.t :=
  λ ls,
    let '(bids, ls) := getLS bid_codec "gigflow_bids" ls in
    match List.find
            (λ b, String.eqb (ClientBid.gigId b) gigId
                  && String.eqb (ClientBid.freelancerId b) freelancerId)
            bids with
    | Some existing =>
      (ClientApi.rejected
         (ClientApi.mkJsError "Error" "Already bid on this gig" None), ls)
    | None =>
      let newBid := ClientBid.mk newId gigId freelancerId freelancerName
                      message price Bid.pending now in
      (ClientApi.resolved newBid,
       setLS bid_codec "gigflow_bids" (bids ++ [newBid]) ls)
    end.

(** The fallback of [hireFreelancer]. *)
Definition hireFreelancer_fallbackFn (gigId bidId : string)
  : ClientApi.FallbackFn unit :=
  λ ls,
    let '(gigs, ls) := getLS gig_codec "gigflow_gigs" ls in
    let '(bids, ls) := getLS bid_codec "gigflow_bids" ls in
    match findIndex gigId gigs with
    | None =>
      (ClientApi.rejected (ClientApi.mkJsError "Error" "Gig not found" None),
       ls)
    | Some gigIndex =>
      (* Update Gig Status *)
      let gigs :=
        alter (ClientGig.set_status Gig.assigned) gigIndex gigs in
      let ls := setLS gig_codec "gigflow_gigs" gigs ls in
      (* Update Bids Status *)
      let updatedBids :=
        (λ b, if String.eqb (ClientBid.gigId b) gigId
              then ClientBid.set_status
                     (if String.eqb (ClientBid.id b) bidId
                      then Bid.hired else Bid.rejected) b
              else b) <$> bids in
      (ClientApi.resolved tt, setLS bid_codec "gigflow_bids" updatedBids ls)
    end.
End Fallbacks.
End LocalData.

#[global] Instance client_bid_eq_dec : EqDecision ClientBid.t.
Proof. solve_decision. Defined.

#[global] Instance client_gig_eq_dec : EqDecision ClientGig.t.
Proof. solve_decision. Defined.

(** A stand-in for JSON, for the examples: the arrays of a table are written
    as their names and read back; ["{}"] parses to an object and anything
    else does not parse. *)
Definition table_codec {T} {Heq : EqDecision T} (table : list (string * list T))
  : Codec T :=
  mkCodec
    (λ data, match List.find (λ e, bool_decide (e.2 = data)) table with
             | Some e => e.1
             | None => "[?]"
             end)
    (λ item, match List.find (λ e, String.eqb e.1 item) table with
             | Some e => array e.2
             | None => if String.eqb item "{}" then not_an_array
                       else parse_throws
             end).

Definition local_b1 : ClientBid.t :=
  ClientBid.mk "b1" "G1" "F1" "Frank" "I can do it" 100 Bid.pending "t3".
Definition local_b3 : ClientBid.t :=
  ClientBid.mk "b3" "G2" "F3" "Fred" "Logos!" 250 Bid.pending "t5".
Definition local_b9 : ClientBid.t :=
  ClientBid.mk "b9" "G1" "F9" "Fay" "hello" 80 Bid.pending "t9".
Definition local_G1 : ClientGig.t :=
  ClientGig.mk "G1" "Build a React Native App" "Delivery app" 5000 "alice"
    "Alice Client" Gig.open "t1".

Definition example_bid_codec : Codec ClientBid.t :=
  table_codec [("[]", []); ("[b1,b3]", [local_b1; local_b3]);
               ("[b1,b3,b9]", [local_b1; local_b3; local_b9])].
Definition example_gig_codec : Codec ClientGig.t :=
  table_codec [("[]", []); ("[G1]", [local_G1])].
Definition example_storage : ClientApi.LocalStorage :=
  <["gigflow_gigs" := "[G1]"]> (<["gigflow_bids" := "[b1,b3]"]> ∅).

(** ** The notifier of the client ([RealtimeNotifier], socket generation) *)

#[global] Instance js_value_eq_dec : EqDecision JsValue.
Proof. solve_decision. Defined.

Module RealtimeNotifier.

(** The updater of [socket.on('notification', ...)]: add to the list if the
    id has not been seen. *)
Definition on_notification (newNotification : JsObject) (prev : list JsObject)
  : list JsObject :=
  if existsb (λ n, bool_decide (js_get "id" n = js_get "id" newNotification))
       prev
  then prev
  else prev ++ [newNotification].

(** The updater of [removeNotification(id)]. *)
Definition removeNotification (id : string) (prev : list JsObject)
  : list JsObject :=
  filter (λ n, js_get "id" n ≠ Some (JsString id)) prev.

(** What happens to the component: a notification arrives, or the user
    dismisses one. *)
Inductive Event :=
  | notification (data : JsObject)
  | dismiss (id : string).

Definition update (notifications : list JsObject) (e : Event)
  : list JsObject :=
  match e with
  | notification data => on_notification data notifications
  | dismiss id => removeNotification id notifications
  end.

(** The list shown after the events, from [useState([])]. *)
Definition shown (events : list Event) : list JsObject :=
  foldl update [] events.
End RealtimeNotifier.

(** * Properties *)

(** ** Running the handlers *)

Ltac unfold_driver :=
  unfold Gig_findById, Bid_findById, gig_save, Bid_updateMany,
    Bid_findByIdAndUpdate, commitTransaction, Bid_findOne, Bid_find,
    Gig_find_sorted, Bid_create, Gig_create, in_session, db_call, bind, throw,
    ret, startTransaction, abortTransaction, res_json, res_status_json in *.

(** ** What the schemas accept *)

Lemma required_nil path value : required path value = [] ↔ value ≠ "".
Proof.
  unfold required. destruct (String.eqb value "") eqn:Heq.
  - apply String.eqb_eq in Heq. by split.
  - apply String.eqb_neq in Heq. by split.
Qed.



(** [POST /api/hire] either commits the three writes of a hire on an open gig
    of the caller; or answers 400 and leaves the store as it was; or, the
    commit being rejected, leaves the store as it was and sends no answer,
    since the abort of the [catch] block is rejected in its turn. *)
Lemma post_api_hire_cases fault user gigId bidId db :
  (∃ gig, gigs db !! gigId = Some gig
          ∧ Gig.ownerId gig = user_id user ∧ Gig.status gig = Gig.open
          ∧ RestServer.post_api_hire fault user gigId bidId db
            = (mkRes 200 success_true, hire_writes gigId bidId gig db))
  ∨ (∃ msg, RestServer.post_api_hire fault user gigId bidId db
            = (mkRes 400 (message_of msg), db))
  ∨ (fault commitTransaction_op ≠ None
     ∧ RestServer.post_api_hire fault user gigId bidId db
       = (unanswered abort_after_commit, db)).
Proof.
  unfold RestServer.post_api_hire, RestServer.post_api_hire_try.
  unfold_driver. simpl.
  destruct (fault Gig_findById_op) eqn:F1; simpl; [right; eauto|].
  destruct (gigs db !! gigId) as [gig|] eqn:Hgig; simpl; [|right; eauto].
  destruct (decide (Gig.ownerId gig ≠ user_id user)) as [|Hown]; simpl;
    [right; eauto|].
  destruct (decide (Gig.status gig ≠ Gig.open)) as [|Hopen]; simpl;
    [right; eauto|].
  destruct (fault gig_save_op); simpl; [right; eauto|].
  destruct (fault Bid_updateMany_op); simpl; [right; eauto|].
  destruct (fault Bid_findByIdAndUpdate_op); simpl; [right; eauto|].
  destruct (fault commitTransaction_op); simpl; [right; right; eauto|].
  left. exists gig. repeat split; auto.
  - by destruct (decide (Gig.ownerId gig = user_id user)); [|tauto].
  - destruct (Gig.status gig); [done|]. by destruct Hopen.
Qed.

(** [PATCH /api/bids/:bidId/hire] either commits the three writes of a hire
    of an existing bid on its own gig, open and owned by the caller, and
    emits to the bid's freelancer; or answers 400, leaves the store as it was
    and emits nothing; or, the commit being rejected, sends no answer, leaves
    the store as it was and emits nothing. *)
Lemma patch_api_bids_hire_cases fault io user bidId db :
  (∃ bid gig,
      bids db !! bidId = Some bid ∧ gigs db !! Bid.gigId bid = Some gig
      ∧ Gig.ownerId gig = user_id user ∧ Gig.status gig = Gig.open
      ∧ SocketServer.patch_api_bids_hire fault io user bidId db
        = (mkRes 200 success_true,
           hire_writes (Bid.gigId bid) bidId gig db,
           SocketServer.io_to_emit io (Bid.freelancerId bid) "notification"
             [("id", JsString bidId);
              ("gigId", JsString (Bid.gigId bid));
              ("price", JsNumber (Bid.price bid));
              ("status", JsString "hired")]))
  ∨ (∃ msg, SocketServer.patch_api_bids_hire fault io user bidId db
            = (mkRes 400 (message_of msg), db, []))
  ∨ (fault commitTransaction_op ≠ None
     ∧ SocketServer.patch_api_bids_hire fault io user bidId db
       = (unanswered abort_after_commit, db, [])).
Proof.
  unfold SocketServer.patch_api_bids_hire, SocketServer.patch_api_bids_hire_try.
  unfold_driver. simpl.
  destruct (fault Bid_findById_op); simpl; [right; eauto|].
  destruct (bids db !! bidId) as [bid|] eqn:Hbid; simpl; [|right; eauto].
  destruct (fault Gig_findById_op); simpl; [right; eauto|].
  destruct (gigs db !! Bid.gigId bid) as [gig|] eqn:Hgig; simpl;
    [|right; eauto].
  destruct (decide (Gig.ownerId gig ≠ user_id user)) as [|Hown]; simpl;
    [right; eauto|].
  destruct (decide (Gig.status gig ≠ Gig.open)) as [|Hopen]; simpl;
    [right; eauto|].
  destruct (fault gig_save_op); simpl; [right; eauto|].
  destruct (fault Bid_updateMany_op); simpl; [right; eauto|].
  destruct (fault Bid_findByIdAndUpdate_op); simpl; [right; eauto|].
  destruct (fault commitTransaction_op); simpl; [right; right; eauto|].
  left. exists bid, gig. repeat split; auto.
  - by destruct (decide (Gig.ownerId gig = user_id user)); [|tauto].
  - destruct (Gig.status gig); [done|]. by destruct Hopen.
Qed.

(** ** What the three writes of a hire leave in the store *)

Lemma hire_writes_gig gigId bidId gig db :
  gigs (hire_writes gigId bidId gig db) !! gigId
  = Some (Gig.set_status Gig.assigned gig).
Proof. simpl. apply lookup_insert_eq. Qed.

Lemma hire_writes_other_gig gigId bidId gig db id :
  id ≠ gigId → gigs (hire_writes gigId bidId gig db) !! id = gigs db !! id.
Proof. intros Hne. simpl. by rewrite lookup_insert_ne. Qed.

Lemma hire_writes_target gigId bidId gig db :
  bids (hire_writes gigId bidId gig db) !! bidId
  = Bid.set_status Bid.hired <$> bids db !! bidId.
Proof.
  simpl. rewrite lookup_alter_eq, lookup_fmap.
  destruct (bids db !! bidId) as [b|]; simpl; [|done].
  by case_decide.
Qed.

Lemma hire_writes_other_bid gigId bidId gig db k :
  k ≠ bidId →
  bids (hire_writes gigId bidId gig db) !! k
  = (λ b, if decide (Bid.gigId b = gigId)
          then Bid.set_status Bid.rejected b else b) <$> bids db !! k.
Proof. intros Hne. simpl. by rewrite lookup_alter_ne, lookup_fmap. Qed.

Lemma hire_writes_postcondition gigId bidId gig db :
  hire_postcondition gigId bidId (hire_writes gigId bidId gig db).
Proof.
  repeat split.
  - intros b. rewrite hire_writes_target.
    destruct (bids db !! bidId); simpl; [|done]. by intros [= <-].
  - intros k b Hne. rewrite hire_writes_other_bid by done.
    destruct (bids db !! k) as [b0|]; simpl; [|done].
    case_decide; intros [= <-]; simpl; [done|]. by intros ?.
  - exists (Gig.set_status Gig.assigned gig). split; [|done].
    apply hire_writes_gig.
Qed.

(** What a successful hire leaves. After [PATCH /api/bids/:bidId/hire] has
    answered 200 for the bid [b], the store held that bid, it is now hired,
    every other bid of its gig is rejected and the gig is assigned. After
    [POST /api/hire] has answered 200, the gig of the request is assigned and
    every bid of that gig other than [b] is rejected; the bid with id [b] is
    hired if the store has one, which the handler does not check. *)
Lemma hire_success_postcondition fault io user gigId bidId db :
  (statusCode (RestServer.post_api_hire fault user gigId bidId db).1 = 200 →
   let db' := (RestServer.post_api_hire fault user gigId bidId db).2 in
   hire_postcondition gigId bidId db'
   ∧ bids db' !! bidId = Bid.set_status Bid.hired <$> bids db !! bidId)
  ∧ (statusCode (SocketServer.patch_api_bids_hire fault io user bidId db).1.1
     = 200 →
     let db' := (SocketServer.patch_api_bids_hire fault io user bidId db).1.2 in
     ∃ bid, bids db !! bidId = Some bid
            ∧ hire_postcondition (Bid.gigId bid) bidId db'
            ∧ bids db' !! bidId = Some (Bid.set_status Bid.hired bid)).
Proof.
  split.
  - destruct (post_api_hire_cases fault user gigId bidId db)
      as [(gig & _ & _ & _ & ->)|[(msg & ->)|(_ & ->)]]; simpl; [|done..].
    intros _. split; [apply hire_writes_postcondition|].
    apply (hire_writes_target gigId bidId gig db).
  - destruct (patch_api_bids_hire_cases fault io user bidId db)
      as [(bid & gig & Hbid & _ & _ & _ & ->)|[(msg & ->)|(_ & ->)]]; simpl;
      [|done..].
    intros _. exists bid. split; [done|].
    split; [apply hire_writes_postcondition|].
    pose proof (hire_writes_target (Bid.gigId bid) bidId gig db) as H.
    simpl in H. by rewrite H, Hbid.
Qed.

Lemma hire_success_postcondition_witness :
  hire_postcondition "G1" "b1"
    (RestServer.post_api_hire no_fault alice "G1" "b1" market).2
  ∧ ∃ bid, bids market !! "b1" = Some bid
           ∧ hire_postcondition (Bid.gigId bid) "b1"
               (SocketServer.patch_api_bids_hire no_fault ∅ alice "b1" market).1.2.
Proof.
  destruct (hire_success_postcondition no_fault ∅ alice "G1" "b1" market)
    as [Hrest Hsocket].
  split.
  - apply Hrest. reflexivity.
  - destruct Hsocket as (bid & Hbid & Hpost & _); [reflexivity|].
    exists bid. split; assumption.
Defined.

(** C1 on [POST /api/hire]. The gig [G1] has two pending bids and [alice]
    owns it; her hire of the id ["b0"], which names no bid, is answered
    [200 { success: true }]: [G1] is assigned, its bids are rejected, and
    after this successful hire there is no bid with id ["b0"] with status
    hired, nor any hired bid at all. *)
Theorem post_api_hire_hires_nobody :
  (Gig.ownerId <$> gigs market !! "G1") = Some (user_id alice)
  ∧ (Bid.gigId <$> bids market !! "b1") = Some "G1"
  ∧ (Bid.status <$> bids market !! "b1") = Some Bid.pending
  ∧ (RestServer.post_api_hire no_fault alice "G1" "b0" market).1
    = mkRes 200 success_true
  ∧ ¬ bid_is_hired "b0"
        (RestServer.post_api_hire no_fault alice "G1" "b0" market).2
  ∧ map_Forall (λ _ b, Bid.status b = Bid.rejected ∨ Bid.gigId b ≠ "G1")
      (bids (RestServer.post_api_hire no_fault alice "G1" "b0" market).2)
  ∧ map_Forall (λ _ b, Bid.status b ≠ Bid.hired)
      (bids (RestServer.post_api_hire no_fault alice "G1" "b0" market).2).
Proof.
  assert (Hpost : RestServer.post_api_hire no_fault alice "G1" "b0" market
                  = (mkRes 200 success_true,
                     mkStore
                       (<["G1" := Gig.set_status Gig.assigned G1]>
                          (gigs market))
                       (<["b1" := Bid.set_status Bid.rejected b1]>
                          (<["b2" := Bid.set_status Bid.rejected b2]>
                             (bids market)))))
    by (vm_compute; reflexivity).
  rewrite Hpost. unfold market. cbn [fst snd bids gigs].
  split; [reflexivity|]. split; [reflexivity|]. split; [reflexivity|].
  split; [reflexivity|]. split; [|split].
  - intros (b & Hb & _). vm_compute in Hb. discriminate.
  - intros k b Hk.
    apply lookup_insert_Some in Hk as [[_ <-]|[H1 Hk]]; [by left|].
    apply lookup_insert_Some in Hk as [[_ <-]|[H2 Hk]]; [by left|].
    apply lookup_insert_Some in Hk as [[? _]|[_ Hk]]; [done|].
    apply lookup_insert_Some in Hk as [[? _]|[_ Hk]]; [done|].
    apply lookup_insert_Some in Hk as [[_ <-]|[_ Hk]]; [by right|].
    by rewrite lookup_empty in Hk.
  - intros k b Hk.
    apply lookup_insert_Some in Hk as [[_ <-]|[H1 Hk]]; [done|].
    apply lookup_insert_Some in Hk as [[_ <-]|[H2 Hk]]; [done|].
    apply lookup_insert_Some in Hk as [[? _]|[_ Hk]]; [done|].
    apply lookup_insert_Some in Hk as [[? _]|[_ Hk]]; [done|].
    apply lookup_insert_Some in Hk as [[_ <-]|[_ Hk]]; [done|].
    by rewrite lookup_empty in Hk.
Qed.

(** A hire that does not answer 200 leaves the persisted store as it was
    before the call, whatever made it fail, and the socket.io handler then
    emits nothing. Unless it is the commit that is rejected, the caller is
    answered 400 with the error's message. *)
Lemma failed_hire_leaves_store fault io user gigId bidId db :
  (statusCode (RestServer.post_api_hire fault user gigId bidId db).1 ≠ 200 →
   (RestServer.post_api_hire fault user gigId bidId db).2 = db
   ∧ (fault commitTransaction_op = None →
      ∃ msg, (RestServer.post_api_hire fault user gigId bidId db).1
             = mkRes 400 (message_of msg)))
  ∧ (statusCode (SocketServer.patch_api_bids_hire fault io user bidId db).1.1
     ≠ 200 →
     (SocketServer.patch_api_bids_hire fault io user bidId db).1.2 = db
     ∧ (SocketServer.patch_api_bids_hire fault io user bidId db).2 = []
     ∧ (fault commitTransaction_op = None →
        ∃ msg, (SocketServer.patch_api_bids_hire fault io user bidId db).1.1
               = mkRes 400 (message_of msg))).
Proof.
  split.
  - destruct (post_api_hire_cases fault user gigId bidId db)
      as [(gig & _ & _ & _ & ->)|[(msg & ->)|(Hc & ->)]]; simpl; [done| |].
    + intros _. eauto.
    + intros _. split; [done|]. intros Hnone. by destruct Hc.
  - destruct (patch_api_bids_hire_cases fault io user bidId db)
      as [(bid & gig & _ & _ & _ & _ & ->)|[(msg & ->)|(Hc & ->)]]; simpl;
      [done| |].
    + intros _. eauto.
    + intros _. do 2 (split; [done|]). intros Hnone. by destruct Hc.
Qed.

(** When every guard of a hire passes and every write of the transaction
    goes through, and the commit is rejected, the [catch] block's
    [await session.abortTransaction()] is rejected in its turn, with the
    driver's own error: the handler is left before [res.status(400)], no
    answer is sent, and the caller is not told of the failure. The store is
    as before. *)
Lemma rejected_commit_unanswered fault io user bidId db bid gig :
  fault Bid_findById_op = None → fault Gig_findById_op = None →
  fault gig_save_op = None → fault Bid_updateMany_op = None →
  fault Bid_findByIdAndUpdate_op = None →
  fault commitTransaction_op ≠ None →
  bids db !! bidId = Some bid →
  gigs db !! Bid.gigId bid = Some gig →
  Gig.ownerId gig = user_id user → Gig.status gig = Gig.open →
  RestServer.post_api_hire fault user (Bid.gigId bid) bidId db
  = (unanswered abort_after_commit, db)
  ∧ SocketServer.patch_api_bids_hire fault io user bidId db
    = (unanswered abort_after_commit, db, []).
Proof.
  intros F1 F2 F3 F4 F5 Hc Hbid Hgig Hown Hopen.
  destruct (fault commitTransaction_op) as [e|] eqn:F6; [clear Hc|done].
  split.
  - unfold RestServer.post_api_hire, RestServer.post_api_hire_try.
    unfold_driver. simpl. rewrite F2. simpl. rewrite Hgig. simpl.
    rewrite decide_False by (intros Hne; by apply Hne).
    rewrite decide_False by (intros Hne; by apply Hne).
    rewrite F3. simpl. rewrite F4. simpl. rewrite F5. simpl.
    by rewrite F6.
  - unfold SocketServer.patch_api_bids_hire,
      SocketServer.patch_api_bids_hire_try.
    unfold_driver. simpl. rewrite F1. simpl. rewrite Hbid. simpl.
    rewrite F2. simpl. rewrite Hgig. simpl.
    rewrite decide_False by (intros Hne; by apply Hne).
    rewrite decide_False by (intros Hne; by apply Hne).
    rewrite F3. simpl. rewrite F4. simpl. rewrite F5. simpl.
    by rewrite F6.
Qed.


(** C6. A hire by an actor who is not the gig's owner is answered with the
    error ['Unauthorized or Gig not found'] and changes no gig and no bid,
    also when the bid exists, belongs to the gig and the gig is open. (The
    lookups themselves are assumed to reach the store.) *)
Theorem hire_by_non_owner fault io user gigId bidId db gig :
  fault Gig_findById_op = None →
  gigs db !! gigId = Some gig →
  Gig.ownerId gig ≠ user_id user →
  RestServer.post_api_hire fault user gigId bidId db
  = (mkRes 400 (message_of "Unauthorized or Gig not found"), db)
  ∧ (∀ bid, fault Bid_findById_op = None →
            bids db !! bidId = Some bid → Bid.gigId bid = gigId →
            SocketServer.patch_api_bids_hire fault io user bidId db
            = (mkRes 400 (message_of "Unauthorized or Gig not found"), db, [])).
Proof.
  intros Hf Hgig Hown. split.
  - unfold RestServer.post_api_hire, RestServer.post_api_hire_try.
    unfold_driver. simpl. rewrite Hf. simpl. rewrite Hgig. simpl.
    by rewrite decide_True.
  - intros bid Hfb Hbid <-.
    unfold SocketServer.patch_api_bids_hire,
      SocketServer.patch_api_bids_hire_try.
    unfold_driver. simpl. rewrite Hfb. simpl. rewrite Hbid. simpl.
    rewrite Hf. simpl. rewrite Hgig. simpl.
    by rewrite decide_True.
Qed.

Lemma hire_by_non_owner_witness :
  RestServer.post_api_hire no_fault carol "G1" "b1" market
  = (mkRes 400 (message_of "Unauthorized or Gig not found"), market)
  ∧ SocketServer.patch_api_bids_hire no_fault ∅ carol "b1" market
    = (mkRes 400 (message_of "Unauthorized or Gig not found"), market, []).
Proof.
  assert (H : Gig.ownerId G1 ≠ user_id carol) by (vm_compute; discriminate).
  destruct (hire_by_non_owner no_fault ∅ carol "G1" "b1" market G1
              eq_refl eq_refl H) as [Hrest Hsocket].
  split; [exact Hrest|].
  apply (Hsocket b1); reflexivity.
Defined.

(** ** The bid lookup of the hire *)

(** [PATCH /api/bids/:bidId/hire] looks the bid up before anything else: an
    id that names no bid is answered ['Bid not found'] whatever the gigs are,
    whoever calls and whatever the later driver calls would do. *)
Lemma patch_hire_bid_not_found fault io user bidId db :
  fault Bid_findById_op = None →
  bids db !! bidId = None →
  SocketServer.patch_api_bids_hire fault io user bidId db
  = (mkRes 400 (message_of "Bid not found"), db, []).
Proof.
  intros Hf Hbid.
  unfold SocketServer.patch_api_bids_hire, SocketServer.patch_api_bids_hire_try.
  unfold_driver. simpl. rewrite Hf. simpl. by rewrite Hbid.
Qed.

(** A hire by a caller who is not the gig's owner is answered
    ['Unauthorized or Gig not found'] and changes nothing, whatever the
    gig's status is. *)
Lemma post_hire_not_owner fault user gigId bidId db gig :
  fault Gig_findById_op = None →
  gigs db !! gigId = Some gig →
  Gig.ownerId gig ≠ user_id user →
  RestServer.post_api_hire fault user gigId bidId db
  = (mkRes 400 (message_of "Unauthorized or Gig not found"), db).
Proof.
  intros Hf Hgig Hown.
  unfold RestServer.post_api_hire, RestServer.post_api_hire_try.
  unfold_driver. simpl. rewrite Hf. simpl. rewrite Hgig. simpl.
  by rewrite decide_True.
Qed.

Lemma patch_hire_not_owner fault io user bidId db bid gig :
  fault Bid_findById_op = None → fault Gig_findById_op = None →
  bids db !! bidId = Some bid →
  gigs db !! Bid.gigId bid = Some gig →
  Gig.ownerId gig ≠ user_id user →
  SocketServer.patch_api_bids_hire fault io user bidId db
  = (mkRes 400 (message_of "Unauthorized or Gig not found"), db, []).
Proof.
  intros Hfb Hf Hbid Hgig Hown.
  unfold SocketServer.patch_api_bids_hire, SocketServer.patch_api_bids_hire_try.
  unfold_driver. simpl. rewrite Hfb. simpl. rewrite Hbid. simpl.
  rewrite Hf. simpl. rewrite Hgig. simpl.
  by rewrite decide_True.
Qed.

(** An owner's hire on a gig that is not open is answered
    ['Gig is not open'] and changes nothing. *)
Lemma post_hire_not_open fault user gigId bidId db gig :
  fault Gig_findById_op = None →
  gigs db !! gigId = Some gig →
  Gig.ownerId gig = user_id user →
  Gig.status gig ≠ Gig.open →
  RestServer.post_api_hire fault user gigId bidId db
  = (mkRes 400 (message_of "Gig is not open"), db).
Proof.
  intros Hf Hgig Hown Hclosed.
  unfold RestServer.post_api_hire, RestServer.post_api_hire_try.
  unfold_driver. simpl. rewrite Hf. simpl. rewrite Hgig. simpl.
  rewrite decide_False by (intros Hne; by apply Hne).
  by rewrite decide_True.
Qed.

Lemma patch_hire_not_open fault io user bidId db bid gig :
  fault Bid_findById_op = None → fault Gig_findById_op = None →
  bids db !! bidId = Some bid →
  gigs db !! Bid.gigId bid = Some gig →
  Gig.ownerId gig = user_id user →
  Gig.status gig ≠ Gig.open →
  SocketServer.patch_api_bids_hire fault io user bidId db
  = (mkRes 400 (message_of "Gig is not open"), db, []).
Proof.
  intros Hfb Hf Hbid Hgig Hown Hclosed.
  unfold SocketServer.patch_api_bids_hire, SocketServer.patch_api_bids_hire_try.
  unfold_driver. simpl. rewrite Hfb. simpl. rewrite Hbid. simpl.
  rewrite Hf. simpl. rewrite Hgig. simpl.
  rewrite decide_False by (intros Hne; by apply Hne).
  by rewrite decide_True.
Qed.

(** C5, as stated, fails. With every gig of the hire assigned, the answer is
    not always ['Gig is not open']: the socket.io handler looks the bid up
    first and answers ['Bid not found'] for an id that names no bid, and both
    handlers check the owner before the gig's status. *)
Lemma hire_on_assigned_gig_other_errors :
  (Gig.status <$> gigs market_assigned !! "G1") = Some Gig.assigned
  ∧ (SocketServer.patch_api_bids_hire no_fault ∅ alice "nope" market_assigned).1.1
    = mkRes 400 (message_of "Bid not found")
  ∧ (RestServer.post_api_hire no_fault carol "G1" "b2" market_assigned).1
    = mkRes 400 (message_of "Unauthorized or Gig not found").
Proof. repeat split; vm_compute; reflexivity. Qed.

(** C5, amended. A hire on a gig that is assigned changes no gig and no bid,
    whatever bid id is supplied and whoever calls. [POST /api/hire], which
    does not consult the bid, answers the gig's owner ['Gig is not open'] for
    every bid id, whether it names a bid or not, and answers any other
    caller ['Unauthorized or Gig not found']. [PATCH /api/bids/:bidId/hire]
    answers ['Bid not found'] for an id that names no bid, whoever calls;
    for an id that names a bid of the gig it answers the owner
    ['Gig is not open'] and any other caller
    ['Unauthorized or Gig not found']. (The answers are those given when the
    lookups reach the store.) *)
Theorem hire_on_assigned_gig fault io user gigId bidId db gig :
  gigs db !! gigId = Some gig →
  Gig.status gig = Gig.assigned →
  ((RestServer.post_api_hire fault user gigId bidId db).2 = db
   ∧ (fault Gig_findById_op = None → Gig.ownerId gig = user_id user →
      (RestServer.post_api_hire fault user gigId bidId db).1
      = mkRes 400 (message_of "Gig is not open"))
   ∧ (fault Gig_findById_op = None → Gig.ownerId gig ≠ user_id user →
      (RestServer.post_api_hire fault user gigId bidId db).1
      = mkRes 400 (message_of "Unauthorized or Gig not found")))
  ∧ (∀ bid, bids db !! bidId = Some bid → Bid.gigId bid = gigId →
       (SocketServer.patch_api_bids_hire fault io user bidId db).1.2 = db
       ∧ (fault Bid_findById_op = None → fault Gig_findById_op = None →
          Gig.ownerId gig = user_id user →
          (SocketServer.patch_api_bids_hire fault io user bidId db).1.1
          = mkRes 400 (message_of "Gig is not open"))
       ∧ (fault Bid_findById_op = None → fault Gig_findById_op = None →
          Gig.ownerId gig ≠ user_id user →
          (SocketServer.patch_api_bids_hire fault io user bidId db).1.1
          = mkRes 400 (message_of "Unauthorized or Gig not found")))
  ∧ (bids db !! bidId = None →
       (SocketServer.patch_api_bids_hire fault io user bidId db).1.2 = db
       ∧ (fault Bid_findById_op = None →
          (SocketServer.patch_api_bids_hire fault io user bidId db).1.1
          = mkRes 400 (message_of "Bid not found"))).
Proof.
  intros Hgig Hst.
  assert (Hclosed : Gig.status gig ≠ Gig.open) by (rewrite Hst; discriminate).
  split; [split; [|split]|split].
  - destruct (post_api_hire_cases fault user gigId bidId db)
      as [(gig' & Hgig' & _ & Hopen & _)|[(msg & ->)|(_ & ->)]]; [|done..].
    rewrite Hgig in Hgig'. injection Hgig' as <-. congruence.
  - intros Hf Hown. by rewrite (post_hire_not_open fault user gigId bidId db gig).
  - intros Hf Hown.
    by rewrite (post_hire_not_owner fault user gigId bidId db gig).
  - intros bid Hbid <-. split; [|split].
    + destruct (patch_api_bids_hire_cases fault io user bidId db)
        as [(bid' & gig' & Hbid' & Hgig' & _ & Hopen & _)
           |[(msg & ->)|(_ & ->)]]; [|done..].
      rewrite Hbid in Hbid'. injection Hbid' as <-.
      rewrite Hgig in Hgig'. injection Hgig' as <-. congruence.
    + intros Hfb Hf Hown.
      by rewrite (patch_hire_not_open fault io user bidId db bid gig).
    + intros Hfb Hf Hown.
      by rewrite (patch_hire_not_owner fault io user bidId db bid gig).
  - intros Hnone. split.
    + destruct (patch_api_bids_hire_cases fault io user bidId db)
        as [(bid' & gig' & Hbid' & _)|[(msg & ->)|(_ & ->)]];
        [congruence|done..].
    + intros Hfb. by rewrite patch_hire_bid_not_found.
Qed.

Lemma hire_on_assigned_gig_witness :
  (RestServer.post_api_hire no_fault alice "G1" "b0" market_assigned
   = (mkRes 400 (message_of "Gig is not open"), market_assigned)
   ∧ RestServer.post_api_hire no_fault carol "G1" "b2" market_assigned
     = (mkRes 400 (message_of "Unauthorized or Gig not found"),
        market_assigned))
  ∧ (SocketServer.patch_api_bids_hire no_fault ∅ alice "b2" market_assigned).1
    = (mkRes 400 (message_of "Gig is not open"), market_assigned)
  ∧ (SocketServer.patch_api_bids_hire no_fault ∅ carol "b2" market_assigned).1
    = (mkRes 400 (message_of "Unauthorized or Gig not found"),
       market_assigned)
  ∧ (SocketServer.patch_api_bids_hire no_fault ∅ carol "b0" market_assigned).1
    = (mkRes 400 (message_of "Bid not found"), market_assigned).
Proof.
  assert (Hgig : gigs market_assigned !! "G1"
                 = Some (Gig.set_status Gig.assigned G1)) by reflexivity.
  assert (Hbid : bids market_assigned !! "b2"
                 = Some (Bid.set_status Bid.rejected b2)) by reflexivity.
  assert (Hnone : bids market_assigned !! "b0" = None) by reflexivity.
  assert (Hcarol : Gig.ownerId (Gig.set_status Gig.assigned G1)
                   ≠ user_id carol) by (vm_compute; discriminate).
  split; [|split; [|split]].
  - split.
    + destruct (hire_on_assigned_gig no_fault ∅ alice "G1" "b0"
                  market_assigned _ Hgig eq_refl)
        as ((Hst & Hres & _) & _).
      rewrite (surjective_pairing (RestServer.post_api_hire _ _ _ _ _)).
      by rewrite Hst, Hres.
    + destruct (hire_on_assigned_gig no_fault ∅ carol "G1" "b2"
                  market_assigned _ Hgig eq_refl)
        as ((Hst & _ & Hres) & _).
      rewrite (surjective_pairing (RestServer.post_api_hire _ _ _ _ _)).
      by rewrite Hst, Hres.
  - destruct (hire_on_assigned_gig no_fault ∅ alice "G1" "b2" market_assigned
                _ Hgig eq_refl) as (_ & Hsocket & _).
    destruct (Hsocket _ Hbid eq_refl) as (Hst & Hres & _).
    rewrite (surjective_pairing
               (SocketServer.patch_api_bids_hire _ _ _ _ _).1).
    by rewrite Hst, Hres.
  - destruct (hire_on_assigned_gig no_fault ∅ carol "G1" "b2" market_assigned
                _ Hgig eq_refl) as (_ & Hsocket & _).
    destruct (Hsocket _ Hbid eq_refl) as (Hst & _ & Hres).
    rewrite (surjective_pairing
               (SocketServer.patch_api_bids_hire _ _ _ _ _).1).
    by rewrite Hst, Hres.
  - destruct (hire_on_assigned_gig no_fault ∅ carol "G1" "b0" market_assigned
                _ Hgig eq_refl) as (_ & _ & Hmissing).
    destruct (Hmissing Hnone) as (Hst & Hres).
    rewrite (surjective_pairing
               (SocketServer.patch_api_bids_hire _ _ _ _ _).1).
    by rewrite Hst, Hres.
Defined.

(** ** The handler without a bid lookup *)

(** C3 on [POST /api/hire]: the handler never looks the bid up. Hiring, on
    [G1], an id that names no bid succeeds: [G1] is assigned, its two bids
    are rejected and nobody is hired. Hiring, on [G1], the bid [b3] of [G2]
    succeeds as well. *)
Theorem post_api_hire_skips_bid_lookup :
  bids market !! "nope" = None
  ∧ RestServer.post_api_hire no_fault alice "G1" "nope" market
    = (mkRes 200 success_true,
       mkStore (<["G1" := Gig.set_status Gig.assigned G1]> (gigs market))
               (<["b1" := Bid.set_status Bid.rejected b1]>
                  (<["b2" := Bid.set_status Bid.rejected b2]> (bids market))))
  ∧ (Bid.gigId <$> bids market !! "b3") = Some "G2"
  ∧ (RestServer.post_api_hire no_fault alice "G1" "b3" market).1
    = mkRes 200 success_true.
Proof.
  repeat split; vm_compute; reflexivity.
Qed.

(** ** The invariant: one hired bid per gig, and only in an assigned gig *)

Lemma hired_after_hire_writes gigId bidId gig db k b' :
  (∀ b, bids db !! bidId = Some b → Bid.gigId b = gigId) →
  bids (hire_writes gigId bidId gig db) !! k = Some b' →
  Bid.status b' = Bid.hired →
  (k = bidId ∧ Bid.gigId b' = gigId)
  ∨ (k ≠ bidId ∧ Bid.gigId b' ≠ gigId ∧ bids db !! k = Some b').
Proof.
  intros Hown Hk Hhired.
  destruct (decide (k = bidId)) as [->|Hne].
  - left. split; [done|].
    rewrite hire_writes_target in Hk.
    destruct (bids db !! bidId) as [b|] eqn:Hb; simpl in Hk; [|done].
    injection Hk as <-. simpl. by apply Hown.
  - right. split; [done|].
    rewrite hire_writes_other_bid in Hk by done.
    destruct (bids db !! k) as [b|] eqn:Hb; simpl in Hk; [|done].
    injection Hk as <-. case_decide; [done|]. by split.
Qed.

Lemma hire_writes_invariant gigId bidId gig db :
  (∀ b, bids db !! bidId = Some b → Bid.gigId b = gigId) →
  hire_invariant db →
  hire_invariant (hire_writes gigId bidId gig db).
Proof.
  intros Hown [Hone Hassigned]. split.
  - intros k1 k2 c1 c2 H1 H2 Hsame Hh1 Hh2.
    destruct (hired_after_hire_writes _ _ _ _ _ _ Hown H1 Hh1)
      as [[-> Hg1]|(Hne1 & Hg1 & Hold1)];
    destruct (hired_after_hire_writes _ _ _ _ _ _ Hown H2 Hh2)
      as [[-> Hg2]|(Hne2 & Hg2 & Hold2)]; try congruence.
    by apply (Hone k1 k2 c1 c2).
  - intros k c Hk Hh.
    destruct (hired_after_hire_writes _ _ _ _ _ _ Hown Hk Hh)
      as [[-> Hg]|(Hne & Hg & Hold)].
    + exists (Gig.set_status Gig.assigned gig). split; [|done].
      rewrite Hg. apply hire_writes_gig.
    + destruct (Hassigned k c Hold Hh) as (g & Hgig & Hst).
      exists g. split; [|done]. by rewrite hire_writes_other_gig.
Qed.

(** The reads answer without writing. *)
Lemma reads_leave_store fault regex_i db :
  (∀ search ownerId, (get_api_gigs fault regex_i search ownerId db).2 = db)
  ∧ (∀ id, (get_api_gigs_id fault id db).2 = db)
  ∧ (∀ gigId freelancerId,
       (RestServer.get_api_bids fault gigId freelancerId db).2 = db)
  ∧ (∀ freelancerId, (SocketServer.get_api_bids fault freelancerId db).2 = db)
  ∧ (∀ gigId, (SocketServer.get_api_bids_gigId fault gigId db).2 = db).
Proof.
  repeat split; intros;
    unfold get_api_gigs, get_api_gigs_id, RestServer.get_api_bids,
      SocketServer.get_api_bids, SocketServer.get_api_bids_gigId;
    unfold_driver; destruct (fault _); simpl; try done.
  by destruct (gigs db !! id).
Qed.

(** [POST /api/bids] leaves the store as it is or adds one pending bid under
    an unused id. *)
Lemma post_api_bids_store fault user body _id now db :
  (post_api_bids fault user body _id now db).2 = db
  ∨ (bids db !! _id = None
     ∧ (post_api_bids fault user body _id now db).2
       = mkStore (gigs db)
           (<[_id := Bid.mk (body_gigId body) (user_id user) (user_name user)
                       (body_message body) (body_price body) Bid.pending now]>
              (bids db))).
Proof.
  unfold post_api_bids, post_api_bids_try. unfold_driver.
  destruct (fault Bid_findOne_op); simpl; [by left|].
  destruct (head _); simpl; [by left|].
  destruct (bidSchema _); simpl; [|by left].
  destruct (fault Bid_create_op); simpl; [by left|].
  destruct (bids db !! _id) eqn:Hid; simpl; [by left|by right].
Qed.

(** [POST /api/gigs] leaves the store as it is or adds one open gig under an
    unused id. *)
Lemma post_api_gigs_store fault user body _id now db :
  (post_api_gigs fault user body _id now db).2 = db
  ∨ (gigs db !! _id = None
     ∧ ∃ gig, Gig.status gig = Gig.open
              ∧ (post_api_gigs fault user body _id now db).2
                = mkStore (<[_id := gig]> (gigs db)) (bids db)).
Proof.
  unfold post_api_gigs. unfold_driver.
  destruct (gigSchema _); simpl; [|by left].
  destruct (fault Gig_create_op); simpl; [by left|].
  destruct (gigs db !! _id) eqn:Hid; simpl; [by left|].
  right. split; [done|]. eexists. split; [|done]. done.
Qed.

Lemma new_pending_bid_invariant _id bid db :
  Bid.status bid = Bid.pending →
  hire_invariant db →
  hire_invariant (mkStore (gigs db) (<[_id := bid]> (bids db))).
Proof.
  intros Hpending [Hone Hassigned]. split.
  - intros k1 k2 c1 c2. simpl.
    rewrite !lookup_insert_Some.
    intros [[<- <-]|[Hne1 H1]] [[<- <-]|[Hne2 H2]] Hsame Hh1 Hh2;
      try congruence.
    by apply (Hone k1 k2 c1 c2).
  - intros k c. simpl. rewrite lookup_insert_Some.
    intros [[<- <-]|[Hne Hk]] Hh; [congruence|].
    by apply (Hassigned k c).
Qed.

Lemma new_gig_invariant _id gig db :
  gigs db !! _id = None →
  hire_invariant db →
  hire_invariant (mkStore (<[_id := gig]> (gigs db)) (bids db)).
Proof.
  intros Hfresh [Hone Hassigned]. split; [exact Hone|].
  intros k c Hk Hh. simpl in *.
  destruct (Hassigned k c Hk Hh) as (g & Hg & Hst).
  exists g. split; [|done].
  rewrite lookup_insert_ne; [done|]. congruence.
Qed.

(** Every request to the server with [PATCH /api/bids/:bidId/hire] keeps the
    invariant: the gig of the hire is the bid's own. *)
Lemma socket_server_keeps_invariant fault regex_i io req db :
  hire_invariant db →
  hire_invariant (SocketServer.handle fault regex_i io req db).2.
Proof.
  intros Hinv.
  destruct (reads_leave_store fault regex_i db) as (R1 & R2 & _ & R4 & R5).
  destruct req as [search ownerId|id|user gbody _id now|freelancerId|gigId
                   |user bbody _id now|user bidId]; simpl.
  - by rewrite R1.
  - by rewrite R2.
  - destruct (post_api_gigs_store fault user gbody _id now db)
      as [->|(Hfresh & gig & _ & ->)]; [done|].
    by apply new_gig_invariant.
  - by rewrite R4.
  - by rewrite R5.
  - destruct (post_api_bids_store fault user bbody _id now db)
      as [->|(_ & ->)]; [done|].
    by apply new_pending_bid_invariant.
  - destruct (patch_api_bids_hire_cases fault io user bidId db)
      as [(bid & gig & Hbid & _ & _ & _ & ->)|[(msg & ->)|(_ & ->)]]; simpl; [|done..].
    apply hire_writes_invariant; [|done].
    intros b Hb. congruence.
Qed.

(** X16. Every request to the server with [POST /api/hire] keeps the invariant
    (one hired bid per gig, hired only in an assigned gig), provided its
    hires name a bid of the gig they name, or no bid at all. *)
Lemma rest_server_keeps_invariant fault regex_i req db :
  (∀ user gigId bidId bid,
     req = RestServer.POST_api_hire user gigId bidId →
     bids db !! bidId = Some bid → Bid.gigId bid = gigId) →
  hire_invariant db →
  hire_invariant (RestServer.handle fault regex_i req db).2.
Proof.
  intros Hbelongs Hinv.
  destruct (reads_leave_store fault regex_i db) as (R1 & R2 & R3 & _).
  destruct req as [search ownerId|id|user gbody _id now|gigId freelancerId
                   |user bbody _id now|user gigId bidId]; simpl.
  - by rewrite R1.
  - by rewrite R2.
  - destruct (post_api_gigs_store fault user gbody _id now db)
      as [->|(Hfresh & gig & _ & ->)]; [done|].
    by apply new_gig_invariant.
  - by rewrite R3.
  - destruct (post_api_bids_store fault user bbody _id now db)
      as [->|(_ & ->)]; [done|].
    by apply new_pending_bid_invariant.
  - destruct (post_api_hire_cases fault user gigId bidId db)
      as [(gig & _ & _ & _ & ->)|[(msg & ->)|(_ & ->)]]; simpl; [|done..].
    apply hire_writes_invariant; [|done].
    intros b Hb. by apply (Hbelongs user gigId bidId).
Qed.

Lemma no_hired_bid_invariant db :
  map_Forall (λ _ b, Bid.status b ≠ Bid.hired) (bids db) → hire_invariant db.
Proof.
  intros Hnone. split.
  - intros k1 k2 c1 c2 H1 _ _ Hh _. by destruct (Hnone k1 c1 H1).
  - intros k c Hk Hh. by destruct (Hnone k c Hk).
Qed.

Lemma market_invariant : hire_invariant market.
Proof.
  apply no_hired_bid_invariant.
  apply (bool_decide_unpack _). vm_compute. exact I.
Qed.

(** C2 on [POST /api/hire]: the handler writes [hired] into the bid of the
    request without checking that it is a bid of the gig of the request. On a
    store that satisfies the invariant, Alice's hire of [b3] (a bid of
    Carol's open gig [G2]) on her own gig [G1] succeeds and leaves [b3] hired
    while [G2] is still open: the invariant is lost. *)
Theorem post_api_hire_breaks_invariant :
  let out := RestServer.post_api_hire no_fault alice "G1" "b3" market in
  hire_invariant market
  ∧ out.1 = mkRes 200 success_true
  ∧ bids out.2 !! "b3" = Some (Bid.set_status Bid.hired b3)
  ∧ gigs out.2 !! "G2" = Some G2
  ∧ Gig.status G2 = Gig.open
  ∧ ¬ hire_invariant out.2.
Proof.
  intros out.
  assert (Hb3 : bids out.2 !! "b3" = Some (Bid.set_status Bid.hired b3))
    by reflexivity.
  assert (HG2 : gigs out.2 !! "G2" = Some G2) by reflexivity.
  split; [exact market_invariant|].
  repeat split; try done.
  intros [_ Hassigned].
  destruct (Hassigned "b3" _ Hb3 eq_refl) as (g & Hg & Hst).
  simpl in Hg. rewrite HG2 in Hg. injection Hg as <-. discriminate.
Qed.

(** ** Bid creation *)

Lemma Bid_findOne_finds fault gigId freelancerId db k bid :
  fault Bid_findOne_op = None →
  bids db !! k = Some bid →
  Bid.gigId bid = gigId → Bid.freelancerId bid = freelancerId →
  ∃ found, Bid_findOne fault gigId freelancerId db = (inr (Some found), db).
Proof.
  intros Hf Hk Hg Hfr. unfold Bid_findOne, db_call. rewrite Hf.
  destruct (filter _ (map_to_list (bids db))) as [|found rest] eqn:Hfilter.
  - assert (Hin : (k, bid) ∈ filter
                    (λ kb : string * Bid.t,
                       Bid.gigId kb.2 = gigId
                       ∧ Bid.freelancerId kb.2 = freelancerId)
                    (map_to_list (bids db))).
    { apply list_elem_of_filter. split; [done|].
      by apply elem_of_map_to_list. }
    rewrite Hfilter in Hin. by apply not_elem_of_nil in Hin.
  - by exists found.
Qed.

(** C8. When the store holds a bid with the pair (gigId, freelancerId), a
    request of that freelancer to bid on that gig again leaves the store as
    it is (the existing bid unchanged, no bid added), and is answered 400
    ['Already bid on this gig'] (the lookup is assumed to reach the store;
    when it does not, the answer is the driver's error). *)
Theorem duplicate_bid_rejected fault user body _id now db k bid :
  bids db !! k = Some bid →
  Bid.gigId bid = body_gigId body →
  Bid.freelancerId bid = user_id user →
  (post_api_bids fault user body _id now db).2 = db
  ∧ (fault Bid_findOne_op = None →
     post_api_bids fault user body _id now db
     = (mkRes 400 (message_of "Already bid on this gig"), db)).
Proof.
  intros Hk Hg Hfr.
  unfold post_api_bids, post_api_bids_try, bind.
  destruct (fault Bid_findOne_op) as [e|] eqn:Hf.
  - split; [|done]. unfold Bid_findOne, db_call. by rewrite Hf.
  - destruct (Bid_findOne_finds fault _ _ db k bid Hf Hk Hg Hfr)
      as [found ->]. by split.
Qed.

Lemma duplicate_bid_rejected_witness :
  post_api_bids no_fault (mkUser "F1" "Frank") (mkBidBody "G1" "again" 90)
    "b9" 10 market
  = (mkRes 400 (message_of "Already bid on this gig"), market).
Proof.
  apply (duplicate_bid_rejected no_fault (mkUser "F1" "Frank")
           (mkBidBody "G1" "again" 90) "b9" 10 market "b1" b1
           eq_refl eq_refl eq_refl).
  reflexivity.
Defined.

(** ** The notification of the hire *)

(** C9, as stated, fails: the event that [PATCH /api/bids/:bidId/hire] emits
    for the hire of [b1] (freelancer [F1], price 100) has the fields [id],
    [gigId], [price] and [status]; it has no field [freelancerId] (nor
    [bidId]), and none of its values is the freelancer's id. *)
Lemma notification_has_no_freelancerId :
  let sent :=
    (SocketServer.patch_api_bids_hire no_fault (<["F1" := [7]]> ∅) alice "b1"
       market).2 in
  sent = [mkPacket 7 "notification"
            [("id", JsString "b1"); ("gigId", JsString "G1");
             ("price", JsNumber 100); ("status", JsString "hired")]]
  ∧ Forall (λ p, js_get "freelancerId" (packet_data p) = None
                 ∧ js_get "bidId" (packet_data p) = None
                 ∧ JsString "F1" ∉ (packet_data p).*2) sent.
Proof.
  split; [reflexivity|].
  repeat constructor; vm_compute; intros H;
    repeat (apply elem_of_cons in H as [H|H]; [discriminate|]);
    by apply not_elem_of_nil in H.
Qed.

(** C9, amended. Every successful [PATCH /api/bids/:bidId/hire] emits, after
    the commit, one ['notification'] event to the room named by the hired
    bid's [freelancerId], that is one packet per socket that joined that
    room and none when there is none; its payload has the fields [id] (the
    bid's id), [gigId], [price] (the hired bid's price) and [status]
    (['hired']). The answer to the caller and the store do not depend on who
    is connected. *)
Theorem hire_notification fault io user bidId db :
  statusCode (SocketServer.patch_api_bids_hire fault io user bidId db).1.1 = 200 →
  (∃ bid,
     bids db !! bidId = Some bid
     ∧ (SocketServer.patch_api_bids_hire fault io user bidId db).2
       = (λ socket,
            mkPacket socket "notification"
              [("id", JsString bidId);
               ("gigId", JsString (Bid.gigId bid));
               ("price", JsNumber (Bid.price bid));
               ("status", JsString "hired")])
         <$> default [] (io !! Bid.freelancerId bid))
  ∧ (∀ io', (SocketServer.patch_api_bids_hire fault io' user bidId db).1
            = (SocketServer.patch_api_bids_hire fault io user bidId db).1).
Proof.
  intros Hok. split.
  - destruct (patch_api_bids_hire_cases fault io user bidId db)
      as [(bid & gig & Hbid & _ & _ & _ & Hrun)
         |[(msg & Hrun)|(_ & Hrun)]];
      rewrite Hrun in *; simpl in *; [|done..].
    by exists bid.
  - intros io'.
    destruct (patch_api_bids_hire_cases fault io user bidId db)
      as [(bid & gig & Hbid & Hgig & _ & _ & Hrun)
         |[(msg & Hrun)|(_ & Hrun)]];
      rewrite Hrun in *; simpl in *; [|done..].
    destruct (patch_api_bids_hire_cases fault io' user bidId db)
      as [(bid' & gig' & Hbid' & Hgig' & _ & _ & ->)
         |[(msg & Hrun')|(_ & Hrun')]]; simpl.
    + rewrite Hbid in Hbid'. injection Hbid' as <-.
      rewrite Hgig in Hgig'. by injection Hgig' as <-.
    + exfalso. revert Hrun Hrun'.
      unfold SocketServer.patch_api_bids_hire,
        SocketServer.patch_api_bids_hire_try.
      unfold_driver. simpl.
      repeat (first [ destruct (fault _) | destruct (_ !! _) | case_decide ];
              simpl; try done).
    + exfalso. revert Hrun Hrun'.
      unfold SocketServer.patch_api_bids_hire,
        SocketServer.patch_api_bids_hire_try.
      unfold_driver. simpl.
      repeat (first [ destruct (fault _) | destruct (_ !! _) | case_decide ];
              simpl; try done).
Qed.

Lemma hire_notification_witness :
  (SocketServer.patch_api_bids_hire no_fault (<["F1" := [7; 8]]> ∅) alice "b1"
     market).2
  = [mkPacket 7 "notification"
       [("id", JsString "b1"); ("gigId", JsString "G1");
        ("price", JsNumber 100); ("status", JsString "hired")];
     mkPacket 8 "notification"
       [("id", JsString "b1"); ("gigId", JsString "G1");
        ("price", JsNumber 100); ("status", JsString "hired")]]
  ∧ (SocketServer.patch_api_bids_hire no_fault ∅ alice "b1" market).1
    = (SocketServer.patch_api_bids_hire no_fault (<["F1" := [7; 8]]> ∅) alice
         "b1" market).1.
Proof.
  destruct (hire_notification no_fault (<["F1" := [7; 8]]> ∅) alice "b1" market
              eq_refl) as [(bid & Hbid & Hsent) Hsame].
  split; [|apply Hsame].
  rewrite Hsent.
  assert (Hb1 : bids market !! "b1" = Some b1) by reflexivity.
  rewrite Hb1 in Hbid. injection Hbid as <-. reflexivity.
Defined.

(** ** The circuit breaker of the client *)

Lemma requestWithFallback_offline {T} (fetchFn : ClientApi.FetchFn T)
    (fallbackFn : ClientApi.FallbackFn T) (st : ClientApi.State) :
  ClientApi.isBackendOffline st = true →
  ClientApi.requestWithFallback fetchFn fallbackFn st
  = ((fallbackFn (ClientApi.localStorage st)).1,
     ClientApi.mkState true (fallbackFn (ClientApi.localStorage st)).2,
     [ClientApi.call_fallbackFn]).
Proof.
  intros Hoff. unfold ClientApi.requestWithFallback. rewrite Hoff.
  by destruct (fallbackFn (ClientApi.localStorage st)).
Qed.

(** C10. Once [isBackendOffline] is true it stays true: from such a state,
    every call of [requestWithFallback] returns what its [fallbackFn]
    returns on the current [localStorage], without invoking its [fetchFn],
    and leaves the flag set; so any sequence of calls made afterwards
    consists of fallback executions only, one per call, and ends with the
    flag still set. *)
Theorem circuit_breaker_latches (cs : list ClientApi.Call)
    (st : ClientApi.State) :
  ClientApi.isBackendOffline st = true →
  (∀ T (fetchFn : ClientApi.FetchFn T) (fallbackFn : ClientApi.FallbackFn T),
     ClientApi.requestWithFallback fetchFn fallbackFn st
     = ((fallbackFn (ClientApi.localStorage st)).1,
        ClientApi.mkState true (fallbackFn (ClientApi.localStorage st)).2,
        [ClientApi.call_fallbackFn]))
  ∧ ClientApi.isBackendOffline (ClientApi.run_calls cs st).1 = true
  ∧ (ClientApi.run_calls cs st).2
    = replicate (length cs) ClientApi.call_fallbackFn.
Proof.
  intros Hoff. split.
  { intros T fetchFn fallbackFn. by apply requestWithFallback_offline. }
  revert st Hoff. induction cs as [|c cs IH]; intros st Hoff; [done|].
  simpl. unfold ClientApi.run_call.
  rewrite requestWithFallback_offline by done.
  specialize (IH (ClientApi.mkState true
                    (ClientApi.call_fallbackFn_of c
                       (ClientApi.localStorage st)).2) eq_refl).
  destruct (ClientApi.run_calls cs _) as [st2 tr2]. simpl in *.
  destruct IH as [-> ->]. done.
Qed.

(** What trips the breaker: a 5xx answer does, a 4xx answer is handed to the
    caller without a fallback, an error without a status and without a
    network name falls back once but leaves the flag as it is. *)
Example requestWithFallback_trips :
  let fetchFn error : ClientApi.FetchFn nat :=
    λ st, (ClientApi.rejected error, st, [ClientApi.network "/api/gigs"]) in
  let fallbackFn : ClientApi.FallbackFn nat := λ ls, (ClientApi.resolved 7, ls) in
  let after error :=
    ClientApi.requestWithFallback (fetchFn error) fallbackFn
      (ClientApi.initial ∅) in
  (after (ClientApi.mkJsError "Error" "Internal" (Some 500))).1
  = (ClientApi.resolved 7, ClientApi.mkState true ∅)
  ∧ (after (ClientApi.mkJsError "Error" "Already bid on this gig" (Some 400))).1
    = (ClientApi.rejected
         (ClientApi.mkJsError "Error" "Already bid on this gig" (Some 400)),
       ClientApi.mkState false ∅)
  ∧ (after (ClientApi.mkJsError "Error" "Unexpected token" None)).1
    = (ClientApi.resolved 7, ClientApi.mkState false ∅).
Proof. repeat split. Qed.

(** A failed [fetch] (a [TypeError]) on the first [logout]; the two calls
    that follow never reach the network. *)
Lemma circuit_breaker_latches_witness :
  let tripped :=
    (ClientApi.run_call
       (ClientApi.logout
          (ClientApi.rejected
             (ClientApi.mkJsError "TypeError" "Failed to fetch" None)))
       (ClientApi.initial ∅)).1 in
  let later :=
    [ClientApi.logout (ClientApi.resolved tt);
     ClientApi.logout (ClientApi.resolved tt)] in
  ClientApi.isBackendOffline tripped = true
  ∧ ClientApi.isBackendOffline (ClientApi.run_calls later tripped).1 = true
  ∧ (ClientApi.run_calls later tripped).2
    = [ClientApi.call_fallbackFn; ClientApi.call_fallbackFn].
Proof.
  intros tripped later.
  split; [reflexivity|].
  apply (circuit_breaker_latches later tripped). reflexivity.
Defined.

(** ** Two hires on one gig, one after the other *)

(** X13. When the owner's hire of a bid of a gig has succeeded, a following hire
    of any bid of that gig by the owner is answered ['Gig is not open'] and
    changes nothing: the store keeps its single hired bid. *)
Lemma second_hire_rejected fault io user bidId1 bidId2 db bid1 bid2 :
  fault Bid_findById_op = None → fault Gig_findById_op = None →
  bids db !! bidId1 = Some bid1 → bids db !! bidId2 = Some bid2 →
  Bid.gigId bid1 = Bid.gigId bid2 →
  (statusCode (SocketServer.patch_api_bids_hire fault io user bidId1 db).1.1
   = 200 →
   let db1 := (SocketServer.patch_api_bids_hire fault io user bidId1 db).1.2 in
   SocketServer.patch_api_bids_hire fault io user bidId2 db1
   = (mkRes 400 (message_of "Gig is not open"), db1, []))
  ∧ (statusCode
       (RestServer.post_api_hire fault user (Bid.gigId bid1) bidId1 db).1
     = 200 →
     let db1 :=
       (RestServer.post_api_hire fault user (Bid.gigId bid1) bidId1 db).2 in
     RestServer.post_api_hire fault user (Bid.gigId bid1) bidId2 db1
     = (mkRes 400 (message_of "Gig is not open"), db1)).
Proof.
  intros Hfb Hf Hb1 Hb2 Hsame.
  assert (Hlater : ∀ gig,
             ∃ bid2', bids (hire_writes (Bid.gigId bid1) bidId1 gig db) !! bidId2
                      = Some bid2' ∧ Bid.gigId bid2' = Bid.gigId bid1).
  { intros gig. destruct (decide (bidId2 = bidId1)) as [->|Hne].
    - rewrite hire_writes_target, Hb1. simpl. eauto.
    - rewrite hire_writes_other_bid, Hb2 by done. simpl.
      case_decide; eauto. }
  split.
  - destruct (patch_api_bids_hire_cases fault io user bidId1 db)
      as [(bid & gig & Hbid & Hgig & Hown & _ & ->)|[(msg & ->)|(_ & ->)]]; simpl;
      [|done..].
    intros _. rewrite Hb1 in Hbid. injection Hbid as <-.
    destruct (Hlater gig) as (bid2' & Hb2' & Hg2').
    apply (patch_hire_not_open fault io user bidId2 _ bid2'
             (Gig.set_status Gig.assigned gig)); try done.
    rewrite Hg2'. apply hire_writes_gig.
  - destruct (post_api_hire_cases fault user (Bid.gigId bid1) bidId1 db)
      as [(gig & Hgig & Hown & _ & ->)|[(msg & ->)|(_ & ->)]]; simpl; [|done..].
    intros _.
    apply (post_hire_not_open fault user (Bid.gigId bid1) bidId2 _
             (Gig.set_status Gig.assigned gig)); try done.
    apply hire_writes_gig.
Qed.

(** ** Who receives the notification *)

(** A socket that joined the room of a user id receives what is emitted to
    that room. *)
Lemma joined_socket_is_notified socket userId io event data :
  userId ≠ "" →
  mkPacket socket event data
  ∈ SocketServer.io_to_emit (SocketServer.on_join socket userId io)
      userId event data.
Proof.
  intros Hne. unfold SocketServer.io_to_emit, SocketServer.on_join.
  destruct (String.eqb userId "") eqn:Heq.
  - by apply String.eqb_eq in Heq.
  - apply list_elem_of_fmap. exists socket. split; [done|].
    destruct (decide _) as [Hin|_]; [done|].
    rewrite lookup_insert_eq. simpl. apply elem_of_cons. by left.
Qed.

(** * More of the servers *)

(** ** What each route answers and writes *)

Lemma Bid_findOne_none fault gigId freelancerId db db' :
  Bid_findOne fault gigId freelancerId db = (inr None, db') →
  db' = db
  ∧ ∀ k b, bids db !! k = Some b →
           Bid.gigId b = gigId → Bid.freelancerId b = freelancerId → False.
Proof.
  unfold Bid_findOne, db_call. destruct (fault Bid_findOne_op); [done|].
  destruct (filter _ (map_to_list (bids db))) as [|found rest] eqn:Hfilter;
    [|done].
  intros [= <-]. split; [done|]. intros k b Hk Hg Hfr.
  assert (Hin : (k, b) ∈ filter
                  (λ kb : string * Bid.t,
                     Bid.gigId kb.2 = gigId
                     ∧ Bid.freelancerId kb.2 = freelancerId)
                  (map_to_list (bids db))).
  { apply list_elem_of_filter. split; [done|]. by apply elem_of_map_to_list. }
  rewrite Hfilter in Hin. by apply not_elem_of_nil in Hin.
Qed.

(** [POST /api/bids] either answers an error and writes nothing, or answers
    200 with the new pending bid, stored under an id that was free, for a
    (gig, freelancer) pair that had no bid. *)
Lemma post_api_bids_cases fault user bbody _id now db :
  let bid := Bid.mk (body_gigId bbody) (user_id user) (user_name user)
               (body_message bbody) (body_price bbody) Bid.pending now in
  (∃ code msg, code ≠ 200
               ∧ post_api_bids fault user bbody _id now db
                 = (mkRes code (message_of msg), db))
  ∨ (bids db !! _id = None
     ∧ (∀ k b, bids db !! k = Some b → Bid.gigId b = body_gigId bbody →
               Bid.freelancerId b = user_id user → False)
     ∧ post_api_bids fault user bbody _id now db
       = (mkRes 200 (bid_doc _id bid),
          mkStore (gigs db) (<[_id := bid]> (bids db)))).
Proof.
  intros bid. unfold post_api_bids, post_api_bids_try, bind.
  destruct (Bid_findOne fault (body_gigId bbody) (user_id user) db)
    as [[e|[found|]] db1] eqn:Hfind.
  - left. exists 500, (error_message e). split; [done|].
    revert Hfind. unfold Bid_findOne, db_call.
    destruct (fault Bid_findOne_op); [|done]. by intros [= <- <-].
  - left. exists 400, "Already bid on this gig". split; [done|].
    revert Hfind. unfold Bid_findOne, db_call.
    destruct (fault Bid_findOne_op); [done|]. by intros [= _ <-].
  - apply Bid_findOne_none in Hfind as [-> Hnone].
    unfold Bid_create, ret.
    destruct (bidSchema _) eqn:Hvalid;
      [|left; eexists 500, _; by split].
    destruct (fault Bid_create_op) as [e|];
      [left; exists 500, (error_message e); by split|].
    destruct (bids db !! _id) eqn:Hid;
      [left; exists 500, "E11000 duplicate key error"; by split|].
    right. by repeat split.
Qed.

(** [POST /api/gigs] either answers 500 and writes nothing, or answers 200
    with the new open gig of the caller, stored under an id that was free. *)
Lemma post_api_gigs_cases fault user gbody _id now db :
  let gig := Gig.mk (body_title gbody) (body_description gbody)
               (body_budget gbody) (user_id user) (user_name user)
               Gig.open now in
  (∃ msg, post_api_gigs fault user gbody _id now db
          = (mkRes 500 (message_of msg), db))
  ∨ (gigs db !! _id = None
     ∧ post_api_gigs fault user gbody _id now db
       = (mkRes 200 (gig_doc _id gig),
          mkStore (<[_id := gig]> (gigs db)) (bids db))).
Proof.
  intros gig. unfold post_api_gigs, Gig_create.
  destruct (gigSchema _) eqn:Hvalid; [|left; by eexists].
  destruct (fault Gig_create_op) as [e|]; [left; by eexists|].
  destruct (gigs db !! _id) eqn:Hid; [left; by eexists|].
  by right.
Qed.

Lemma store_evolves_refl db : store_evolves db db.
Proof.
  split.
  - intros id g Hg. by left.
  - intros k b Hk. exists (Bid.status b). by destruct b.
Qed.

Lemma hire_writes_evolves gigId bidId gig db :
  gigs db !! gigId = Some gig →
  store_evolves db (hire_writes gigId bidId gig db).
Proof.
  intros Hgig. split.
  - intros id g Hg. destruct (decide (id = gigId)) as [->|Hne].
    + right. rewrite hire_writes_gig. congruence.
    + left. by rewrite hire_writes_other_gig.
  - intros k b Hk. destruct (decide (k = bidId)) as [->|Hne].
    + exists Bid.hired. by rewrite hire_writes_target, Hk.
    + rewrite hire_writes_other_bid, Hk by done. simpl.
      case_decide; [by exists Bid.rejected|].
      exists (Bid.status b). by destruct b.
Qed.

(** Every request commits one of the four kinds of writes; a hire of the
    server with [PATCH /api/bids/:bidId/hire] is on the gig of its bid. *)
Lemma rest_handle_step fault regex_i req db :
  store_step db (RestServer.handle fault regex_i req db).2.
Proof.
  destruct (reads_leave_store fault regex_i db) as (R1 & R2 & R3 & _).
  destruct req as [search ownerId|id|user gbody _id now|gigId freelancerId
                   |user bbody _id now|user gigId bidId]; simpl.
  - rewrite R1. constructor.
  - rewrite R2. constructor.
  - destruct (post_api_gigs_cases fault user gbody _id now db)
      as [(msg & ->)|(Hfresh & ->)]; simpl; by constructor.
  - rewrite R3. constructor.
  - destruct (post_api_bids_cases fault user bbody _id now db)
      as [(code & msg & _ & ->)|(Hfresh & Hpair & ->)]; simpl;
      by constructor.
  - destruct (post_api_hire_cases fault user gigId bidId db)
      as [(gig & Hgig & _ & Hopen & ->)|[(msg & ->)|(_ & ->)]]; simpl; by constructor.
Qed.

Lemma socket_handle_step fault regex_i io req db :
  let db' := (SocketServer.handle fault regex_i io req db).2 in
  db' = db
  ∨ (∃ _id gig, gigs db !! _id = None ∧ Gig.status gig = Gig.open
                ∧ db' = mkStore (<[_id := gig]> (gigs db)) (bids db))
  ∨ (∃ _id bid, bids db !! _id = None ∧ Bid.status bid = Bid.pending
                ∧ (∀ k b, bids db !! k = Some b →
                          Bid.gigId b = Bid.gigId bid →
                          Bid.freelancerId b = Bid.freelancerId bid → False)
                ∧ db' = mkStore (gigs db) (<[_id := bid]> (bids db)))
  ∨ (∃ bidId bid gig, bids db !! bidId = Some bid
                      ∧ gigs db !! Bid.gigId bid = Some gig
                      ∧ Gig.status gig = Gig.open
                      ∧ db' = hire_writes (Bid.gigId bid) bidId gig db).
Proof.
  destruct (reads_leave_store fault regex_i db) as (R1 & R2 & _ & R4 & R5).
  destruct req as [search ownerId|id|user gbody _id now|freelancerId|gigId
                   |user bbody _id now|user bidId]; simpl.
  - left. by rewrite R1.
  - left. by rewrite R2.
  - destruct (post_api_gigs_cases fault user gbody _id now db)
      as [(msg & ->)|(Hfresh & ->)]; simpl; [by left|].
    right. left. eexists _id, _.
    split; [done|]. split; [|reflexivity]. reflexivity.
  - left. by rewrite R4.
  - left. by rewrite R5.
  - destruct (post_api_bids_cases fault user bbody _id now db)
      as [(code & msg & _ & ->)|(Hfresh & Hpair & ->)]; simpl; [by left|].
    right. right. left. eexists _id, _.
    split; [done|]. split; [|split; [|reflexivity]]; [reflexivity|done].
  - destruct (patch_api_bids_hire_cases fault io user bidId db)
      as [(bid & gig & Hbid & Hgig & _ & Hopen & ->)|[(msg & ->)|(_ & ->)]]; simpl;
      [|by left..].
    right. right. right. by exists bidId, bid, gig.
Qed.

Lemma socket_handle_store_step fault regex_i io req db :
  store_step db (SocketServer.handle fault regex_i io req db).2.
Proof.
  destruct (socket_handle_step fault regex_i io req db)
    as [->|[(_id & gig & ? & ? & ->)|[(_id & bid & ? & ? & ? & ->)
       |(bidId & bid & gig & ? & ? & ? & ->)]]]; by constructor.
Qed.

(** ** Stored documents are never removed or rewritten *)

Lemma store_step_evolves db db' : store_step db db' → store_evolves db db'.
Proof.
  destruct (store_evolves_refl db) as [Hgigs Hbids].
  intros [|_id gig Hfresh _|_id bid Hfresh _ _|gigId bidId gig Hgig _].
  - by split.
  - split; [|exact Hbids].
    intros id g Hg. left. simpl. rewrite lookup_insert_ne; [done|congruence].
  - split; [exact Hgigs|].
    intros k b Hk. exists (Bid.status b). simpl.
    rewrite lookup_insert_ne; [by destruct b|congruence].
  - by apply hire_writes_evolves.
Qed.

Lemma store_evolves_trans db1 db2 db3 :
  store_evolves db1 db2 → store_evolves db2 db3 → store_evolves db1 db3.
Proof.
  intros [Hg12 Hb12] [Hg23 Hb23]. split.
  - intros id g Hg. destruct (Hg12 id g Hg) as [H2|H2];
      destruct (Hg23 id _ H2) as [H3|H3]; rewrite H3;
      first [by left|by right].
  - intros k b Hk. destruct (Hb12 k b Hk) as (s & H2).
    destruct (Hb23 k _ H2) as (s' & H3). exists s'. by rewrite H3.
Qed.

(** X3. Whatever requests the servers answer, in whatever order and with
    whatever driver failures, a stored gig stays in the store with every
    field but its status unchanged, and its status only ever goes from open
    to assigned; a stored bid stays in the store with every field but its
    status unchanged (its gig, its freelancer and its price among them). *)
Theorem documents_persist fault regex_i io db :
  (∀ reqs, store_evolves db (run_rest_server fault regex_i reqs db))
  ∧ (∀ reqs, store_evolves db (run_socket_server fault regex_i io reqs db)).
Proof.
  split; intros reqs; revert db;
    induction reqs as [|req reqs IH]; intros db;
    try apply store_evolves_refl; simpl.
  - eapply store_evolves_trans; [|apply IH].
    apply store_step_evolves, rest_handle_step.
  - eapply store_evolves_trans; [|apply IH].
    apply store_step_evolves, socket_handle_store_step.
Qed.

(** ** Invariants of every reachable store *)

Lemma store_step_one_bid_per_pair db db' :
  store_step db db' → one_bid_per_pair db → one_bid_per_pair db'.
Proof.
  intros [|_id gig _ _|_id bid Hfresh _ Hpair|gigId bidId gig Hgig _] Hone;
    try done.
  - intros k1 k2 c1 c2. simpl. rewrite !lookup_insert_Some.
    intros [[<- <-]|[Hne1 H1]] [[<- <-]|[Hne2 H2]] Hg Hf; try done.
    + by destruct (Hpair k2 c2 H2).
    + by destruct (Hpair k1 c1 H1).
    + by apply (Hone k1 k2 c1 c2).
  - destruct (hire_writes_evolves gigId bidId gig db Hgig) as [_ Hbids].
    intros k1 k2 c1 c2 H1 H2 Hg Hf.
    destruct (bids db !! k1) as [a1|] eqn:Ha1; cycle 1.
    { destruct (decide (k1 = bidId)) as [->|Hne].
      - by rewrite hire_writes_target, Ha1 in H1.
      - by rewrite hire_writes_other_bid, Ha1 in H1. }
    destruct (bids db !! k2) as [a2|] eqn:Ha2; cycle 1.
    { destruct (decide (k2 = bidId)) as [->|Hne].
      - by rewrite hire_writes_target, Ha2 in H2.
      - by rewrite hire_writes_other_bid, Ha2 in H2. }
    destruct (Hbids k1 a1 Ha1) as (s1 & E1).
    destruct (Hbids k2 a2 Ha2) as (s2 & E2).
    rewrite E1 in H1. rewrite E2 in H2.
    injection H1 as <-. injection H2 as <-.
    by apply (Hone k1 k2 a1 a2).
Qed.

(** X1. The store of a fresh deployment of the server with
    [PATCH /api/bids/:bidId/hire] satisfies, after any sequence of requests
    and whatever driver failures: a gig has at most one hired bid, a hired
    bid is a bid of an assigned gig, and a freelancer has at most one bid on
    a gig. *)
Theorem socket_server_reachable_invariants fault regex_i io reqs :
  let db := run_socket_server fault regex_i io reqs empty_store in
  hire_invariant db ∧ one_bid_per_pair db.
Proof.
  assert (Hgen : ∀ db, hire_invariant db ∧ one_bid_per_pair db →
            hire_invariant (run_socket_server fault regex_i io reqs db)
            ∧ one_bid_per_pair (run_socket_server fault regex_i io reqs db)).
  { induction reqs as [|req reqs IH]; intros db [Hinv Hone]; [done|].
    simpl. apply IH. split.
    - by apply socket_server_keeps_invariant.
    - eapply store_step_one_bid_per_pair; [|done].
      apply socket_handle_store_step. }
  apply Hgen. split.
  - apply no_hired_bid_invariant. intros k b Hk. simpl in Hk.
    by rewrite lookup_empty in Hk.
  - intros k1 k2 c1 c2 H1. simpl in H1. by rewrite lookup_empty in H1.
Qed.

(** X2. On the server with [POST /api/hire] too, whatever the requests, a
    freelancer never gets a second bid on a gig. *)
Theorem one_bid_per_pair_kept fault regex_i io db :
  one_bid_per_pair db →
  (∀ reqs, one_bid_per_pair (run_rest_server fault regex_i reqs db))
  ∧ (∀ reqs, one_bid_per_pair (run_socket_server fault regex_i io reqs db)).
Proof.
  intros Hone. split; intros reqs; revert db Hone;
    induction reqs as [|req reqs IH]; intros db Hone; try done;
    simpl; apply IH; eapply store_step_one_bid_per_pair; try done.
  - apply rest_handle_step.
  - apply socket_handle_store_step.
Qed.

(** ** A hire is final *)

Lemma assigned_gig_fixed g :
  Gig.status g = Gig.assigned → Gig.set_status Gig.assigned g = g.
Proof. destruct g. simpl. by intros ->. Qed.

Lemma socket_handle_assigned_gig fault regex_i io req db gigId g :
  gigs db !! gigId = Some g → Gig.status g = Gig.assigned →
  let db' := (SocketServer.handle fault regex_i io req db).2 in
  gigs db' !! gigId = Some g
  ∧ ∀ k b, bids db !! k = Some b → Bid.gigId b = gigId →
           bids db' !! k = Some b.
Proof.
  intros Hg Hst.
  destruct (socket_handle_step fault regex_i io req db)
    as [->|[(_id & gig & Hfresh & _ & ->)|[(_id & bid & Hfresh & _ & _ & ->)
       |(bidId & bid & gig & Hbid & Hgig & Hopen & ->)]]]; simpl.
  - done.
  - split; [|done]. rewrite lookup_insert_ne; [done|congruence].
  - split; [done|]. intros k b Hk _.
    rewrite lookup_insert_ne; [done|congruence].
  - assert (Hne : gigId ≠ Bid.gigId bid) by (intros ->; congruence).
    split; [by rewrite lookup_insert_ne|].
    intros k b Hk Hgk.
    assert (Hkne : k ≠ bidId) by (intros ->; congruence).
    pose proof (hire_writes_other_bid (Bid.gigId bid) bidId gig db k Hkne)
      as Hlook.
    simpl in Hlook. rewrite Hlook, Hk. simpl.
    rewrite decide_False; [done|congruence].
Qed.

(** X4. On the server with [PATCH /api/bids/:bidId/hire], once a gig is assigned
    no later request changes it or any of the bids it has: the gig is never
    reopened, its hired bid stays hired and its rejected bids stay
    rejected. *)
Theorem assigned_gig_is_final fault regex_i io reqs db gigId g :
  gigs db !! gigId = Some g → Gig.status g = Gig.assigned →
  let db' := run_socket_server fault regex_i io reqs db in
  gigs db' !! gigId = Some g
  ∧ ∀ k b, bids db !! k = Some b → Bid.gigId b = gigId →
           bids db' !! k = Some b.
Proof.
  revert db. induction reqs as [|req reqs IH]; intros db Hg Hst; [done|].
  destruct (socket_handle_assigned_gig fault regex_i io req db gigId g Hg Hst)
    as [Hg1 Hb1].
  destruct (IH _ Hg1 Hst) as [Hg2 Hb2].
  split; [exact Hg2|].
  intros k b Hk Hgk. apply Hb2; [|done]. by apply Hb1.
Qed.

Lemma assigned_gig_is_final_witness :
  let later :=
    [SocketServer.PATCH_api_bids_hire alice "b2";
     SocketServer.POST_api_bids (mkUser "F9" "Fay") (mkBidBody "G1" "late" 80)
       "b9" 20;
     SocketServer.PATCH_api_bids_hire alice "b9"] in
  let db' := run_socket_server no_fault (λ _ _, true) ∅ later market_assigned in
  gigs db' !! "G1" = Some (Gig.set_status Gig.assigned G1)
  ∧ bids db' !! "b1" = Some (Bid.set_status Bid.hired b1)
  ∧ bids db' !! "b2" = Some (Bid.set_status Bid.rejected b2).
Proof.
  intros later db'.
  destruct (assigned_gig_is_final no_fault (λ _ _, true) ∅ later
              market_assigned "G1" (Gig.set_status Gig.assigned G1)
              eq_refl eq_refl) as [Hg Hb].
  split; [exact Hg|].
  split; apply Hb; reflexivity.
Defined.

(** ** Only a request answered 200 writes *)

(** X5. Every request that is not answered 200 (a 400, a 404 or a 500) leaves
    the store exactly as it was, on both servers. *)
Theorem store_written_only_on_200 fault regex_i io db :
  (∀ req, statusCode (RestServer.handle fault regex_i req db).1 ≠ 200 →
          (RestServer.handle fault regex_i req db).2 = db)
  ∧ (∀ req, statusCode (SocketServer.handle fault regex_i io req db).1 ≠ 200 →
            (SocketServer.handle fault regex_i io req db).2 = db).
Proof.
  destruct (reads_leave_store fault regex_i db) as (R1 & R2 & R3 & R4 & R5).
  split.
  - intros [search ownerId|id|user gbody _id now|gigId freelancerId
            |user bbody _id now|user gigId bidId]; simpl; try done.
    + destruct (post_api_gigs_cases fault user gbody _id now db)
        as [(msg & ->)|(Hfresh & ->)]; simpl; done.
    + destruct (post_api_bids_cases fault user bbody _id now db)
        as [(code & msg & _ & ->)|(Hfresh & Hpair & ->)]; simpl; done.
    + destruct (post_api_hire_cases fault user gigId bidId db)
        as [(gig & _ & _ & _ & ->)|[(msg & ->)|(_ & ->)]]; simpl; done.
  - intros [search ownerId|id|user gbody _id now|freelancerId|gigId
            |user bbody _id now|user bidId]; simpl; try done.
    + destruct (post_api_gigs_cases fault user gbody _id now db)
        as [(msg & ->)|(Hfresh & ->)]; simpl; done.
    + destruct (post_api_bids_cases fault user bbody _id now db)
        as [(code & msg & _ & ->)|(Hfresh & Hpair & ->)]; simpl; done.
    + destruct (patch_api_bids_hire_cases fault io user bidId db)
        as [(bid & gig & _ & _ & _ & _ & ->)|[(msg & ->)|(_ & ->)]]; simpl; done.
Qed.

Lemma store_written_only_on_200_witness :
  (RestServer.handle create_rejects (λ _ _, true)
     (RestServer.POST_api_bids (mkUser "F9" "Fay") (mkBidBody "G1" "hello" 80)
        "b9" 20) market).2 = market
  ∧ (SocketServer.handle create_rejects (λ _ _, true) ∅
       (SocketServer.GET_api_gigs_id "G7") market).2 = market.
Proof.
  destruct (store_written_only_on_200 create_rejects (λ _ _, true) ∅ market)
    as [Hrest Hsocket].
  split.
  - apply Hrest. vm_compute. discriminate.
  - apply Hsocket. vm_compute. discriminate.
Defined.

(** ** When a hire succeeds *)

(** X6. With a driver that answers, [PATCH /api/bids/:bidId/hire] succeeds
    exactly when the id names a bid, the bid's gig exists, the caller owns it
    and it is open; [POST /api/hire] succeeds exactly when the gig of the
    request exists, the caller owns it and it is open, whatever the bid id. *)
Theorem hire_succeeds_iff io user gigId bidId db :
  (statusCode (SocketServer.patch_api_bids_hire no_fault io user bidId db).1.1
   = 200
   ↔ ∃ bid gig, bids db !! bidId = Some bid
                ∧ gigs db !! Bid.gigId bid = Some gig
                ∧ Gig.ownerId gig = user_id user
                ∧ Gig.status gig = Gig.open)
  ∧ (statusCode (RestServer.post_api_hire no_fault user gigId bidId db).1 = 200
     ↔ ∃ gig, gigs db !! gigId = Some gig
              ∧ Gig.ownerId gig = user_id user
              ∧ Gig.status gig = Gig.open).
Proof.
  split; split.
  - destruct (patch_api_bids_hire_cases no_fault io user bidId db)
      as [(bid & gig & Hbid & Hgig & Hown & Hopen & ->)|[(msg & ->)|(_ & ->)]]; simpl;
      [|done..].
    intros _. by exists bid, gig.
  - intros (bid & gig & Hbid & Hgig & Hown & Hopen).
    unfold SocketServer.patch_api_bids_hire,
      SocketServer.patch_api_bids_hire_try.
    unfold_driver. simpl. rewrite Hbid. simpl. rewrite Hgig. simpl.
    rewrite decide_False by (intros Hne; by apply Hne).
    rewrite decide_False by (intros Hne; by apply Hne). done.
  - destruct (post_api_hire_cases no_fault user gigId bidId db)
      as [(gig & Hgig & Hown & Hopen & ->)|[(msg & ->)|(_ & ->)]]; simpl; [|done..].
    intros _. by exists gig.
  - intros (gig & Hgig & Hown & Hopen).
    unfold RestServer.post_api_hire, RestServer.post_api_hire_try.
    unfold_driver. simpl. rewrite Hgig. simpl.
    rewrite decide_False by (intros Hne; by apply Hne).
    rewrite decide_False by (intros Hne; by apply Hne). done.
Qed.

(** ** Creating a bid *)


(** A bid on a gig that is not in the store is accepted. *)
Example bid_on_missing_gig :
  gigs market !! "G404" = None
  ∧ statusCode
      (post_api_bids no_fault (mkUser "F9" "Fay") (mkBidBody "G404" "hello" 80)
         "b9" 20 market).1 = 200.
Proof. split; reflexivity. Qed.

(** ** The listings *)

Lemma Bid_find_lists fault query db :
  fault Bid_find_op = None →
  ∃ l, Bid_find fault query db = (inr l, db) ∧ NoDup l
       ∧ ∀ k b, (k, b) ∈ l ↔ bids db !! k = Some b ∧ query b = true.
Proof.
  intros Hf. unfold Bid_find, db_call. rewrite Hf.
  eexists. split; [done|]. split.
  - apply NoDup_filter, NoDup_map_to_list.
  - intros k b. rewrite list_elem_of_filter, elem_of_map_to_list. simpl. tauto.
Qed.

Lemma get_bids_response fault query db :
  fault Bid_find_op = None →
  ∃ l, (match Bid_find fault query db with
        | (inr bids, db') => (res_json (bid_docs bids), db')
        | (inl error, db') =>
          (res_status_json 500 (message_of (error_message error)), db')
        end).1 = mkRes 200 (bid_docs l)
       ∧ NoDup l
       ∧ ∀ k b, (k, b) ∈ l ↔ bids db !! k = Some b ∧ query b = true.
Proof.
  intros Hf. destruct (Bid_find_lists fault query db Hf) as (l & -> & Hnd & Hl).
  by exists l.
Qed.

Lemma truthy_Some s : truthy (Some s) = true ↔ s ≠ "".
Proof.
  simpl. destruct (String.eqb s "") eqn:Heq; simpl.
  - apply String.eqb_eq in Heq. split; [done|]. by intros [].
  - apply String.eqb_neq in Heq. by split.
Qed.

(** X8. When the driver answers, [GET /api/bids?freelancerId=F] lists exactly the
    bids of [F], each once, and lists every bid of the store when the
    parameter is absent or empty; [GET /api/bids/:gigId] lists exactly the
    bids of the gig; on the other server [GET /api/bids] filters by each of
    [gigId] and [freelancerId] that is given and not empty. *)
Theorem bid_listings fault db :
  fault Bid_find_op = None →
  (∀ F, F ≠ "" →
        lists_bids (SocketServer.get_api_bids fault (Some F) db).1 db
          (λ b, Bid.freelancerId b = F))
  ∧ lists_bids (SocketServer.get_api_bids fault None db).1 db (λ _, True)
  ∧ lists_bids (SocketServer.get_api_bids fault (Some "") db).1 db (λ _, True)
  ∧ (∀ gigId,
       lists_bids (SocketServer.get_api_bids_gigId fault gigId db).1 db
         (λ b, Bid.gigId b = gigId))
  ∧ (∀ gigId freelancerId,
       lists_bids (RestServer.get_api_bids fault gigId freelancerId db).1 db
         (λ b, (truthy gigId = true → Some (Bid.gigId b) = gigId)
               ∧ (truthy freelancerId = true →
                  Some (Bid.freelancerId b) = freelancerId))).
Proof.
  intros Hf.
  assert (Hlist : ∀ query (P : Bid.t → Prop),
            (∀ b, query b = true ↔ P b) →
            lists_bids
              (match Bid_find fault query db with
               | (inr bids, db') => (res_json (bid_docs bids), db')
               | (inl error, db') =>
                 (res_status_json 500 (message_of (error_message error)), db')
               end).1 db P).
  { intros query P HP.
    destruct (get_bids_response fault query db Hf) as (l & Hres & Hnd & Hl).
    exists l. split; [done|]. split; [done|].
    intros k b. rewrite Hl. by rewrite HP. }
  repeat split.
  - intros F HF. apply Hlist. intros b.
    apply truthy_Some in HF. rewrite HF, bool_decide_eq_true.
    split; congruence.
  - by apply Hlist.
  - by apply Hlist.
  - intros gigId. apply Hlist. intros b. by rewrite bool_decide_eq_true.
  - intros gigId freelancerId. apply Hlist. intros b.
    rewrite andb_true_iff.
    destruct (truthy gigId), (truthy freelancerId);
      rewrite ?bool_decide_eq_true; intuition congruence.
Qed.

Lemma bid_listings_witness :
  lists_bids (SocketServer.get_api_bids no_fault (Some "F1") market).1 market
    (λ b, Bid.freelancerId b = "F1")
  ∧ lists_bids (SocketServer.get_api_bids_gigId no_fault "G1" market).1 market
      (λ b, Bid.gigId b = "G1").
Proof.
  destruct (bid_listings no_fault market eq_refl) as (HF & _ & _ & HG & _).
  split; [apply HF; discriminate|apply HG].
Defined.

(** X9. A hire that has succeeded is what the hired freelancer reads: when the
    driver answers, the listing of the freelancer's bids, fetched after the
    hire, shows the bid with status hired, whether or not a notification
    reached anybody. *)
Theorem hired_bid_is_listed fault io user gigId bidId db bid :
  fault Bid_find_op = None →
  bids db !! bidId = Some bid →
  (statusCode (SocketServer.patch_api_bids_hire fault io user bidId db).1.1
   = 200 →
   ∃ l, (SocketServer.get_api_bids fault (Some (Bid.freelancerId bid))
           (SocketServer.patch_api_bids_hire fault io user bidId db).1.2).1
        = mkRes 200 (bid_docs l)
        ∧ (bidId, Bid.set_status Bid.hired bid) ∈ l)
  ∧ (statusCode (RestServer.post_api_hire fault user gigId bidId db).1 = 200 →
     ∃ l, (RestServer.get_api_bids fault None (Some (Bid.freelancerId bid))
             (RestServer.post_api_hire fault user gigId bidId db).2).1
          = mkRes 200 (bid_docs l)
          ∧ (bidId, Bid.set_status Bid.hired bid) ∈ l).
Proof.
  intros Hf Hbid. split.
  - destruct (patch_api_bids_hire_cases fault io user bidId db)
      as [(bid' & gig & Hbid' & _ & _ & _ & ->)|[(msg & ->)|(_ & ->)]]; simpl; [|done..].
    intros _. unfold SocketServer.get_api_bids. cbv zeta.
    edestruct (get_bids_response fault) as (l & Hres & _ & Hl); [exact Hf|].
    exists l. split; [apply Hres|]. apply Hl. split.
    + by rewrite hire_writes_target, Hbid.
    + destruct (truthy _); [|done]. by apply bool_decide_eq_true.
  - destruct (post_api_hire_cases fault user gigId bidId db)
      as [(gig & _ & _ & _ & ->)|[(msg & ->)|(_ & ->)]]; simpl; [|done..].
    intros _. unfold RestServer.get_api_bids. cbv zeta.
    edestruct (get_bids_response fault) as (l & Hres & _ & Hl); [exact Hf|].
    exists l. split; [apply Hres|]. apply Hl. split.
    + by rewrite hire_writes_target, Hbid.
    + simpl. destruct (negb _); [|done]. by apply bool_decide_eq_true.
Qed.

Lemma hired_bid_is_listed_witness :
  ∃ l, (SocketServer.get_api_bids no_fault (Some "F1")
          (SocketServer.patch_api_bids_hire no_fault ∅ alice "b1" market).1.2).1
       = mkRes 200 (bid_docs l)
       ∧ ("b1", Bid.set_status Bid.hired b1) ∈ l.
Proof.
  destruct (hired_bid_is_listed no_fault ∅ alice "G1" "b1" market b1
              eq_refl eq_refl) as [Hsocket _].
  apply Hsocket. reflexivity.
Defined.

Lemma newest_first_total : Total newest_first.
Proof. intros a b. unfold newest_first. lia. Qed.

Lemma get_gigs_response fault query db :
  fault Gig_find_op = None →
  ∃ l, (match Gig_find_sorted fault query db with
        | (inr gigs, db') => (res_json (gig_docs gigs), db')
        | (inl error, db') =>
          (res_status_json 500 (message_of (error_message error)), db')
        end).1 = mkRes 200 (gig_docs l)
       ∧ NoDup l ∧ Sorted newest_first l
       ∧ ∀ k g, (k, g) ∈ l ↔ gigs db !! k = Some g ∧ query g = true.
Proof.
  intros Hf. unfold Gig_find_sorted, db_call. rewrite Hf.
  eexists. split; [done|]. split; [|split].
  - rewrite merge_sort_Permutation. apply NoDup_filter, NoDup_map_to_list.
  - apply Sorted_merge_sort, newest_first_total.
  - intros k g. rewrite merge_sort_Permutation.
    rewrite list_elem_of_filter, elem_of_map_to_list. simpl. tauto.
Qed.

(** X10. When the driver answers, [GET /api/gigs] lists, each once and newest
    first, exactly the gigs of the owner given by [ownerId] (open or
    assigned) or, when [ownerId] is absent or empty, exactly the open gigs;
    a [search] that is not empty keeps those whose title the pattern
    matches. *)
Theorem gig_listing fault regex_i search ownerId db :
  fault Gig_find_op = None →
  lists_gigs (get_api_gigs fault regex_i search ownerId db).1 db
    (λ g, (if truthy ownerId then Some (Gig.ownerId g) = ownerId
           else Gig.status g = Gig.open)
          ∧ (∀ pattern, search = Some pattern → pattern ≠ "" →
                        regex_i pattern (Gig.title g) = true)).
Proof.
  intros Hf. unfold get_api_gigs. cbv zeta.
  edestruct (get_gigs_response fault) as (l & Hres & Hnd & Hsorted & Hl);
    [exact Hf|].
  exists l. split; [apply Hres|]. split; [done|]. split; [done|].
  intros k g. rewrite Hl. rewrite andb_true_iff.
  assert (Howner : (if truthy ownerId
                    then bool_decide (Some (Gig.ownerId g) = ownerId)
                    else bool_decide (Gig.status g = Gig.open)) = true
                   ↔ (if truthy ownerId then Some (Gig.ownerId g) = ownerId
                      else Gig.status g = Gig.open)).
  { destruct (truthy ownerId); by rewrite bool_decide_eq_true. }
  assert (Hsearch : match search with
                    | Some pattern =>
                      if truthy search then regex_i pattern (Gig.title g)
                      else true
                    | None => true
                    end = true
                    ↔ ∀ pattern, search = Some pattern → pattern ≠ "" →
                                 regex_i pattern (Gig.title g) = true).
  { destruct search as [pattern|]; [|by split].
    destruct (truthy (Some pattern)) eqn:Ht.
    - apply truthy_Some in Ht. split.
      + by intros Hm p [= <-] _.
      + intros Hm. by apply Hm.
    - split; [|done]. intros _ p [= <-] Hp.
      apply truthy_Some in Hp. congruence. }
  rewrite Howner, Hsearch. tauto.
Qed.

Lemma gig_listing_witness :
  ∃ l, (get_api_gigs no_fault (λ _ _, true) None None market_assigned).1
       = mkRes 200 (gig_docs l)
       ∧ Sorted newest_first l
       ∧ ("G2", G2) ∈ l
       ∧ ("G1", Gig.set_status Gig.assigned G1) ∉ l.
Proof.
  destruct (gig_listing no_fault (λ _ _, true) None None market_assigned
              eq_refl) as (l & Hres & _ & Hsorted & Hl).
  exists l. split; [exact Hres|]. split; [exact Hsorted|]. split.
  - apply Hl. by repeat split.
  - intros Hin. apply Hl in Hin as (_ & Hopen & _). discriminate.
Defined.

(** X11. A gig that has been assigned is no longer in the listing of open gigs,
    and is in the listing of its owner's gigs, as assigned (both servers,
    when the driver answers the listing). *)
Theorem hired_gig_leaves_open_listing fault regex_i io user gigId bidId db :
  fault Gig_find_op = None → user_id user ≠ "" →
  (statusCode (RestServer.post_api_hire fault user gigId bidId db).1 = 200 →
   let db' := (RestServer.post_api_hire fault user gigId bidId db).2 in
   ∃ open_gigs my_gigs gig,
     (get_api_gigs fault regex_i None None db').1
     = mkRes 200 (gig_docs open_gigs)
     ∧ (gigId ∉ open_gigs.*1)
     ∧ (get_api_gigs fault regex_i None (Some (user_id user)) db').1
       = mkRes 200 (gig_docs my_gigs)
     ∧ gigs db !! gigId = Some gig
     ∧ (gigId, Gig.set_status Gig.assigned gig) ∈ my_gigs)
  ∧ (statusCode (SocketServer.patch_api_bids_hire fault io user bidId db).1.1
     = 200 →
     let db' := (SocketServer.patch_api_bids_hire fault io user bidId db).1.2 in
     ∃ open_gigs my_gigs bid gig,
       (get_api_gigs fault regex_i None None db').1
       = mkRes 200 (gig_docs open_gigs)
       ∧ bids db !! bidId = Some bid
       ∧ (Bid.gigId bid ∉ open_gigs.*1)
       ∧ (get_api_gigs fault regex_i None (Some (user_id user)) db').1
         = mkRes 200 (gig_docs my_gigs)
       ∧ gigs db !! Bid.gigId bid = Some gig
       ∧ (Bid.gigId bid, Gig.set_status Gig.assigned gig) ∈ my_gigs).
Proof.
  intros Hf Huser.
  assert (Hlistings : ∀ G bid0 gig,
            Gig.ownerId gig = user_id user →
            let db' := hire_writes G bid0 gig db in
            ∃ open_gigs my_gigs,
              (get_api_gigs fault regex_i None None db').1
              = mkRes 200 (gig_docs open_gigs)
              ∧ (G ∉ open_gigs.*1)
              ∧ (get_api_gigs fault regex_i None (Some (user_id user)) db').1
                = mkRes 200 (gig_docs my_gigs)
              ∧ (G, Gig.set_status Gig.assigned gig) ∈ my_gigs).
  { intros G bid0 gig Hown db'. unfold get_api_gigs. cbv zeta.
    edestruct (get_gigs_response fault) as (l1 & Hres1 & _ & _ & Hl1);
      [exact Hf|].
    edestruct (get_gigs_response fault) as (l2 & Hres2 & _ & _ & Hl2);
      [exact Hf|].
    exists l1, l2. split; [apply Hres1|]. split; [|split; [apply Hres2|]].
    - intros Hin. apply list_elem_of_fmap in Hin as ([k g] & -> & Hin).
      apply Hl1 in Hin as [Hk Hq]. simpl in Hk, Hq.
      rewrite lookup_insert_eq in Hk. injection Hk as <-.
      by apply andb_true_iff in Hq as [Hq%bool_decide_eq_true _].
    - apply Hl2. split; [apply hire_writes_gig|].
      apply andb_true_iff. split; [|done].
      apply truthy_Some in Huser. rewrite Huser.
      apply bool_decide_eq_true. simpl. by rewrite Hown. }
  split.
  - destruct (post_api_hire_cases fault user gigId bidId db)
      as [(gig & Hgig & Hown & _ & ->)|[(msg & ->)|(_ & ->)]]; simpl; [|done..].
    intros _. destruct (Hlistings gigId bidId gig Hown)
      as (l1 & l2 & H1 & H2 & H3 & H4).
    by exists l1, l2, gig.
  - destruct (patch_api_bids_hire_cases fault io user bidId db)
      as [(bid & gig & Hbid & Hgig & Hown & _ & ->)|[(msg & ->)|(_ & ->)]]; simpl;
      [|done..].
    intros _. destruct (Hlistings (Bid.gigId bid) bidId gig Hown)
      as (l1 & l2 & H1 & H2 & H3 & H4).
    by exists l1, l2, bid, gig.
Qed.

Lemma hired_gig_leaves_open_listing_witness :
  let db' := (SocketServer.patch_api_bids_hire no_fault ∅ alice "b1" market).1.2 in
  ∃ open_gigs my_gigs,
    (get_api_gigs no_fault (λ _ _, true) None None db').1
    = mkRes 200 (gig_docs open_gigs)
    ∧ ("G1" ∉ open_gigs.*1)
    ∧ (get_api_gigs no_fault (λ _ _, true) None (Some "alice") db').1
      = mkRes 200 (gig_docs my_gigs)
    ∧ ("G1", Gig.set_status Gig.assigned G1) ∈ my_gigs.
Proof.
  intros db'.
  assert (Huser : user_id alice ≠ "") by discriminate.
  destruct (hired_gig_leaves_open_listing no_fault (λ _ _, true) ∅ alice "G1"
              "b1" market eq_refl Huser) as [_ Hsocket].
  destruct Hsocket as (l1 & l2 & bid & gig & H1 & Hbid & H2 & H3 & Hgig & H4);
    [reflexivity|].
  assert (Hb1 : bids market !! "b1" = Some b1) by reflexivity.
  rewrite Hb1 in Hbid. injection Hbid as <-.
  assert (HG1 : gigs market !! "G1" = Some G1) by reflexivity.
  change (gigs market !! "G1" = Some gig) in Hgig.
  rewrite HG1 in Hgig. injection Hgig as <-.
  by exists l1, l2.
Defined.

(** ** Creating a gig and reading it back *)



Lemma second_hire_rejected_witness :
  let db1 := (SocketServer.patch_api_bids_hire no_fault ∅ alice "b1" market).1.2 in
  SocketServer.patch_api_bids_hire no_fault ∅ alice "b2" db1
  = (mkRes 400 (message_of "Gig is not open"), db1, [])
  ∧ bids db1 !! "b1" = Some (Bid.set_status Bid.hired b1)
  ∧ bids db1 !! "b2" = Some (Bid.set_status Bid.rejected b2).
Proof.
  intros db1.
  destruct (second_hire_rejected no_fault ∅ alice "b1" "b2" market b1 b2
              eq_refl eq_refl eq_refl eq_refl eq_refl) as [Hsocket _].
  split; [apply Hsocket; reflexivity|]. split; reflexivity.
Defined.

(** ** Who is in a room *)

Lemma elem_of_on_join socket userId io room member :
  member ∈ default [] (SocketServer.on_join socket userId io !! room)
  ↔ (userId ≠ "" ∧ member = socket ∧ room = userId)
    ∨ member ∈ default [] (io !! room).
Proof.
  unfold SocketServer.on_join.
  destruct (String.eqb userId "") eqn:Heq.
  - apply String.eqb_eq in Heq. split; [by right|].
    by intros [(Hne & _)|Hin].
  - apply String.eqb_neq in Heq.
    destruct (decide (socket ∈ default [] (io !! userId))) as [Hin|Hout].
    + split; [by right|]. by intros [(_ & -> & ->)|Hm].
    + destruct (decide (room = userId)) as [->|Hne].
      * rewrite lookup_insert_eq. simpl. rewrite elem_of_cons.
        split; intros [Hm|Hm]; auto. left. tauto.
      * rewrite lookup_insert_ne by done.
        split; [by right|]. by intros [(_ & _ & ->)|Hm].
Qed.

Lemma elem_of_on_disconnect socket io room member :
  member ∈ default [] (SocketServer.on_disconnect socket io !! room)
  ↔ member ≠ socket ∧ member ∈ default [] (io !! room).
Proof.
  unfold SocketServer.on_disconnect. rewrite lookup_fmap.
  destruct (io !! room) as [l|]; simpl.
  - by rewrite list_elem_of_filter.
  - split; [|by intros [_ Hin]]. intros Hin. by apply not_elem_of_nil in Hin.
Qed.

Lemma on_event_NoDup io ev :
  (∀ room, NoDup (default [] (io !! room))) →
  ∀ room, NoDup (default [] (SocketServer.on_event io ev !! room)).
Proof.
  intros Hnd room. destruct ev as [socket userId|socket]; simpl.
  - unfold SocketServer.on_join.
    destruct (String.eqb userId ""); [done|].
    destruct (decide _) as [Hin|Hout]; [done|].
    destruct (decide (room = userId)) as [->|Hne].
    + rewrite lookup_insert_eq. simpl. by apply NoDup_cons.
    + by rewrite lookup_insert_ne.
  - unfold SocketServer.on_disconnect. rewrite lookup_fmap.
    specialize (Hnd room).
    destruct (io !! room) as [l|]; simpl in *; [|done].
    by apply NoDup_filter.
Qed.

Lemma rooms_snoc events ev :
  SocketServer.rooms (events ++ [ev])
  = SocketServer.on_event (SocketServer.rooms events) ev.
Proof. unfold SocketServer.rooms. by rewrite foldl_app. Qed.

Lemma rooms_NoDup events room :
  NoDup (default [] (SocketServer.rooms events !! room)).
Proof.
  revert room. induction events as [|ev events IH] using rev_ind.
  - intros room. unfold SocketServer.rooms. simpl. rewrite lookup_empty.
    apply NoDup_nil_2.
  - intros room. rewrite rooms_snoc. by apply on_event_NoDup.
Qed.

Lemma is_in_room_nil socket room : ¬ SocketServer.is_in_room socket room [].
Proof. intros (before & after & Heq & _). by destruct before. Qed.

Lemma is_in_room_snoc socket room events ev :
  SocketServer.is_in_room socket room (events ++ [ev])
  ↔ ev = SocketServer.join socket room
    ∨ (SocketServer.is_in_room socket room events
       ∧ ev ≠ SocketServer.disconnect socket).
Proof.
  split.
  - intros (before & after & Heq & Hout).
    destruct after as [|last after _] using rev_ind.
    + apply app_inj_tail in Heq as [_ ->]. by left.
    + right. rewrite app_comm_cons, app_assoc in Heq.
      apply app_inj_tail in Heq as [-> ->].
      rewrite elem_of_app, list_elem_of_singleton in Hout. split.
      * exists before, after. split; [done|]. tauto.
      * intros ->. tauto.
  - intros [->|[(before & after & -> & Hout) Hev]].
    + exists events, []. split; [done|]. apply not_elem_of_nil.
    + exists before, (after ++ [ev]). split.
      * by rewrite <- app_assoc.
      * rewrite elem_of_app, list_elem_of_singleton. intros [Hin|Heq]; auto.
Qed.

(** The sockets of a room are those that joined it, under a user id that is
    not empty, and have not disconnected since. *)
Lemma rooms_members events room member :
  member ∈ default [] (SocketServer.rooms events !! room)
  ↔ room ≠ "" ∧ SocketServer.is_in_room member room events.
Proof.
  induction events as [|ev events IH] using rev_ind.
  - unfold SocketServer.rooms. simpl. rewrite lookup_empty. simpl. split.
    + intros Hin. by apply not_elem_of_nil in Hin.
    + intros [_ Hin]. by apply is_in_room_nil in Hin.
  - rewrite rooms_snoc, is_in_room_snoc.
    destruct ev as [socket userId|socket]; simpl.
    + rewrite elem_of_on_join, IH. split.
      * intros [(Hne & -> & ->)|[Hne Hin]]; [by split; [|left]|].
        split; [done|]. right. by split.
      * intros [Hne [[= <- <-]|[Hin _]]]; [by left|by right].
    + rewrite elem_of_on_disconnect, IH. split.
      * intros [Hne [Hroom Hin]]. split; [done|]. right. split; [done|].
        intros [= ->]. by destruct Hne.
      * intros [Hroom [[=]|[Hin Hne]]]. split; [|by split].
        intros ->. by destruct Hne.
Qed.

(** X15. An event emitted to a room produces exactly one packet, with that
    event and that data, for each socket that has joined the room (under a
    user id that is not empty) and has not disconnected since, and no
    packet for anybody else; a socket that joins a room twice is sent one
    packet. This holds after any sequence of joins and disconnections on a
    server that starts with no socket. *)
Theorem room_delivery events room event data :
  let sent :=
    SocketServer.io_to_emit (SocketServer.rooms events) room event data in
  NoDup (packet_socket <$> sent)
  ∧ (∀ p, p ∈ sent → p = mkPacket (packet_socket p) event data)
  ∧ (∀ socket,
       socket ∈ packet_socket <$> sent
       ↔ room ≠ "" ∧ SocketServer.is_in_room socket room events)
  ∧ (∀ socket,
       length (filter (λ p, packet_socket p = socket) sent) ≤ 1).
Proof.
  intros sent. subst sent. unfold SocketServer.io_to_emit.
  rewrite <- list_fmap_compose.
  assert (Hid : (packet_socket ∘ (λ socket, mkPacket socket event data)
                 <$> default [] (SocketServer.rooms events !! room))
                = default [] (SocketServer.rooms events !! room)).
  { rewrite <- (list_fmap_id (default [] _)) at 2. by apply list_fmap_ext. }
  rewrite Hid.
  pose proof (rooms_NoDup events room) as Hnd.
  split; [exact Hnd|]. split; [|split].
  - intros p (socket & -> & _)%list_elem_of_fmap. done.
  - intros socket. apply rooms_members.
  - intros socket. revert Hnd.
    generalize (default [] (SocketServer.rooms events !! room)).
    intros members Hnd.
    induction Hnd as [|member l Hout Hnd IH]; [simpl; lia|].
    rewrite fmap_cons, filter_cons. cbn [packet_socket].
    destruct (decide (member = socket)) as [->|Hne]; [|exact IH].
    cbn [length]. apply le_n_S.
    assert (Hnone : filter (λ p, packet_socket p = socket)
                      ((λ socket0, mkPacket socket0 event data) <$> l) = []).
    { destruct (filter _ _) as [|p rest] eqn:Hfilter; [done|].
      assert (Hp : p ∈ p :: rest) by (apply elem_of_cons; by left).
      rewrite <- Hfilter in Hp.
      apply list_elem_of_filter in Hp as [Heq Hp].
      apply list_elem_of_fmap in Hp as (s' & -> & Hin).
      simpl in Heq. by subst s'. }
    by rewrite Hnone.
Qed.

Lemma room_delivery_witness :
  SocketServer.io_to_emit
    (SocketServer.rooms
       [SocketServer.join 7 "F1"; SocketServer.join 8 "F2";
        SocketServer.join 7 "F1"; SocketServer.join 9 "F1";
        SocketServer.disconnect 9])
    "F1" "notification" []
  = [mkPacket 7 "notification" []]
  ∧ length
      (filter (λ p, packet_socket p = 7)
         (SocketServer.io_to_emit
            (SocketServer.rooms
               [SocketServer.join 7 "F1"; SocketServer.join 8 "F2";
                SocketServer.join 7 "F1"; SocketServer.join 9 "F1";
                SocketServer.disconnect 9])
            "F1" "notification" [])) ≤ 1.
Proof.
  destruct (room_delivery
              [SocketServer.join 7 "F1"; SocketServer.join 8 "F2";
               SocketServer.join 7 "F1"; SocketServer.join 9 "F1";
               SocketServer.disconnect 9]
              "F1" "notification" []) as (_ & _ & _ & Hone).
  split; [vm_compute; reflexivity|apply Hone].
Defined.

Lemma joined_socket_is_notified_witness :
  mkPacket 7 "notification" [("status", JsString "hired")]
  ∈ SocketServer.io_to_emit (SocketServer.on_join 7 "F1" ∅) "F1" "notification"
      [("status", JsString "hired")].
Proof. apply joined_socket_is_notified. discriminate. Defined.

(** ** Hires on different gigs *)

(** The answer of a hire depends on the store only through the bid it names
    and that bid's gig. *)
Lemma patch_hire_frame fault io user bidId db1 db2 :
  bids db1 !! bidId = bids db2 !! bidId →
  (∀ bid, bids db1 !! bidId = Some bid →
          gigs db1 !! Bid.gigId bid = gigs db2 !! Bid.gigId bid) →
  (∃ bid gig sent,
      bids db1 !! bidId = Some bid ∧ gigs db1 !! Bid.gigId bid = Some gig
      ∧ SocketServer.patch_api_bids_hire fault io user bidId db1
        = (mkRes 200 success_true, hire_writes (Bid.gigId bid) bidId gig db1,
           sent)
      ∧ SocketServer.patch_api_bids_hire fault io user bidId db2
        = (mkRes 200 success_true, hire_writes (Bid.gigId bid) bidId gig db2,
           sent))
  ∨ (∃ res,
       SocketServer.patch_api_bids_hire fault io user bidId db1
       = (res, db1, [])
       ∧ SocketServer.patch_api_bids_hire fault io user bidId db2
         = (res, db2, [])).
Proof.
  intros Hbids Hgigs.
  unfold SocketServer.patch_api_bids_hire, SocketServer.patch_api_bids_hire_try.
  unfold_driver. simpl. rewrite <- Hbids.
  destruct (fault Bid_findById_op); simpl; [right; eauto|].
  destruct (bids db1 !! bidId) as [bid|] eqn:Hbid; simpl; [|right; eauto].
  rewrite <- (Hgigs bid eq_refl).
  destruct (fault Gig_findById_op); simpl; [right; eauto|].
  destruct (gigs db1 !! Bid.gigId bid) as [gig|] eqn:Hgig; simpl;
    [|right; eauto].
  destruct (decide (Gig.ownerId gig ≠ user_id user)); simpl; [right; eauto|].
  destruct (decide (Gig.status gig ≠ Gig.open)); simpl; [right; eauto|].
  destruct (fault gig_save_op); simpl; [right; eauto|].
  destruct (fault Bid_updateMany_op); simpl; [right; eauto|].
  destruct (fault Bid_findByIdAndUpdate_op); simpl; [right; eauto|].
  destruct (fault commitTransaction_op); simpl; [right; eauto|].
  left. by eexists bid, gig, _.
Qed.

(** The writes of a hire leave the bids of the other gigs, and the other
    gigs, as they are. *)
Lemma hire_writes_elsewhere G bidId gig db bid k b :
  bids db !! bidId = Some bid → Bid.gigId bid = G →
  bids db !! k = Some b → Bid.gigId b ≠ G →
  bids (hire_writes G bidId gig db) !! k = Some b
  ∧ gigs (hire_writes G bidId gig db) !! Bid.gigId b = gigs db !! Bid.gigId b.
Proof.
  intros Hbid HG Hk Hne.
  assert (Hkne : k ≠ bidId) by (intros ->; congruence).
  split.
  - rewrite hire_writes_other_bid, Hk by done. simpl. by rewrite decide_False.
  - by rewrite hire_writes_other_gig.
Qed.

Lemma store_eq (a b : Store) : gigs a = gigs b → bids a = bids b → a = b.
Proof. destruct a, b. simpl. by intros -> ->. Qed.

Lemma hire_writes_comm G1 G2 k1 k2 gig1 gig2 db c1 c2 :
  bids db !! k1 = Some c1 → Bid.gigId c1 = G1 →
  bids db !! k2 = Some c2 → Bid.gigId c2 = G2 →
  G1 ≠ G2 →
  hire_writes G2 k2 gig2 (hire_writes G1 k1 gig1 db)
  = hire_writes G1 k1 gig1 (hire_writes G2 k2 gig2 db).
Proof.
  intros H1 HG1 H2 HG2 Hne.
  assert (Hk : k1 ≠ k2) by (intros ->; congruence).
  apply store_eq.
  - simpl. by apply insert_insert_ne.
  - apply map_eq. intros k.
    destruct (decide (k = k1)) as [->|Hn1];
      [|destruct (decide (k = k2)) as [->|Hn2]].
    + rewrite hire_writes_other_bid, !hire_writes_target by done.
      rewrite hire_writes_other_bid, H1 by done. simpl.
      by rewrite !decide_False by congruence.
    + rewrite hire_writes_target, !hire_writes_other_bid by done.
      rewrite hire_writes_target, H2. simpl.
      by rewrite !decide_False by congruence.
    + rewrite !hire_writes_other_bid by done.
      destruct (bids db !! k) as [b|]; simpl; [|done].
      repeat (case_decide; simpl in *); congruence.
Qed.

Lemma hire_elsewhere fault io user k2 db c1 c2 k1 :
  bids db !! k1 = Some c1 → bids db !! k2 = Some c2 →
  Bid.gigId c1 ≠ Bid.gigId c2 →
  let db' := (SocketServer.patch_api_bids_hire fault io user k2 db).1.2 in
  bids db !! k1 = bids db' !! k1
  ∧ ∀ bid, bids db !! k1 = Some bid →
           gigs db !! Bid.gigId bid = gigs db' !! Bid.gigId bid.
Proof.
  intros H1 H2 Hne.
  destruct (patch_api_bids_hire_cases fault io user k2 db)
    as [(bid & gig & Hbid & _ & _ & _ & ->)|[(msg & ->)|(_ & ->)]]; cbn [fst snd];
    [|done..].
  rewrite H2 in Hbid. injection Hbid as <-.
  destruct (hire_writes_elsewhere (Bid.gigId c2) k2 gig db c2 k1 c1)
    as [Hb Hg]; try done.
  split.
  - by rewrite H1, Hb.
  - intros bid. rewrite H1. intros [= <-]. by rewrite Hg.
Qed.

(** X14. Two hires on bids of different gigs do not interfere, on the server with
    [PATCH /api/bids/:bidId/hire]: each gets the answer, and emits the
    packets, it would have got alone, and the two orders leave the same
    store. *)
Theorem hires_on_different_gigs_commute fault io user1 user2 k1 k2 db c1 c2 :
  bids db !! k1 = Some c1 → bids db !! k2 = Some c2 →
  Bid.gigId c1 ≠ Bid.gigId c2 →
  let hire1 := SocketServer.patch_api_bids_hire fault io user1 k1 in
  let hire2 := SocketServer.patch_api_bids_hire fault io user2 k2 in
  (hire2 (hire1 db).1.2).1.2 = (hire1 (hire2 db).1.2).1.2
  ∧ (hire1 (hire2 db).1.2).1.1 = (hire1 db).1.1
  ∧ (hire1 (hire2 db).1.2).2 = (hire1 db).2
  ∧ (hire2 (hire1 db).1.2).1.1 = (hire2 db).1.1
  ∧ (hire2 (hire1 db).1.2).2 = (hire2 db).2.
Proof.
  intros H1 H2 Hne hire1 hire2. subst hire1 hire2.
  destruct (hire_elsewhere fault io user2 k2 db c1 c2 k1 H1 H2 Hne)
    as [Hb1 Hg1].
  destruct (hire_elsewhere fault io user1 k1 db c2 c1 k2 H2 H1)
    as [Hb2 Hg2]; [congruence|].
  destruct (patch_hire_frame fault io user1 k1 db _ Hb1 Hg1)
    as [(a1 & gig1 & sent1 & Ha1 & _ & E1 & E1')|(msg1 & E1 & E1')];
  destruct (patch_hire_frame fault io user2 k2 db _ Hb2 Hg2)
    as [(a2 & gig2 & sent2 & Ha2 & _ & E2 & E2')|(msg2 & E2 & E2')];
    rewrite E1', E2'; rewrite ?E1, ?E2; cbn [fst snd]; repeat split;
    try done.
  rewrite H1 in Ha1. injection Ha1 as <-.
  rewrite H2 in Ha2. injection Ha2 as <-.
  by apply (hire_writes_comm _ _ k1 k2 gig1 gig2 db c1 c2).
Qed.

Lemma hires_on_different_gigs_commute_witness :
  let hire1 := SocketServer.patch_api_bids_hire no_fault ∅ alice "b1" in
  let hire2 := SocketServer.patch_api_bids_hire no_fault ∅ carol "b3" in
  (hire2 (hire1 market).1.2).1.2 = (hire1 (hire2 market).1.2).1.2
  ∧ (hire1 (hire2 market).1.2).1.1 = mkRes 200 success_true
  ∧ (hire2 (hire1 market).1.2).1.1 = mkRes 200 success_true.
Proof.
  intros hire1 hire2.
  assert (Hne : Bid.gigId b1 ≠ Bid.gigId b3) by discriminate.
  destruct (hires_on_different_gigs_commute no_fault ∅ alice carol "b1" "b3"
              market b1 b3 eq_refl eq_refl Hne)
    as (Hstore & Hres1 & _ & Hres2 & _).
  split; [exact Hstore|].
  split; [exact Hres1|exact Hres2].
Defined.

(** * More of the client *)

(** ** What the server says and what the caller gets *)

Lemma requestWithFallback_falls_back {T} (fetchFn : ClientApi.FetchFn T)
    (fallbackFn : ClientApi.FallbackFn T) st error st1 tr :
  ClientApi.isBackendOffline st = false →
  fetchFn st = (ClientApi.rejected error, st1, tr) →
  ClientApi.is_client_error error = false →
  (ClientApi.requestWithFallback fetchFn fallbackFn st).1
  = ((fallbackFn (ClientApi.localStorage st1)).1,
     ClientApi.mkState
       (ClientApi.isBackendOffline st1
        || ClientApi.isNetworkError error || ClientApi.isServerError error)
       (fallbackFn (ClientApi.localStorage st1)).2).
Proof.
  intros Hoff Hfetch Hclient. unfold ClientApi.requestWithFallback.
  rewrite Hoff, Hfetch, Hclient.
  destruct (ClientApi.isNetworkError error || ClientApi.isServerError error)
    eqn:Hdown; destruct (ClientApi.isBackendOffline st1) eqn:Hst1; simpl;
    rewrite <- ?orb_assoc, ?Hdown, ?Hst1; simpl;
    destruct st1 as [flag ls]; simpl in *; subst;
    by destruct (fallbackFn ls) as [[v|e] ls'].
Qed.

Lemma handleResponse_not_json {J} (message_field : J → option (option string))
    (response : MockApi.HttpResponse J) :
  passes_as_json response = false →
  MockApi.handleResponse J message_field response
  = ClientApi.rejected
      (ClientApi.mkJsError "Error"
         "Server returned non-JSON response (likely 404/500)" None).
Proof.
  unfold passes_as_json, MockApi.handleResponse.
  destruct (MockApi.content_type response) as [ct|]; [|done].
  intros Hct. apply orb_false_iff in Hct as [-> ->]. done.
Qed.

Lemma handleResponse_json_error {J} (message_field : J → option (option string))
    (response : MockApi.HttpResponse J) :
  passes_as_json response = true → MockApi.ok response = false →
  (∃ msg, MockApi.handleResponse J message_field response
          = ClientApi.rejected
              (ClientApi.mkJsError "Error" msg
                 (Some (MockApi.http_status response)))
          ∧ (∀ errorData m, MockApi.json response = Some errorData →
                            message_field errorData = Some (Some m) →
                            m ≠ "" → msg = m))
  ∨ (∃ errorData, MockApi.json response = Some errorData
                  ∧ message_field errorData = None
                  ∧ MockApi.handleResponse J message_field response
                    = ClientApi.rejected
                        (ClientApi.mkJsError "TypeError"
                           "Cannot read properties of null (reading 'message')"
                           None)).
Proof.
  unfold passes_as_json, MockApi.handleResponse. intros Hct Hok.
  assert (Htest : match MockApi.content_type response with
                  | Some contentType =>
                    negb (String.eqb contentType "")
                    && negb (ClientApi.includes "application/json" contentType)
                  | None => false
                  end = false).
  { destruct (MockApi.content_type response) as [ct|]; [|done].
    apply orb_true_iff in Hct as [->| ->]; [done|]. by rewrite andb_false_r. }
  rewrite Htest, Hok. simpl.
  destruct (MockApi.json response) as [errorData|] eqn:Hjson.
  - destruct (message_field errorData) as [message|] eqn:Hmessage.
    + left. eexists. split; [done|].
      intros errorData' m [= <-]. rewrite Hmessage. intros [= ->] Hm.
      unfold MockApi.or_else.
      destruct (String.eqb m "") eqn:Heq; [|done].
      by apply String.eqb_eq in Heq.
    + right. by exists errorData.
  - left. eexists. split; [done|]. by intros errorData m.
Qed.

(** X17. A request that the server has answered is not replayed on the local
    data. With the breaker closed, a JSON answer with a 2xx status gives the
    caller the parsed body, and a JSON answer with a 4xx status other than
    404, whose body is not [null], gives the caller an error carrying that
    status and the server's message; in both cases the fallback does not
    run, [localStorage] is not touched and the breaker stays closed. The
    body [null] under an error status is the exception: reading its
    [message] throws a [TypeError], which is taken for a network failure, so
    that the fallback runs and the breaker opens. *)
Theorem server_answer_is_final {J} (message_field : J → option (option string))
    url (response : MockApi.HttpResponse J)
    (fallbackFn : ClientApi.FallbackFn J) (st : ClientApi.State) :
  ClientApi.isBackendOffline st = false →
  passes_as_json response = true →
  let call :=
    ClientApi.requestWithFallback
      (MockApi.fetch_json J message_field url (ClientApi.resolved response))
      fallbackFn st in
  (∀ data, MockApi.ok response = true → MockApi.json response = Some data →
           call = (ClientApi.resolved data, st,
                   [ClientApi.call_fetchFn; ClientApi.network url]))
  ∧ (MockApi.ok response = false →
     400 ≤ MockApi.http_status response < 500 →
     MockApi.http_status response ≠ 404 →
     (∀ errorData, MockApi.json response = Some errorData →
                   message_field errorData ≠ None) →
     ∃ msg, call = (ClientApi.rejected
                      (ClientApi.mkJsError "Error" msg
                         (Some (MockApi.http_status response))),
                    st, [ClientApi.call_fetchFn; ClientApi.network url])
            ∧ (∀ errorData m, MockApi.json response = Some errorData →
                              message_field errorData = Some (Some m) →
                              m ≠ "" → msg = m))
  ∧ (MockApi.ok response = false →
     ∀ errorData, MockApi.json response = Some errorData →
                  message_field errorData = None →
                  call.1
                  = ((fallbackFn (ClientApi.localStorage st)).1,
                     ClientApi.mkState true
                       (fallbackFn (ClientApi.localStorage st)).2)).
Proof.
  intros Hoff Hct call. subst call. split; [|split].
  - intros data Hok Hjson.
    unfold ClientApi.requestWithFallback, MockApi.fetch_json. rewrite Hoff.
    unfold MockApi.handleResponse.
    assert (Htest : match MockApi.content_type response with
                    | Some contentType =>
                      negb (String.eqb contentType "")
                      && negb (ClientApi.includes "application/json"
                                 contentType)
                    | None => false
                    end = false).
    { unfold passes_as_json in Hct.
      destruct (MockApi.content_type response) as [ct|]; [|done].
      apply orb_true_iff in Hct as [->| ->]; [done|].
      by rewrite andb_false_r. }
    by rewrite Htest, Hok, Hjson.
  - intros Hok [Hlo Hhi] H404 Hbody.
    destruct (handleResponse_json_error message_field response Hct Hok)
      as [(msg & Hres & Hmsg)|(errorData & Hjson & Hnull & _)];
      [|by destruct (Hbody errorData Hjson)].
    exists msg. split; [|exact Hmsg].
    unfold ClientApi.requestWithFallback, MockApi.fetch_json.
    rewrite Hoff, Hres.
    assert (Hclient : ClientApi.is_client_error
                        (ClientApi.mkJsError "Error" msg
                           (Some (MockApi.http_status response))) = true).
    { unfold ClientApi.is_client_error. cbn [ClientApi.status].
      rewrite !andb_true_iff, !negb_true_iff.
      rewrite !Nat.eqb_neq, Nat.leb_le, Nat.ltb_lt. lia. }
    by rewrite Hclient.
  - intros Hok errorData Hjson Hnull.
    destruct (handleResponse_json_error message_field response Hct Hok)
      as [(msg & Hres & Hmsg)|(errorData' & Hjson' & _ & Hres)].
    + exfalso. revert Hres. unfold MockApi.handleResponse.
      rewrite Hok, Hjson, Hnull. simpl.
      by destruct (match MockApi.content_type response with
                   | Some _ => _ | None => _ end).
    + rewrite (requestWithFallback_falls_back _ fallbackFn st
                 (ClientApi.mkJsError "TypeError"
                    "Cannot read properties of null (reading 'message')" None)
                 st [ClientApi.network url] Hoff).
      * by rewrite orb_true_r.
      * unfold MockApi.fetch_json. by rewrite Hres.
      * reflexivity.
Qed.

Lemma server_answer_is_final_witness :
  let message_field (body : option string) := Some <$> body in
  let fallbackFn : ClientApi.FallbackFn (option string) :=
    λ ls, (ClientApi.resolved (Some "local bid"),
           <["gigflow_bids" := "[...]"]> ls) in
  ClientApi.requestWithFallback
    (MockApi.fetch_json (option string) message_field "/api/bids"
       (ClientApi.resolved
          (MockApi.mkHttp (Some "application/json; charset=utf-8") false 400
             "Bad Request" (Some (Some "Already bid on this gig")))))
    fallbackFn (ClientApi.initial ∅)
  = (ClientApi.rejected
       (ClientApi.mkJsError "Error" "Already bid on this gig" (Some 400)),
     ClientApi.initial ∅,
     [ClientApi.call_fetchFn; ClientApi.network "/api/bids"])
  ∧ (ClientApi.requestWithFallback
       (MockApi.fetch_json (option string) message_field "/api/bids"
          (ClientApi.resolved
             (MockApi.mkHttp (Some "application/json; charset=utf-8") false 400
                "Bad Request" (Some None))))
       fallbackFn (ClientApi.initial ∅)).1
    = (ClientApi.resolved (Some "local bid"),
       ClientApi.mkState true (<["gigflow_bids" := "[...]"]> ∅)).
Proof.
  intros message_field fallbackFn. split.
  - destruct (server_answer_is_final message_field "/api/bids"
                (MockApi.mkHttp (Some "application/json; charset=utf-8") false
                   400 "Bad Request" (Some (Some "Already bid on this gig")))
                fallbackFn (ClientApi.initial ∅) eq_refl eq_refl)
      as (_ & Herr & _).
    destruct Herr as (msg & -> & Hmsg);
      [reflexivity|simpl; lia|discriminate| |].
    + intros errorData [= <-]. discriminate.
    + rewrite (Hmsg (Some "Already bid on this gig")
                 "Already bid on this gig");
        [reflexivity|reflexivity|reflexivity|discriminate].
  - destruct (server_answer_is_final message_field "/api/bids"
                (MockApi.mkHttp (Some "application/json; charset=utf-8") false
                   400 "Bad Request" (Some None))
                fallbackFn (ClientApi.initial ∅) eq_refl eq_refl)
      as (_ & _ & Hnull).
    apply (Hnull eq_refl None); reflexivity.
Defined.

(** ** What trips the breaker *)

(** X18. With the breaker closed, a request whose [fetch] times out or fails on
    the network, or is answered by something that is not JSON (whatever the
    status, a 200 included), or by a JSON 404 or 5xx, is served by the
    fallback on [localStorage], and opens the breaker. *)
Theorem breaker_trips {J} (message_field : J → option (option string)) url
    (net : ClientApi.Outcome (MockApi.HttpResponse J))
    (fallbackFn : ClientApi.FallbackFn J) (st : ClientApi.State) :
  ClientApi.isBackendOffline st = false →
  looks_down net →
  (ClientApi.requestWithFallback
     (MockApi.fetch_json J message_field url net) fallbackFn st).1
  = ((fallbackFn (ClientApi.localStorage st)).1,
     ClientApi.mkState true (fallbackFn (ClientApi.localStorage st)).2).
Proof.
  intros Hoff Hdown.
  assert (Herr : ∃ error,
             MockApi.fetch_json J message_field url net st
             = (ClientApi.rejected error, st, [ClientApi.network url])
             ∧ ClientApi.is_client_error error = false
             ∧ ClientApi.isNetworkError error || ClientApi.isServerError error
               = true).
  { destruct Hdown as [m|m|response Hct|response Hct Hok Hstatus].
    - eexists. by repeat split.
    - eexists. by repeat split.
    - eexists. unfold MockApi.fetch_json.
      rewrite (handleResponse_not_json message_field response Hct).
      by repeat split.
    - destruct (handleResponse_json_error message_field response Hct Hok)
        as [(msg & Hres & _)|(errorData & _ & _ & Hres)];
        eexists; unfold MockApi.fetch_json; rewrite Hres;
        [|by repeat split].
      split; [done|].
      unfold ClientApi.is_client_error, ClientApi.isServerError,
        ClientApi.isNetworkError.
      cbn [ClientApi.status ClientApi.name ClientApi.message].
      split.
      + apply andb_false_iff. destruct Hstatus as [->|Hge].
        * by right.
        * left. apply andb_false_iff. right. apply Nat.ltb_ge. lia.
      + apply orb_true_iff. right. apply andb_true_iff. split.
        * apply negb_true_iff, Nat.eqb_neq. lia.
        * apply orb_true_iff. destruct Hstatus as [->|Hge]; [by right|].
          left. by apply Nat.leb_le. }
  destruct Herr as (error & Hfetch & Hclient & Htrip).
  rewrite (requestWithFallback_falls_back _ _ st error st
             [ClientApi.network url] Hoff Hfetch Hclient).
  by rewrite <- orb_assoc, Htrip, orb_true_r.
Qed.

(** A 200 answer that is an HTML page opens the breaker. *)
Lemma breaker_trips_witness :
  (ClientApi.requestWithFallback
     (MockApi.fetch_json string (λ body, Some (Some body)) "/api/gigs?"
        (ClientApi.resolved
           (MockApi.mkHttp (Some "text/html") true 200 "OK" None)))
     (λ ls, (ClientApi.resolved "local gigs", ls))
     (ClientApi.initial ∅)).1
  = (ClientApi.resolved "local gigs", ClientApi.mkState true ∅).
Proof.
  apply (breaker_trips (λ body, Some (Some body)) "/api/gigs?"
           (ClientApi.resolved
              (MockApi.mkHttp (Some "text/html") true 200 "OK" None))
           (λ ls, (ClientApi.resolved "local gigs", ls))
           (ClientApi.initial ∅) eq_refl).
  by apply down_not_json.
Defined.

(** X19. [getGigById] is the one service for which a 404 is an answer: it
    resolves to [undefined], runs no fallback and leaves the breaker closed,
    whatever the content type of the 404. *)
Theorem getGigById_404 {J} (message_field : J → option (option string)) id
    (response : MockApi.HttpResponse J)
    (fallbackFn : ClientApi.FallbackFn (option J)) (st : ClientApi.State) :
  ClientApi.isBackendOffline st = false →
  MockApi.http_status response = 404 →
  ClientApi.requestWithFallback
    (MockApi.getGigById_fetchFn J message_field id (ClientApi.resolved response))
    fallbackFn st
  = (ClientApi.resolved None, st,
     [ClientApi.call_fetchFn; ClientApi.network ("/api/gigs/" +:+ id)]).
Proof.
  intros Hoff H404.
  unfold ClientApi.requestWithFallback, MockApi.getGigById_fetchFn.
  by rewrite Hoff, H404.
Qed.

Lemma getGigById_404_witness :
  ClientApi.requestWithFallback
    (MockApi.getGigById_fetchFn string (λ body, Some (Some body)) "G404"
       (ClientApi.resolved
          (MockApi.mkHttp (Some "application/json") false 404 "Not Found"
             (Some "Gig not found"))))
    (λ ls, (ClientApi.resolved (Some "local gig"), ls))
    (ClientApi.initial ∅)
  = (ClientApi.resolved None, ClientApi.initial ∅,
     [ClientApi.call_fetchFn; ClientApi.network "/api/gigs/G404"]).
Proof. by apply (getGigById_404 (λ body, Some (Some body)) "G404"). Defined.

(** * Authentication *)

(** ** Registering and logging in *)

Lemma User_findOne_cases fault email users :
  fault User_findOne_op = None →
  (∃ k u, Auth.User_findOne fault email users = (inr (Some (k, u)), users)
          ∧ users !! k = Some u ∧ User.email u = email)
  ∨ (Auth.User_findOne fault email users = (inr None, users)
     ∧ ∀ k u, users !! k = Some u → User.email u ≠ email).
Proof.
  intros Hf. unfold Auth.User_findOne, Auth.auth_call. rewrite Hf.
  destruct (filter _ (map_to_list users)) as [|[k u] rest] eqn:Hfilter.
  - right. split; [done|]. intros k u Hk He.
    assert (Hin : (k, u) ∈ filter (λ ku : string * User.t,
                                     User.email ku.2 = email)
                    (map_to_list users)).
    { apply list_elem_of_filter. split; [done|]. by apply elem_of_map_to_list. }
    rewrite Hfilter in Hin. by apply not_elem_of_nil in Hin.
  - left. exists k, u. split; [done|].
    assert (Hin : (k, u) ∈ filter (λ ku : string * User.t,
                                     User.email ku.2 = email)
                    (map_to_list users)).
    { rewrite Hfilter. apply elem_of_cons. by left. }
    apply list_elem_of_filter in Hin as [He Hin].
    by apply elem_of_map_to_list in Hin.
Qed.

Lemma userSchema_nil doc :
  userSchema doc = []
  ↔ User.name doc ≠ "" ∧ User.email doc ≠ "" ∧ User.password doc ≠ "".
Proof.
  unfold userSchema. rewrite !app_nil, !required_nil. tauto.
Qed.

(** A registration either writes nothing and hands out no token, or stores
    one new user that [userSchema] accepts, under an id and an email that
    were free, with the hash of the password, and hands out the token signed
    at that time for the new id and name. *)
Lemma register_try_cases fault bcrypt_hash now jwt_sign name email password _id
    salt users :
  (∃ r, Auth.register_try fault bcrypt_hash now jwt_sign name email password _id
          salt users = (r, users)
        ∧ (r = inr None ∨ ∃ e, r = inl e))
  ∨ (users !! _id = None
     ∧ (∀ k u, users !! k = Some u → User.email u ≠ email)
     ∧ userSchema (User.mk name email (bcrypt_hash salt password)) = []
     ∧ Auth.register_try fault bcrypt_hash now jwt_sign name email password _id
         salt users
       = (inr (Some (_id, User.mk name email (bcrypt_hash salt password),
                     jwt_sign now (mkUser _id name))),
          <[_id := User.mk name email (bcrypt_hash salt password)]> users)).
Proof.
  unfold Auth.register_try, bind.
  destruct (fault User_findOne_op) as [e|] eqn:Hf1.
  { left. unfold Auth.User_findOne, Auth.auth_call. rewrite Hf1. eauto. }
  destruct (User_findOne_cases fault email users Hf1)
    as [(k & u & -> & _)|[-> Hnone]].
  { left. unfold ret. eauto. }
  unfold Auth.auth_call, Auth.User_create, ret.
  destruct (fault bcrypt_hash_op); [left; eauto|].
  destruct (userSchema _) eqn:Hvalid; [|left; eauto].
  destruct (fault User_create_op); [left; eauto|].
  destruct (decide _) as [Hdup|Hfree]; [left; eauto|].
  right. split; [|split; [done|split; [done|done]]].
  destruct (users !! _id) eqn:Hid; [|done].
  destruct Hfree. left. by eexists.
Qed.

(** X20. Registering with an email that a stored user has is refused with 400
    ['User already exists']: nothing is stored, no token is handed out, in
    the body or in a cookie (the lookup is assumed to reach the store). *)
Theorem register_existing_email fault bcrypt_hash now jwt_sign cookie name email
    password _id salt users k u :
  fault User_findOne_op = None →
  users !! k = Some u → User.email u = email →
  Auth.post_api_auth_register fault bcrypt_hash now jwt_sign cookie name email
    password _id salt users
  = (mkAuthRes 400 (auth_message "User already exists") None, users).
Proof.
  intros Hf Hk He.
  unfold Auth.post_api_auth_register, Auth.register_try, bind.
  destruct (User_findOne_cases fault email users Hf)
    as [(k' & u' & -> & _)|[_ Hnone]].
  - by destruct cookie.
  - by destruct (Hnone k u Hk).
Qed.

(** X21. Two users registered through the handlers never share an email. *)
Theorem emails_stay_unique fault bcrypt_hash bcrypt_compare now jwt_sign cookie
    name email password _id salt users :
  emails_unique users →
  emails_unique
    (Auth.post_api_auth_register fault bcrypt_hash now jwt_sign cookie name email
       password _id salt users).2
  ∧ (Auth.post_api_auth_login fault bcrypt_compare now jwt_sign cookie email
       password users).2 = users.
Proof.
  intros Huniq. split.
  - unfold Auth.post_api_auth_register.
    destruct (register_try_cases fault bcrypt_hash now jwt_sign name email
                password _id salt users)
      as [(r & -> & [->|[e ->]])|(Hfresh & Hnone & _ & ->)];
      try (by destruct cookie).
    assert (Hnew : emails_unique
                     (<[_id := User.mk name email (bcrypt_hash salt password)]>
                        users)).
    { intros k1 k2 u1 u2. rewrite !lookup_insert_Some.
      intros [[<- <-]|[Hne1 H1]] [[<- <-]|[Hne2 H2]] He; try done.
      - by destruct (Hnone k2 u2 H2).
      - by destruct (Hnone k1 u1 H1).
      - by apply (Huniq k1 k2 u1 u2). }
    by destruct cookie.
  - unfold Auth.post_api_auth_login, Auth.login_try, bind, Auth.User_findOne,
      Auth.auth_call, ret.
    destruct (fault User_findOne_op); [by destruct cookie|].
    destruct (head _) as [[k u]|]; [|by destruct cookie].
    destruct (fault bcrypt_compare_op); [by destruct cookie|].
    destruct (bcrypt_compare _ _); by destruct cookie.
Qed.

Lemma register_existing_email_witness :
  let users : gmap string User.t :=
    <["u1" := User.mk "Alice Client" "alice@example.com" "s$secret"]> ∅ in
  Auth.post_api_auth_register no_auth_fault toy_hash 100 toy_sign true "Mallory"
    "alice@example.com" "hunter2" "u2" "t" users
  = (mkAuthRes 400 (auth_message "User already exists") None, users).
Proof.
  intros users.
  apply (register_existing_email no_auth_fault toy_hash 100 toy_sign true "Mallory"
           "alice@example.com" "hunter2" "u2" "t" users "u1"
           (User.mk "Alice Client" "alice@example.com" "s$secret"));
    reflexivity.
Defined.

Lemma emails_stay_unique_witness :
  let users : gmap string User.t :=
    <["u1" := User.mk "Alice Client" "alice@example.com" "s$secret"]> ∅ in
  let registered :=
    (Auth.post_api_auth_register no_auth_fault toy_hash 100 toy_sign true
       "Bob Builder" "bob@example.com" "hunter2" "u2" "t" users).2 in
  (registered !! "u1"
   = Some (User.mk "Alice Client" "alice@example.com" "s$secret")
   ∧ registered !! "u2"
     = Some (User.mk "Bob Builder" "bob@example.com" "t$hunter2"))
  ∧ emails_unique registered
  ∧ (Auth.post_api_auth_login no_auth_fault toy_compare 100 toy_sign true
       "alice@example.com" "secret" users).1
    = mkAuthRes 200 (auth_user "u1" "Alice Client" "alice@example.com")
        (Some (Some "u1.Alice Client.100"))
  ∧ (Auth.post_api_auth_login no_auth_fault toy_compare 100 toy_sign true
       "alice@example.com" "secret" users).2 = users.
Proof.
  intros users registered. subst registered.
  assert (Huniq : emails_unique users).
  { intros k1 k2 u1 u2. unfold users.
    rewrite !lookup_insert_Some, !lookup_empty.
    by intros [[<- <-]|[_ [=]]] [[<- <-]|[_ [=]]]. }
  destruct (emails_stay_unique no_auth_fault toy_hash toy_compare 100 toy_sign
              true "Bob Builder" "bob@example.com" "hunter2" "u2" "t" users
              Huniq) as [Hregister _].
  destruct (emails_stay_unique no_auth_fault toy_hash toy_compare 100 toy_sign
              true "Alice Client" "alice@example.com" "secret" "u2" "t"
              users Huniq) as [_ Hlogin].
  split; [split; vm_compute; reflexivity|].
  split; [exact Hregister|].
  split; [vm_compute; reflexivity|exact Hlogin].
Defined.

(** X22. A user who has registered can log in. For a registration under a
    free id and a free email, with calls that do not reject: when the name,
    the email and the hash of the password are not empty (the user passes
    [userSchema]) and bcrypt accepts a password against its own hash, the
    registration is answered 200 with the token signed at that time for the
    new user, and a login at any later time with the same email and
    password on the resulting store is answered 200 with the same user and
    the token signed at the time of the login; the store holds the hash, not
    the password. A user that [userSchema] refuses (an empty name, say) is
    answered 500, with no token, and is not stored. *)
Theorem register_then_login bcrypt_hash bcrypt_compare now later jwt_sign
    cookie name email password _id salt users :
  users !! _id = None →
  (∀ k u, users !! k = Some u → User.email u ≠ email) →
  let user := User.mk name email (bcrypt_hash salt password) in
  let registered :=
    Auth.post_api_auth_register no_auth_fault bcrypt_hash now jwt_sign cookie
      name email password _id salt users in
  let answer (time : nat) :=
    if cookie
    then mkAuthRes 200 (auth_user _id name email)
           (Some (Some (jwt_sign time (mkUser _id name))))
    else mkAuthRes 200
           (auth_user_token _id name email (jwt_sign time (mkUser _id name)))
           None in
  (name ≠ "" → email ≠ "" → bcrypt_hash salt password ≠ "" →
   bcrypt_compare password (bcrypt_hash salt password) = true →
   registered = (answer now, <[_id := user]> users)
   ∧ Auth.post_api_auth_login no_auth_fault bcrypt_compare later jwt_sign
       cookie email password registered.2
     = (answer later, registered.2))
  ∧ (userSchema user ≠ [] →
     registered
     = (mkAuthRes 500
          (auth_message
             (error_message (ValidationError "User" (userSchema user))))
          None,
        users)).
Proof.
  intros Hfresh Hnone user registered answer. subst registered answer.
  assert (Hfind : Auth.User_findOne no_auth_fault email users
                  = (inr None, users)).
  { destruct (User_findOne_cases no_auth_fault email users eq_refl)
      as [(k & u & _ & Hk & He)|[-> _]]; [by destruct (Hnone k u Hk)|done]. }
  split.
  - intros Hname Hemail Hhash Hbcrypt.
    assert (Hvalid : userSchema user = []) by (by apply userSchema_nil).
    assert (Hreg : Auth.register_try no_auth_fault bcrypt_hash now jwt_sign
                     name email password _id salt users
                   = (inr (Some (_id, user, jwt_sign now (mkUser _id name))),
                      <[_id := user]> users)).
    { unfold Auth.register_try, bind. rewrite Hfind.
      unfold Auth.auth_call, Auth.User_create, ret.
      cbn [no_auth_fault]. fold user. rewrite Hvalid.
      destruct (decide _) as [[Hid|Hdup]|_]; [| |done].
      - rewrite Hfresh in Hid. by destruct Hid.
      - apply Exists_exists in Hdup as ([k u] & Hin & He).
        apply elem_of_map_to_list in Hin. by destruct (Hnone k u Hin). }
    unfold Auth.post_api_auth_register. rewrite Hreg.
    split; [by destruct cookie|].
    set (users1 := <[_id := user]> users).
    assert (Hlogin : Auth.login_try no_auth_fault bcrypt_compare later
                       jwt_sign email password users1
                     = (inr (Some (_id, user,
                                   jwt_sign later (mkUser _id name))),
                        users1)).
    { unfold Auth.login_try, bind.
      destruct (User_findOne_cases no_auth_fault email users1 eq_refl)
        as [(k & u & -> & Hk & He)|[_ Hnone1]].
      - apply lookup_insert_Some in Hk as [[<- <-]|[_ Hk]];
          [|by destruct (Hnone k u Hk)].
        unfold Auth.auth_call, ret. simpl. by rewrite Hbcrypt.
      - destruct (Hnone1 _id user); [apply lookup_insert_eq|done]. }
    unfold Auth.post_api_auth_login.
    replace ((if cookie then Auth.answer_with_cookie
              else Auth.answer_with_token) "User already exists"
               (inr (Some (_id, user, jwt_sign now (mkUser _id name))),
                users1)).2
      with users1 by (by destruct cookie).
    rewrite Hlogin. by destruct cookie.
  - intros Hbad.
    unfold Auth.post_api_auth_register, Auth.register_try, bind.
    rewrite Hfind. unfold Auth.auth_call, Auth.User_create, ret.
    cbn [no_auth_fault]. fold user.
    destruct (userSchema user); [done|]. by destruct cookie.
Qed.

Lemma register_then_login_witness :
  let registered :=
    Auth.post_api_auth_register no_auth_fault toy_hash 100 toy_sign true
      "Alice Client" "alice@example.com" "secret" "alice" "s" ∅ in
  registered.1
  = mkAuthRes 200 (auth_user "alice" "Alice Client" "alice@example.com")
      (Some (Some "alice.Alice Client.100"))
  ∧ Auth.post_api_auth_login no_auth_fault toy_compare 160 toy_sign true
      "alice@example.com" "secret" registered.2
    = (mkAuthRes 200 (auth_user "alice" "Alice Client" "alice@example.com")
         (Some (Some "alice.Alice Client.160")), registered.2)
  ∧ Auth.post_api_auth_register no_auth_fault toy_hash 100 toy_sign true
      "" "alice@example.com" "secret" "alice" "s" ∅
    = (mkAuthRes 500
         (auth_message
            "User validation failed: name: Path `name` is required.")
         None, ∅).
Proof.
  intros registered.
  assert (Hnone : ∀ k u, (∅ : gmap string User.t) !! k = Some u →
                         User.email u ≠ "alice@example.com")
    by (intros k u Hk; by rewrite lookup_empty in Hk).
  assert (Hne : "alice@example.com" ≠ "") by discriminate.
  assert (Hname : "Alice Client" ≠ "") by discriminate.
  assert (Hhash : toy_hash "s" "secret" ≠ "") by discriminate.
  destruct (register_then_login toy_hash toy_compare 100 160 toy_sign true
              "Alice Client" "alice@example.com" "secret" "alice" "s" ∅
              (lookup_empty _) Hnone) as [Hvalid _].
  destruct (Hvalid Hname Hne Hhash eq_refl) as [Hregister Hlogin].
  destruct (register_then_login toy_hash toy_compare 100 160 toy_sign true
              "" "alice@example.com" "secret" "alice" "s" ∅
              (lookup_empty _) Hnone) as [_ Hbad].
  split; [|split].
  - subst registered. by rewrite Hregister.
  - exact Hlogin.
  - apply Hbad. discriminate.
Defined.

(** X23. A login is refused in one and the same way, 400 ['Invalid credentials']
    with no token and no write, whether no user has the email or the
    password is not the user's (the calls are assumed not to reject). *)
Theorem login_failures_alike bcrypt_compare now jwt_sign cookie email password
    users :
  (∀ k u, users !! k = Some u → User.email u = email →
          bcrypt_compare password (User.password u) = false) →
  Auth.post_api_auth_login no_auth_fault bcrypt_compare now jwt_sign cookie email
    password users
  = (mkAuthRes 400 (auth_message "Invalid credentials") None, users).
Proof.
  intros Hwrong. unfold Auth.post_api_auth_login, Auth.login_try, bind.
  destruct (User_findOne_cases no_auth_fault email users eq_refl)
    as [(k & u & -> & Hk & He)|[-> _]].
  - unfold Auth.auth_call, ret. simpl. rewrite (Hwrong k u Hk He).
    by destruct cookie.
  - by destruct cookie.
Qed.

Lemma login_failures_alike_witness :
  let users : gmap string User.t :=
    <["u1" := User.mk "Alice Client" "alice@example.com" "s$secret"]> ∅ in
  Auth.post_api_auth_login no_auth_fault toy_compare 100 toy_sign true
    "alice@example.com" "guess" users
  = Auth.post_api_auth_login no_auth_fault toy_compare 100 toy_sign true
      "nobody@example.com" "guess" users.
Proof.
  intros users.
  rewrite (login_failures_alike toy_compare 100 toy_sign true "alice@example.com"
             "guess" users).
  - rewrite (login_failures_alike toy_compare 100 toy_sign true
               "nobody@example.com" "guess" users); [reflexivity|].
    intros k u. unfold users. rewrite lookup_insert_Some, lookup_empty.
    intros [[<- <-]|[_ [=]]]. discriminate.
  - intros k u. unfold users. rewrite lookup_insert_Some, lookup_empty.
    intros [[<- <-]|[_ [=]]] _. reflexivity.
Defined.

(** ** The gate in front of the protected routes *)

Lemma split_space_nonempty s : split_space s ≠ [].
Proof.
  destruct s as [|c rest]; simpl; [done|].
  destruct (Ascii.eqb c Ascii.Space); [done|].
  by destruct (split_space rest).
Qed.

Lemma split_space_word w : no_space w = true → split_space w = [w].
Proof.
  induction w as [|c w IH]; simpl; [done|].
  intros [Hc Hw]%andb_true_iff. apply negb_true_iff in Hc.
  rewrite Hc, IH by done. done.
Qed.

Lemma split_space_app w rest :
  no_space w = true →
  split_space (w +:+ " " +:+ rest) = w :: split_space rest.
Proof.
  induction w as [|c w IH]; simpl; [done|].
  intros [Hc Hw]%andb_true_iff. apply negb_true_iff in Hc.
  rewrite Hc. by rewrite IH.
Qed.

(** X24. [authenticateToken] on the [Authorization] header looks at the second
    space-separated word only: whatever the first word is ([Bearer] or not),
    the request is treated the way the cookie-reading generation treats a
    request whose [token] cookie is that word; a header of one word, or no
    header, is answered 401. *)
Theorem authorization_header_gate now jwt_verify scheme token :
  no_space scheme = true → no_space token = true →
  Auth.authenticateToken_header now jwt_verify (Some (scheme +:+ " " +:+ token))
  = Auth.authenticateToken_cookie now jwt_verify (Some token)
  ∧ Auth.authenticateToken_header now jwt_verify (Some scheme) = sendStatus 401
  ∧ Auth.authenticateToken_header now jwt_verify None = sendStatus 401.
Proof.
  intros Hscheme Htoken. split; [|split; [|done]].
  - unfold Auth.authenticateToken_header, Auth.authenticateToken_cookie.
    rewrite split_space_app, split_space_word by done. simpl.
    destruct (String.eqb (scheme +:+ " " +:+ token) "") eqn:Hempty; [|done].
    apply String.eqb_eq in Hempty. by destruct scheme.
  - unfold Auth.authenticateToken_header.
    rewrite split_space_word by done. simpl.
    by destruct (String.eqb scheme "").
Qed.

Lemma authorization_header_gate_witness :
  Auth.authenticateToken_header 200 toy_verify (Some "Basic alice.Alice")
  = Auth.authenticateToken_cookie 200 toy_verify (Some "alice.Alice")
  ∧ Auth.authenticateToken_header 200 toy_verify (Some "Bearer") = sendStatus 401.
Proof.
  destruct (authorization_header_gate 200 toy_verify "Basic" "alice.Alice"
              eq_refl eq_refl) as (Hsame & _ & _).
  destruct (authorization_header_gate 200 toy_verify "Bearer" "" eq_refl eq_refl)
    as (_ & H401 & _).
  split; [exact Hsame|exact H401].
Defined.

(** X25. Nothing behind the gate runs without a token that verifies: when the
    gate lets a request through, the identity it hands to the handler is the
    payload of a non-empty token that [jwt.verify] accepted; otherwise the
    request is answered 401 or 403 and the store is not touched, whatever
    the handler is. *)
Theorem gate_passes_only_verified {R} now jwt_verify
    (handler : AuthUser → Store → R * Store) db :
  (∀ token,
     match Auth.authenticateToken_cookie now jwt_verify token with
     | next user => ∃ t, token = Some t ∧ t ≠ "" ∧ jwt_verify now t = Some user
     | sendStatus code =>
       (code = 401 ∨ code = 403)
       ∧ behind_gate (Auth.authenticateToken_cookie now jwt_verify token)
           handler db = (inl code, db)
     end)
  ∧ (∀ authorization,
       match Auth.authenticateToken_header now jwt_verify authorization with
       | next user =>
         ∃ h t, authorization = Some h ∧ split_space h !! 1 = Some t
                ∧ t ≠ "" ∧ jwt_verify now t = Some user
       | sendStatus code =>
         (code = 401 ∨ code = 403)
         ∧ behind_gate (Auth.authenticateToken_header now jwt_verify authorization)
             handler db = (inl code, db)
       end).
Proof.
  split.
  - intros [t|]; unfold Auth.authenticateToken_cookie; [|by split; [left|]].
    destruct (String.eqb t "") eqn:Ht; [by split; [left|]|].
    apply String.eqb_neq in Ht.
    destruct (jwt_verify now t) as [user|] eqn:Hv; [by exists t|].
    by split; [right|].
  - intros [h|]; unfold Auth.authenticateToken_header; [|by split; [left|]].
    destruct (String.eqb h "") eqn:Hh; [by split; [left|]|].
    destruct (split_space h !! 1) as [t|] eqn:Hsplit; [|by split; [left|]].
    destruct (String.eqb t "") eqn:Ht; [by split; [left|]|].
    apply String.eqb_neq in Ht.
    destruct (jwt_verify now t) as [user|] eqn:Hv; [by exists h, t|].
    by split; [right|].
Qed.

(** X26. The cookie a registration hands out opens [GET /api/auth/me]. For
    a registration, with calls that do not reject, under a free id and a
    free email, of a user that passes [userSchema] (the name, the email and
    the hash of the password are not empty): when the token signed at the
    time of the registration is not empty and [jwt.verify], at the later
    time of the request that carries it, returns its payload (the token has
    not expired), that request is answered 200 with the registered id, name
    and email. *)
Theorem registered_user_is_recognised bcrypt_hash now later jwt_sign
    jwt_verify name email password _id salt users :
  users !! _id = None →
  (∀ k u, users !! k = Some u → User.email u ≠ email) →
  name ≠ "" → email ≠ "" → bcrypt_hash salt password ≠ "" →
  jwt_verify later (jwt_sign now (mkUser _id name)) = Some (mkUser _id name) →
  jwt_sign now (mkUser _id name) ≠ "" →
  let registered :=
    Auth.post_api_auth_register no_auth_fault bcrypt_hash now jwt_sign true name
      email password _id salt users in
  ∃ token,
    auth_cookie registered.1 = Some (Some token)
    ∧ Auth.get_api_auth_me no_auth_fault later jwt_verify (Some token)
        registered.2
      = (mkAuthRes 200 (auth_user _id name email) None, registered.2).
Proof.
  intros Hfresh Hnone Hname Hemail Hhash Hjwt Hne registered.
  subst registered.
  assert (Hvalid : userSchema (User.mk name email (bcrypt_hash salt password))
                   = []) by (by apply userSchema_nil).
  assert (Hreg : Auth.post_api_auth_register no_auth_fault bcrypt_hash now
                   jwt_sign true name email password _id salt users
                 = (mkAuthRes 200 (auth_user _id name email)
                      (Some (Some (jwt_sign now (mkUser _id name)))),
                    <[_id := User.mk name email (bcrypt_hash salt password)]>
                      users)).
  { unfold Auth.post_api_auth_register, Auth.register_try, bind.
    destruct (User_findOne_cases no_auth_fault email users eq_refl)
      as [(k & u & _ & Hk & He)|[-> _]]; [by destruct (Hnone k u Hk)|].
    unfold Auth.auth_call, Auth.User_create, ret.
    cbn [no_auth_fault]. rewrite Hvalid.
    destruct (decide _) as [[Hid|Hdup]|_]; [| |done].
    - rewrite Hfresh in Hid. by destruct Hid.
    - apply Exists_exists in Hdup as ([k u] & Hin & He).
      apply elem_of_map_to_list in Hin. by destruct (Hnone k u Hin). }
  rewrite Hreg. exists (jwt_sign now (mkUser _id name)). split; [done|].
  unfold Auth.get_api_auth_me, Auth.authenticateToken_cookie. simpl.
  apply String.eqb_neq in Hne. rewrite Hne, Hjwt.
  unfold Auth.User_findById, Auth.auth_call. simpl.
  by rewrite lookup_insert_eq.
Qed.

Lemma registered_user_is_recognised_witness :
  let registered :=
    Auth.post_api_auth_register no_auth_fault toy_hash 100 toy_sign true
      "Alice Client" "alice@example.com" "secret" "alice" "s" ∅ in
  Auth.get_api_auth_me no_auth_fault 200 toy_verify
    (Some "alice.Alice Client.100") registered.2
  = (mkAuthRes 200 (auth_user "alice" "Alice Client" "alice@example.com") None,
     registered.2).
Proof.
  intros registered.
  assert (Hnone : ∀ k u, (∅ : gmap string User.t) !! k = Some u →
                         User.email u ≠ "alice@example.com")
    by (intros k u Hk; by rewrite lookup_empty in Hk).
  assert (Hne : toy_sign 100 (mkUser "alice" "Alice Client") ≠ "")
    by discriminate.
  assert (Hemail : "alice@example.com" ≠ "") by discriminate.
  assert (Hname : "Alice Client" ≠ "") by discriminate.
  assert (Hhash : toy_hash "s" "secret" ≠ "") by discriminate.
  destruct (registered_user_is_recognised toy_hash 100 200 toy_sign toy_verify
              "Alice Client" "alice@example.com" "secret" "alice" "s" ∅
              (lookup_empty _) Hnone Hname Hemail Hhash eq_refl Hne)
    as (token & Hcookie & Hme).
  injection Hcookie as <-. exact Hme.
Defined.

(** * The local data of the client *)

(** ** Reading and writing [localStorage] *)

(** X27. [getLS] never fails: a key that is absent, empty or holds something that
    is not an array reads as the empty array and is left alone; a key whose
    item does not parse reads as the empty array and is removed. What [setLS]
    wrote under a key is what [getLS] reads there, when [JSON.parse] undoes
    [JSON.stringify] on that array (and the text is not empty), and writing
    one key does not change what is read under another. *)
Theorem getLS_reads {T U} (codec : Codec T) (other : Codec U) key key'
    (data : list T) (ls : ClientApi.LocalStorage) :
  (ls !! key = None → LocalData.getLS codec key ls = ([], ls))
  ∧ (∀ item, ls !! key = Some item → item ≠ "" →
             JSON_parse codec item = parse_throws →
             LocalData.getLS codec key ls = ([], delete key ls)
             ∧ LocalData.getLS codec key (delete key ls) = ([], delete key ls))
  ∧ (∀ item, ls !! key = Some item →
             JSON_parse codec item = not_an_array →
             LocalData.getLS codec key ls = ([], ls))
  ∧ (JSON_parse codec (JSON_stringify codec data) = array data →
     JSON_stringify codec data ≠ "" →
     LocalData.getLS codec key (LocalData.setLS codec key data ls)
     = (data, LocalData.setLS codec key data ls))
  ∧ (key' ≠ key →
     (LocalData.getLS other key' (LocalData.setLS codec key data ls)).1
     = (LocalData.getLS other key' ls).1).
Proof.
  unfold LocalData.getLS, LocalData.setLS, ClientApi.LocalStorage in *.
  split; [|split; [|split; [|split]]].
  - by intros ->.
  - intros item Hitem Hne Hparse. apply String.eqb_neq in Hne.
    rewrite Hitem, Hne, Hparse. split; [done|]. by rewrite lookup_delete_eq.
  - intros item -> Hparse. rewrite Hparse. by destruct (String.eqb item "").
  - intros Hparse Hne. apply String.eqb_neq in Hne.
    by rewrite lookup_insert_eq, Hne, Hparse.
  - intros Hne. rewrite lookup_insert_ne by done.
    destruct (ls !! key') as [item|]; [|done].
    destruct (String.eqb item ""); [done|].
    by destruct (JSON_parse other item).
Qed.

Lemma getLS_reads_witness :
  let ls : ClientApi.LocalStorage := <["gigflow_bids" := "[b1,"]> ∅ in
  LocalData.getLS example_bid_codec "gigflow_bids" ls = ([], ∅)
  ∧ LocalData.getLS example_bid_codec "gigflow_bids"
      (LocalData.setLS example_bid_codec "gigflow_bids" [local_b1; local_b3] ls)
    = ([local_b1; local_b3], <["gigflow_bids" := "[b1,b3]"]> ∅).
Proof.
  intros ls.
  destruct (getLS_reads example_bid_codec example_gig_codec "gigflow_bids"
              "gigflow_gigs" [local_b1; local_b3] ls)
    as (_ & Hthrows & _ & Hround & _).
  split.
  - destruct (Hthrows "[b1," eq_refl) as [-> _]; [discriminate|reflexivity|].
    reflexivity.
  - rewrite Hround; [reflexivity|reflexivity|discriminate].
Defined.

(** ** Bidding and hiring on the local data *)

Lemma find_pair_Some gigId freelancerId (bids : list ClientBid.t) :
  (∃ b, b ∈ bids ∧ ClientBid.gigId b = gigId
        ∧ ClientBid.freelancerId b = freelancerId) →
  ∃ existing,
    List.find (λ b, String.eqb (ClientBid.gigId b) gigId
                    && String.eqb (ClientBid.freelancerId b) freelancerId)
      bids = Some existing.
Proof.
  intros (b & Hin & Hg & Hf).
  destruct (List.find _ bids) as [existing|] eqn:Hfind; [by eexists|].
  apply list_elem_of_In in Hin.
  pose proof (find_none _ _ Hfind b Hin) as Hno. simpl in Hno.
  apply andb_false_iff in Hno as [Hno|Hno]; apply String.eqb_neq in Hno;
    congruence.
Qed.

Lemma find_pair_None gigId freelancerId (bids : list ClientBid.t) :
  (∀ b, b ∈ bids → ClientBid.gigId b = gigId →
        ClientBid.freelancerId b = freelancerId → False) →
  List.find (λ b, String.eqb (ClientBid.gigId b) gigId
                  && String.eqb (ClientBid.freelancerId b) freelancerId)
    bids = None.
Proof.
  intros Hnone.
  destruct (List.find _ bids) as [existing|] eqn:Hfind; [|done].
  apply find_some in Hfind as [Hin Htest].
  apply andb_true_iff in Htest as [Hg%String.eqb_eq Hf%String.eqb_eq].
  destruct (Hnone existing); [by apply list_elem_of_In|done|done].
Qed.

(** X28. The local [createBid]: when the stored bids hold one of the freelancer
    on the gig, the call is rejected with ['Already bid on this gig'] and
    writes nothing; otherwise it appends a pending bid with the generated id
    and resolves to it, and (when the written array reads back) a further bid
    of the freelancer on the gig is then rejected. Whether the gig exists or
    is open is not looked at. *)
Theorem createBid_fallback bid_codec gigId freelancerId freelancerName message
    price newId now ls bids ls1 :
  LocalData.getLS bid_codec "gigflow_bids" ls = (bids, ls1) →
  let newBid := ClientBid.mk newId gigId freelancerId freelancerName message
                  price Bid.pending now in
  let call :=
    LocalData.createBid_fallbackFn bid_codec gigId freelancerId freelancerName
      message price newId now ls in
  ((∃ b, b ∈ bids ∧ ClientBid.gigId b = gigId
         ∧ ClientBid.freelancerId b = freelancerId) →
   call = (ClientApi.rejected
             (ClientApi.mkJsError "Error" "Already bid on this gig" None), ls1))
  ∧ ((∀ b, b ∈ bids → ClientBid.gigId b = gigId →
           ClientBid.freelancerId b = freelancerId → False) →
     call = (ClientApi.resolved newBid,
             LocalData.setLS bid_codec "gigflow_bids" (bids ++ [newBid]) ls1)
     ∧ (JSON_parse bid_codec (JSON_stringify bid_codec (bids ++ [newBid]))
        = array (bids ++ [newBid]) →
        JSON_stringify bid_codec (bids ++ [newBid]) ≠ "" →
        ∀ name' message' price' newId' now',
          LocalData.createBid_fallbackFn bid_codec gigId freelancerId name'
            message' price' newId' now' call.2
          = (ClientApi.rejected
               (ClientApi.mkJsError "Error" "Already bid on this gig" None),
             call.2))).
Proof.
  intros Hget newBid call.
  assert (Hdup_case :
            (∃ b, b ∈ bids ∧ ClientBid.gigId b = gigId
                  ∧ ClientBid.freelancerId b = freelancerId) →
            call = (ClientApi.rejected
                      (ClientApi.mkJsError "Error" "Already bid on this gig"
                         None), ls1)).
  { intros Hdup. subst call. unfold LocalData.createBid_fallbackFn.
    rewrite Hget. by destruct (find_pair_Some _ _ _ Hdup) as [existing ->]. }
  assert (Hnew_case :
            (∀ b, b ∈ bids → ClientBid.gigId b = gigId →
                  ClientBid.freelancerId b = freelancerId → False) →
            call = (ClientApi.resolved newBid,
                    LocalData.setLS bid_codec "gigflow_bids"
                      (bids ++ [newBid]) ls1)).
  { intros Hnone. subst call. unfold LocalData.createBid_fallbackFn.
    by rewrite Hget, (find_pair_None _ _ _ Hnone). }
  split; [exact Hdup_case|]. intros Hnone. split; [by apply Hnew_case|].
  intros Hparse Hne name' message' price' newId' now'.
  rewrite (Hnew_case Hnone). cbn [snd].
  assert (Hread : LocalData.getLS bid_codec "gigflow_bids"
                    (LocalData.setLS bid_codec "gigflow_bids"
                       (bids ++ [newBid]) ls1)
                  = (bids ++ [newBid],
                     LocalData.setLS bid_codec "gigflow_bids"
                       (bids ++ [newBid]) ls1)).
  { unfold LocalData.getLS, LocalData.setLS, ClientApi.LocalStorage in *.
    apply String.eqb_neq in Hne.
    by rewrite lookup_insert_eq, Hne, Hparse. }
  unfold LocalData.createBid_fallbackFn. rewrite Hread.
  destruct (find_pair_Some gigId freelancerId (bids ++ [newBid]))
    as [existing ->]; [|done].
  exists newBid. split; [|done]. apply elem_of_app. right.
  by apply list_elem_of_singleton.
Qed.

Lemma createBid_fallback_witness :
  let call :=
    LocalData.createBid_fallbackFn example_bid_codec "G1" "F9" "Fay" "hello" 80
      "b9" "t9" example_storage in
  call = (ClientApi.resolved local_b9,
          <["gigflow_bids" := "[b1,b3,b9]"]> example_storage)
  ∧ LocalData.createBid_fallbackFn example_bid_codec "G1" "F9" "Fay" "again" 70
      "b10" "t10" call.2
    = (ClientApi.rejected
         (ClientApi.mkJsError "Error" "Already bid on this gig" None), call.2).
Proof.
  intros call.
  assert (Hnone : ∀ b, b ∈ [local_b1; local_b3] → ClientBid.gigId b = "G1" →
                       ClientBid.freelancerId b = "F9" → False).
  { intros b Hin _ Hf.
    apply elem_of_cons in Hin as [->|Hin]; [discriminate|].
    apply list_elem_of_singleton in Hin as ->. discriminate. }
  destruct (createBid_fallback example_bid_codec "G1" "F9" "Fay" "hello" 80
              "b9" "t9" example_storage [local_b1; local_b3] example_storage
              eq_refl) as [_ Hnew].
  destruct (Hnew Hnone) as [Hcall Hagain].
  split; [exact Hcall|].
  apply Hagain; [reflexivity|discriminate].
Defined.

Lemma findIndex_None gigId gigs :
  LocalData.findIndex gigId gigs = None
  ↔ ∀ g, g ∈ gigs → ClientGig.id g ≠ gigId.
Proof.
  induction gigs as [|g gigs IH]; simpl.
  - split; [|done]. intros _ g Hin. by apply not_elem_of_nil in Hin.
  - destruct (String.eqb (ClientGig.id g) gigId) eqn:Heq.
    + apply String.eqb_eq in Heq. split; [done|].
      intros Hall. destruct (Hall g); [by left|done].
    + apply String.eqb_neq in Heq.
      destruct (LocalData.findIndex gigId gigs); simpl.
      * split; [done|]. intros Hall.
        assert (Hno : Some n = None); [|done].
        apply IH. intros g' Hin. apply Hall. by right.
      * split; [|done]. intros _ g' [->|Hin]%elem_of_cons; [done|].
        by apply IH.
Qed.

Lemma findIndex_Some gigId gigs i :
  LocalData.findIndex gigId gigs = Some i →
  ∃ g, gigs !! i = Some g ∧ ClientGig.id g = gigId
       ∧ ∀ j g', j < i → gigs !! j = Some g' → ClientGig.id g' ≠ gigId.
Proof.
  revert i. induction gigs as [|g gigs IH]; intros i; simpl; [done|].
  destruct (String.eqb (ClientGig.id g) gigId) eqn:Heq.
  - intros [= <-]. apply String.eqb_eq in Heq. exists g.
    split; [done|]. split; [done|]. intros j g' Hj. lia.
  - apply String.eqb_neq in Heq.
    destruct (LocalData.findIndex gigId gigs) as [n|]; simpl; [|done].
    intros [= <-]. destruct (IH n eq_refl) as (g0 & Hg0 & Hid & Hfirst).
    exists g0. split; [done|]. split; [done|].
    intros [|j] g' Hj; simpl; [by intros [= <-]|].
    apply Hfirst. lia.
Qed.

(** X29. The local [hireFreelancer]: when no stored gig has the id, the call is
    rejected with ['Gig not found'] and writes nothing. Otherwise it
    succeeds, whoever calls and whatever the status of the gig: the first
    gig with the id is written back as assigned and the other gigs as they
    were; every bid of another gig is written back as it was, also the one
    that [bidId] names; every bid of the gig is written back hired if its id
    is [bidId] and rejected if not. *)
Theorem hireFreelancer_fallback gig_codec bid_codec gigId bidId ls gigs ls1
    bids ls2 :
  LocalData.getLS gig_codec "gigflow_gigs" ls = (gigs, ls1) →
  LocalData.getLS bid_codec "gigflow_bids" ls1 = (bids, ls2) →
  let call :=
    LocalData.hireFreelancer_fallbackFn gig_codec bid_codec gigId bidId ls in
  ((∀ g, g ∈ gigs → ClientGig.id g ≠ gigId) →
   call = (ClientApi.rejected (ClientApi.mkJsError "Error" "Gig not found" None),
           ls2))
  ∧ ((∃ g, g ∈ gigs ∧ ClientGig.id g = gigId) →
     ∃ gigs' bids' i g,
       call = (ClientApi.resolved tt,
               LocalData.setLS bid_codec "gigflow_bids" bids'
                 (LocalData.setLS gig_codec "gigflow_gigs" gigs' ls2))
       ∧ gigs !! i = Some g ∧ ClientGig.id g = gigId
       ∧ (∀ j g', j < i → gigs !! j = Some g' → ClientGig.id g' ≠ gigId)
       ∧ gigs' !! i = Some (ClientGig.set_status Gig.assigned g)
       ∧ (∀ j, j ≠ i → gigs' !! j = gigs !! j)
       ∧ length gigs' = length gigs
       ∧ length bids' = length bids
       ∧ (∀ k b, bids !! k = Some b →
                 ClientBid.gigId b ≠ gigId → bids' !! k = Some b)
       ∧ (∀ k b, bids !! k = Some b → ClientBid.gigId b = gigId →
                 bids' !! k
                 = Some (ClientBid.set_status
                           (if decide (ClientBid.id b = bidId)
                            then Bid.hired else Bid.rejected) b))).
Proof.
  intros Hgigs Hbids call. subst call.
  unfold LocalData.hireFreelancer_fallbackFn. rewrite Hgigs, Hbids. split.
  - intros Hnone. by rewrite (proj2 (findIndex_None gigId gigs) Hnone).
  - intros (g0 & Hin & Hid0).
    destruct (LocalData.findIndex gigId gigs) as [i|] eqn:Hfind; cycle 1.
    { by destruct (proj1 (findIndex_None gigId gigs) Hfind g0 Hin). }
    destruct (findIndex_Some gigId gigs i Hfind) as (g & Hg & Hid & Hfirst).
    eexists _, _, i, g. split; [done|].
    split; [done|]. split; [done|]. split; [done|].
    split; [by rewrite list_lookup_alter_eq, Hg|].
    split; [intros j Hj; by rewrite list_lookup_alter_ne|].
    split; [by rewrite length_alter|].
    split; [by rewrite length_fmap|].
    split.
    + intros k b Hk Hne. rewrite list_lookup_fmap, Hk. simpl.
      apply String.eqb_neq in Hne. by rewrite Hne.
    + intros k b Hk He. rewrite list_lookup_fmap, Hk. simpl.
      apply String.eqb_eq in He. rewrite He.
      destruct (decide (ClientBid.id b = bidId)) as [Hb|Hb].
      * apply String.eqb_eq in Hb. by rewrite Hb.
      * apply String.eqb_neq in Hb. by rewrite Hb.
Qed.

(** Hiring, on [G1], the bid [b3] of [G2]: [b1] is rejected and [b3] stays
    as it was. *)
Lemma hireFreelancer_fallback_witness :
  ∃ gigs' bids',
    LocalData.hireFreelancer_fallbackFn example_gig_codec example_bid_codec
      "G1" "b3" example_storage
    = (ClientApi.resolved tt,
       LocalData.setLS example_bid_codec "gigflow_bids" bids'
         (LocalData.setLS example_gig_codec "gigflow_gigs" gigs'
            example_storage))
    ∧ gigs' !! 0 = Some (ClientGig.set_status Gig.assigned local_G1)
    ∧ bids' !! 0 = Some (ClientBid.set_status Bid.rejected local_b1)
    ∧ bids' !! 1 = Some local_b3.
Proof.
  destruct (hireFreelancer_fallback example_gig_codec example_bid_codec "G1"
              "b3" example_storage [local_G1] example_storage
              [local_b1; local_b3] example_storage eq_refl eq_refl)
    as [_ Hhire].
  destruct Hhire as (gigs' & bids' & i & g & Hcall & Hg & Hid & Hfirst & Hg'
                     & _ & _ & _ & Hother & Hsame).
  { exists local_G1. split; [by apply list_elem_of_singleton|reflexivity]. }
  exists gigs', bids'. split; [exact Hcall|].
  destruct i as [|i]; [|by destruct i].
  injection Hg as <-.
  split; [exact Hg'|]. split.
  - apply (Hsame 0 local_b1); reflexivity.
  - apply (Hother 1 local_b3); [reflexivity|discriminate].
Defined.

(** * Examples for the properties of the servers *)

Lemma market_one_bid_per_pair : one_bid_per_pair market.
Proof.
  intros k1 k2 c1 c2. unfold market. simpl.
  rewrite !lookup_insert_Some, !lookup_empty.
  intros [[<- <-]|[_ [[<- <-]|[_ [[<- <-]|[_ [=]]]]]]]
         [[<- <-]|[_ [[<- <-]|[_ [[<- <-]|[_ [=]]]]]]] Hg Hf;
    first [reflexivity|discriminate].
Qed.

Lemma one_bid_per_pair_kept_witness :
  one_bid_per_pair
    (run_rest_server no_fault (λ _ _, true)
       [RestServer.POST_api_bids (mkUser "F1" "Frank")
          (mkBidBody "G1" "again" 90) "b9" 10;
        RestServer.POST_api_hire alice "G1" "b3"] market).
Proof.
  destruct (one_bid_per_pair_kept no_fault (λ _ _, true) ∅ market
              market_one_bid_per_pair) as [Hrest _].
  apply Hrest.
Defined.


Lemma rest_server_keeps_invariant_witness :
  hire_invariant
    (RestServer.handle no_fault (λ _ _, true)
       (RestServer.POST_api_hire alice "G1" "b1") market).2.
Proof.
  apply rest_server_keeps_invariant.
  - intros user gigId bidId bid [= <- <- <-] Hbid.
    assert (Hb1 : bids market !! "b1" = Some b1) by reflexivity.
    rewrite Hb1 in Hbid. by injection Hbid as <-.
  - apply no_hired_bid_invariant.
    apply (bool_decide_unpack _). vm_compute. exact I.
Defined.

(** * The notifier *)

Lemma on_notification_ids data prev :
  NoDup (js_get "id" <$> prev) →
  NoDup (js_get "id" <$> RealtimeNotifier.on_notification data prev)
  ∧ js_get "id" data ∈ js_get "id" <$> RealtimeNotifier.on_notification data prev.
Proof.
  intros Hnd. unfold RealtimeNotifier.on_notification.
  destruct (existsb _ prev) eqn:Hseen.
  - split; [done|]. apply existsb_exists in Hseen as (n & Hin & Heq).
    apply bool_decide_eq_true in Heq. rewrite <- Heq.
    apply list_elem_of_fmap. exists n. split; [done|].
    by apply list_elem_of_In.
  - rewrite fmap_app. simpl. split.
    + apply NoDup_app. split; [done|]. split; [|apply NoDup_singleton].
      intros i Hi Hi'. apply list_elem_of_singleton in Hi' as ->.
      apply list_elem_of_fmap in Hi as (n & Heq & Hin).
      assert (Hex : existsb
                      (λ n, bool_decide (js_get "id" n = js_get "id" data))
                      prev = true); [|congruence].
      apply existsb_exists. exists n. split; [by apply list_elem_of_In|].
      by apply bool_decide_eq_true.
    + apply elem_of_app. right. by apply list_elem_of_singleton.
Qed.

(** X30. Whatever notifications arrive and whatever the user dismisses, the
    notifier never shows two notifications with the same bid id: a packet
    that arrives again while it is shown is ignored. A notification that has
    just arrived is shown, and one that has just been dismissed is not. *)
Theorem notifier_shows_each_once events :
  NoDup (js_get "id" <$> RealtimeNotifier.shown events)
  ∧ (∀ data,
       js_get "id" data
       ∈ js_get "id"
           <$> RealtimeNotifier.shown
                 (events ++ [RealtimeNotifier.notification data]))
  ∧ (∀ id,
       Some (JsString id)
       ∉ js_get "id"
           <$> RealtimeNotifier.shown (events ++ [RealtimeNotifier.dismiss id])).
Proof.
  assert (Hnd : ∀ start, NoDup (js_get "id" <$> start) →
            NoDup (js_get "id" <$> foldl RealtimeNotifier.update start events)).
  { induction events as [|e events IH]; intros start Hstart; [done|].
    simpl. apply IH. destruct e as [data|id]; simpl.
    - by apply on_notification_ids.
    - unfold RealtimeNotifier.removeNotification.
      induction start as [|n start IHs]; [done|].
      rewrite fmap_cons in Hstart. apply NoDup_cons in Hstart as [Hn Hrest].
      rewrite filter_cons. case_decide; [|by apply IHs].
      rewrite fmap_cons. apply NoDup_cons. split; [|by apply IHs].
      intros Hin. apply Hn.
      apply list_elem_of_fmap in Hin as (m & Heq & Hin).
      apply list_elem_of_filter in Hin as [_ Hin].
      apply list_elem_of_fmap. by exists m. }
  unfold RealtimeNotifier.shown. split; [apply Hnd; constructor|]. split.
  - intros data. rewrite foldl_app. simpl.
    apply on_notification_ids, Hnd. constructor.
  - intros id. rewrite foldl_app. simpl.
    unfold RealtimeNotifier.removeNotification.
    intros Hin. apply list_elem_of_fmap in Hin as (m & Heq & Hin).
    apply list_elem_of_filter in Hin as [Hne _]. congruence.
Qed.

(** The packet of a hire delivered twice is shown once. *)
Example notifier_dedups_hire_packet :
  let sent :=
    (SocketServer.patch_api_bids_hire no_fault (<["F1" := [7]]> ∅) alice "b1"
       market).2 in
  RealtimeNotifier.shown
    (RealtimeNotifier.notification <$> (packet_data <$> (sent ++ sent)))
  = [[("id", JsString "b1"); ("gigId", JsString "G1");
      ("price", JsNumber 100); ("status", JsString "hired")]].
Proof. reflexivity. Qed.
